(** * Twitter Auto-Expand content script: a shallow embedding

    The development follows [src/content.js] (the "Chrome optimized"
    pipeline: scan, pending set, idle batch, visibility gate, delayed
    click) and, in [Module Legacy] and [Module LegacyLoop], the validation
    predicates and the pipeline of the earlier variant kept in the
    repository ([src/unnamed/part_000]).

    The script runs on one event loop.  Its module-level variables and the
    host-side queues it talks to (timers, idle callbacks, observers) are
    gathered in one record [State]; every callback of the script is a
    function on [State] taking the DOM as it is when the callback runs
    ([Page]); the event loop is the step function [step].  A trace of
    observable effects ([log]) records what happened and when. *)

From stdpp Require Import gmap strings list.

Open Scope nat_scope.

#[local] Set Warnings "-abstract-large-number".

(** ** Elements and the page *)

(** An element handle: identity only, as a [WeakSet] or [Set] key. *)
Definition elem := nat.

(** What [findTweetContainer] reads of an ancestor. *)
Record Ancestor := {
  a_testid : option string;   (* dataset?.testid *)
  a_tagName : string;         (* tagName *)
  a_role : option string      (* getAttribute('role') *)
}.

(** What the scripts read of a button.  The inline style is [button.style];
    the computed style, layout box and [aria-hidden] are read by the earlier
    variant only.  Extents are in layout units. *)
Record Element := {
  isConnected : bool;
  dataset_testid : option string;
  style_display : string;
  style_visibility : string;
  textContent : string;
  disabled : bool;
  ancestors : list Ancestor;          (* parentElement chain, nearest first *)
  click_raises : bool;                (* whether click() throws *)
  computed_display : string;
  computed_visibility : string;
  computed_opacity : string;
  rect_width : Z;
  rect_height : Z;
  aria_hidden : bool                  (* hasAttribute('aria-hidden') *)
}.

(** The DOM as one callback sees it. *)
Record Page := {
  querySelectorAll : list elem;       (* matches of BUTTON_SELECTOR, document order *)
  element : elem -> Element;
  location_href : string
}.

(** ** Strings as JavaScript compares them *)

(** [hay.includes(needle)] *)
Fixpoint includes (needle hay : string) : bool :=
  String.prefix needle hay ||
  match hay with
  | EmptyString => false
  | String _ rest => includes needle rest
  end.

(** [o === v] for a possibly undefined string *)
Definition str_is (o : option string) (v : string) : bool :=
  match o with
  | Some x => String.eqb x v
  | None => false
  end.

(** [o?.includes(v)] used as a condition *)
Definition opt_includes (v : string) (o : option string) : bool :=
  match o with
  | Some x => includes v x
  | None => false
  end.

(** ** Configuration *)

(** [intersectionThreshold] and the root margin are parameters of the
    host's IntersectionObserver; which entries it reports as intersecting is
    an input of the event loop below. *)
Module CONFIG.
Definition clickDelay := 300.
Definition debounceDelay := 200.
Definition maxProcessPerBatch := 5.
End CONFIG.

Definition navigationDelay := 800.
Definition initialScanDelay := 1000.
Definition backupPeriod := 5000.
Definition idleTimeout := 1000.

(** ** Host queues and the trace *)

(** The closures handed to [setTimeout] and [setInterval], by call site. *)
Inductive Task :=
| InitialScan
| DebouncedScan
| NavScan
| Click (b : elem)
| Backup.

Record Timer := {
  tid : nat;
  due : nat;
  task : Task;
  period : option nat     (* [Some p] for setInterval *)
}.

(** A [requestIdleCallback] request of [processPendingButtons]: the batch
    its closure captured and the latest time it may run. *)
Record IdleRequest := {
  buttons : list elem;
  deadline : nat
}.

Inductive Msg :=
| MsgInitializing
| MsgInitComplete
| MsgFound (n : nat)
| MsgExpanded
| MsgClickError.

(** Observable effects.  [Clicked], [ConsoleLog], [ConsoleError] and
    [Uncaught] are effects of the script on its host; the others mark the
    point a call is made, for statements about the order of events. *)
Inductive Obs :=
| Clicked (b : elem)
| ConsoleLog (m : Msg)
| ConsoleError (m : Msg)
| Uncaught (err : string)
| Scan
| PendingAdd (b : elem)
| PendingClear (batch : list elem)
| Observe (b : elem)
| Crossing (b : elem)
| Release (b : elem)
| Signal
| Fire (t : Task).

#[global] Instance Task_eq_dec : EqDecision Task.
Proof. solve_decision. Defined.
#[global] Instance Msg_eq_dec : EqDecision Msg.
Proof. solve_decision. Defined.
#[global] Instance Obs_eq_dec : EqDecision Obs.
Proof. solve_decision. Defined.

(** ** State *)

Record State := {
  (* module-level variables of the script *)
  processedButtons : gset elem;                (* WeakSet: membership only *)
  pendingButtons : list elem;                  (* Set, insertion order *)
  debounceTimer : option nat;
  isProcessing : bool;
  observer : option bool;                      (* MutationObserver; observing? *)
  intersectionObserver : option (gset elem);   (* its observation targets *)
  currentUrl : string;
  (* host side *)
  navObserver : bool;                          (* created and observing *)
  timers : list Timer;
  nextTimerId : nat;
  idleCallbacks : list IdleRequest;
  now : nat;
  started : bool;                              (* initialize() has run *)
  log : list (nat * Obs)                       (* newest first *)
}.

(** Field updates. *)

Definition set_processedButtons (v : gset elem) (s : State) : State :=
  Build_State v (pendingButtons s) (debounceTimer s) (isProcessing s)
    (observer s) (intersectionObserver s) (currentUrl s) (navObserver s)
    (timers s) (nextTimerId s) (idleCallbacks s) (now s) (started s) (log s).

Definition set_pendingButtons (v : list elem) (s : State) : State :=
  Build_State (processedButtons s) v (debounceTimer s) (isProcessing s)
    (observer s) (intersectionObserver s) (currentUrl s) (navObserver s)
    (timers s) (nextTimerId s) (idleCallbacks s) (now s) (started s) (log s).

Definition set_debounceTimer (v : option nat) (s : State) : State :=
  Build_State (processedButtons s) (pendingButtons s) v (isProcessing s)
    (observer s) (intersectionObserver s) (currentUrl s) (navObserver s)
    (timers s) (nextTimerId s) (idleCallbacks s) (now s) (started s) (log s).

Definition set_isProcessing (v : bool) (s : State) : State :=
  Build_State (processedButtons s) (pendingButtons s) (debounceTimer s) v
    (observer s) (intersectionObserver s) (currentUrl s) (navObserver s)
    (timers s) (nextTimerId s) (idleCallbacks s) (now s) (started s) (log s).

Definition set_observer (v : option bool) (s : State) : State :=
  Build_State (processedButtons s) (pendingButtons s) (debounceTimer s)
    (isProcessing s) v (intersectionObserver s) (currentUrl s)
    (navObserver s) (timers s) (nextTimerId s) (idleCallbacks s) (now s)
    (started s) (log s).

Definition set_intersectionObserver (v : option (gset elem)) (s : State) : State :=
  Build_State (processedButtons s) (pendingButtons s) (debounceTimer s)
    (isProcessing s) (observer s) v (currentUrl s) (navObserver s)
    (timers s) (nextTimerId s) (idleCallbacks s) (now s) (started s) (log s).

Definition set_currentUrl (v : string) (s : State) : State :=
  Build_State (processedButtons s) (pendingButtons s) (debounceTimer s)
    (isProcessing s) (observer s) (intersectionObserver s) v (navObserver s)
    (timers s) (nextTimerId s) (idleCallbacks s) (now s) (started s) (log s).

Definition set_navObserver (v : bool) (s : State) : State :=
  Build_State (processedButtons s) (pendingButtons s) (debounceTimer s)
    (isProcessing s) (observer s) (intersectionObserver s) (currentUrl s) v
    (timers s) (nextTimerId s) (idleCallbacks s) (now s) (started s) (log s).

Definition set_timers (v : list Timer) (s : State) : State :=
  Build_State (processedButtons s) (pendingButtons s) (debounceTimer s)
    (isProcessing s) (observer s) (intersectionObserver s) (currentUrl s)
    (navObserver s) v (nextTimerId s) (idleCallbacks s) (now s) (started s)
    (log s).

Definition set_nextTimerId (v : nat) (s : State) : State :=
  Build_State (processedButtons s) (pendingButtons s) (debounceTimer s)
    (isProcessing s) (observer s) (intersectionObserver s) (currentUrl s)
    (navObserver s) (timers s) v (idleCallbacks s) (now s) (started s)
    (log s).

Definition set_idleCallbacks (v : list IdleRequest) (s : State) : State :=
  Build_State (processedButtons s) (pendingButtons s) (debounceTimer s)
    (isProcessing s) (observer s) (intersectionObserver s) (currentUrl s)
    (navObserver s) (timers s) (nextTimerId s) v (now s) (started s) (log s).

Definition set_now (v : nat) (s : State) : State :=
  Build_State (processedButtons s) (pendingButtons s) (debounceTimer s)
    (isProcessing s) (observer s) (intersectionObserver s) (currentUrl s)
    (navObserver s) (timers s) (nextTimerId s) (idleCallbacks s) v
    (started s) (log s).

Definition set_started (v : bool) (s : State) : State :=
  Build_State (processedButtons s) (pendingButtons s) (debounceTimer s)
    (isProcessing s) (observer s) (intersectionObserver s) (currentUrl s)
    (navObserver s) (timers s) (nextTimerId s) (idleCallbacks s) (now s) v
    (log s).

Definition set_log (v : list (nat * Obs)) (s : State) : State :=
  Build_State (processedButtons s) (pendingButtons s) (debounceTimer s)
    (isProcessing s) (observer s) (intersectionObserver s) (currentUrl s)
    (navObserver s) (timers s) (nextTimerId s) (idleCallbacks s) (now s)
    (started s) v.

(** An effect is recorded with the time at which it happens. *)
Definition emit (o : Obs) (s : State) : State :=
  set_log ((now s, o) :: log s) s.

(** A callback ends normally or by an exception; the state reached is kept
    either way. *)
Inductive Completion :=
| Normal (s : State)
| Throw (err : string) (s : State).

Definition andThen (c : Completion) (k : State -> Completion) : Completion :=
  match c with
  | Normal s => k s
  | Throw e s => Throw e s
  end.

Definition tryCatch (c : Completion) (handler : string -> State -> Completion)
  : Completion :=
  match c with
  | Normal s => Normal s
  | Throw e s => handler e s
  end.

Notation "c >>= k" := (andThen c k) (at level 50, left associativity).

(** An exception no handler caught is reported by the host and the event
    loop goes on. *)
Definition settle (c : Completion) : State :=
  match c with
  | Normal s => s
  | Throw e s => emit (Uncaught e) s
  end.

(** ** A JavaScript [Set] of elements: insertion order, no duplicates *)

Module JsSet.
Definition has (b : elem) (l : list elem) : bool := bool_decide (b ∈ l).
Definition add (b : elem) (l : list elem) : list elem :=
  if has b l then l else l ++ [b].
Definition delete (b : elem) (l : list elem) : list elem :=
  filter (λ x, x ≠ b) l.
End JsSet.

(** ** Timers of the host *)

Definition setTimeout (t : Task) (delay : nat) (s : State) : State :=
  set_nextTimerId (S (nextTimerId s))
    (set_timers (timers s ++ [Build_Timer (nextTimerId s) (now s + delay) t None]) s).

Definition setInterval (t : Task) (p : nat) (s : State) : State :=
  set_nextTimerId (S (nextTimerId s))
    (set_timers (timers s ++ [Build_Timer (nextTimerId s) (now s + p) t (Some p)]) s).

Definition clearTimeout (h : option nat) (s : State) : State :=
  match h with
  | Some i => set_timers (filter (λ tm, tid tm ≠ i) (timers s)) s
  | None => s
  end.

Definition requestIdleCallback (batch : list elem) (timeout : nat) (s : State)
  : State :=
  set_idleCallbacks (idleCallbacks s ++ [Build_IdleRequest batch (now s + timeout)]) s.

(** ** The script *)

Definition BUTTON_TESTID : string := "tweet-text-show-more-link".

(** [isValidShowMoreButton] *)
Definition isValidShowMoreButton (pg : Page) (s : State) (button : elem) : bool :=
  let el := element pg button in
  if negb (isConnected el) || bool_decide (button ∈ processedButtons s) then false
  else if negb (str_is (dataset_testid el) BUTTON_TESTID) then false
  else if String.eqb (style_display el) "none"
          || String.eqb (style_visibility el) "hidden" then false
  else if negb (includes "Show more" (textContent el)) then false
  else true.

Definition isTweetContainer (a : Ancestor) : bool :=
  str_is (a_testid a) "tweet"
  || (String.eqb (a_tagName a) "ARTICLE" && str_is (a_role a) "article").

(** The loop of [findTweetContainer]: [current] is the chain from the
    current ancestor upwards, [fuel] is [maxDepth - depth]. *)
Fixpoint climb (current : list Ancestor) (fuel : nat) : option Ancestor :=
  match fuel, current with
  | S k, a :: up => if isTweetContainer a then Some a else climb up k
  | _, _ => None
  end.

Definition findTweetContainer (el : Element) : option Ancestor :=
  climb (ancestors el) 10.

(** [button.click()] *)
Definition click (pg : Page) (button : elem) (s : State) : Completion :=
  if click_raises (element pg button) then Throw "click" s
  else Normal (emit (Clicked button) s).

(** The closure [processButton] hands to [setTimeout]. *)
Definition clickTask (pg : Page) (button : elem) (s : State) : Completion :=
  tryCatch
    (if isConnected (element pg button) && negb (disabled (element pg button))
     then click pg button s >>= λ s1, Normal (emit (ConsoleLog MsgExpanded) s1)
     else Normal s)
    (λ _ s1, Normal (emit (ConsoleError MsgClickError) s1)).

(** [processButton] *)
Definition processButton (pg : Page) (button : elem) (s : State) : State :=
  if negb (isValidShowMoreButton pg s button) then s
  else
    let s1 := set_processedButtons ({[button]} ∪ processedButtons s) s in
    match findTweetContainer (element pg button) with
    | None => s1
    | Some _ => setTimeout (Click button) CONFIG.clickDelay s1
    end.

(** The callback of the IntersectionObserver, one entry at a time. *)
Definition onEntry (pg : Page) (s : State) (entry : elem * bool) : State :=
  let '(target, isIntersecting) := entry in
  let s0 := if isIntersecting then emit (Crossing target) s else s in
  if isIntersecting && JsSet.has target (pendingButtons s0) then
    processButton pg target
      (emit (Release target)
         (set_pendingButtons (JsSet.delete target (pendingButtons s0)) s0))
  else s0.

Definition onIntersections (pg : Page) (entries : list (elem * bool)) (s : State)
  : State :=
  foldl (onEntry pg) s entries.

(** [setupIntersectionObserver] *)
Definition setupIntersectionObserver (s : State) : State :=
  match intersectionObserver s with
  | Some _ => s
  | None => set_intersectionObserver (Some ∅) s
  end.

(** [intersectionObserver.observe(button)] *)
Definition observe (button : elem) (s : State) : Completion :=
  match intersectionObserver s with
  | Some targets =>
      Normal (emit (Observe button)
                (set_intersectionObserver (Some ({[button]} ∪ targets)) s))
  | None => Throw "TypeError" s
  end.

(** [processFunction], the closure of [processPendingButtons], on the batch
    it captured. *)
Fixpoint observeEach (pg : Page) (batch : list elem) (s : State) : Completion :=
  match batch with
  | [] => Normal s
  | button :: rest =>
      if isConnected (element pg button)
      then observe button s >>= observeEach pg rest
      else observeEach pg rest s
  end.

Definition processFunction (pg : Page) (batch : list elem) (s : State)
  : Completion :=
  observeEach pg batch s >>= λ s1, Normal (set_isProcessing false s1).

(** [processPendingButtons] *)
Definition processPendingButtons (s : State) : State :=
  if isProcessing s then s
  else
    let s1 := set_isProcessing true s in
    let batch := take CONFIG.maxProcessPerBatch (pendingButtons s1) in
    let s2 := emit (PendingClear batch) (set_pendingButtons [] s1) in
    requestIdleCallback batch idleTimeout s2.

(** The test of the loop of [findNewButtons]. *)
Definition isCandidate (pg : Page) (s : State) (button : elem) : bool :=
  negb (bool_decide (button ∈ processedButtons s))
  && isValidShowMoreButton pg s button.

Fixpoint scanLoop (pg : Page) (matches : list elem) (newButtonCount : nat)
  (s : State) : nat * State :=
  match matches with
  | [] => (newButtonCount, s)
  | button :: rest =>
      if isCandidate pg s button then
        scanLoop pg rest (S newButtonCount)
          (emit (PendingAdd button)
             (set_pendingButtons (JsSet.add button (pendingButtons s)) s))
      else scanLoop pg rest newButtonCount s
  end.

(** [findNewButtons] *)
Definition findNewButtons (pg : Page) (s : State) : nat * State :=
  let '(newButtonCount, s1) := scanLoop pg (querySelectorAll pg) 0 (emit Scan s) in
  (newButtonCount,
   if 0 <? newButtonCount then processPendingButtons s1 else s1).

(** [debouncedExpand] *)
Definition debouncedExpand (s : State) : State :=
  let s1 := clearTimeout (debounceTimer s) (emit Signal s) in
  set_debounceTimer (Some (nextTimerId s1))
    (setTimeout DebouncedScan CONFIG.debounceDelay s1).

(** *** The change watcher *)

Record AddedNode := {
  nodeType : nat;
  node_testid : option string;    (* dataset?.testid *)
  node_hasButton : bool;          (* querySelector?.(BUTTON_SELECTOR) *)
  node_matches : bool             (* matches?.('[data-testid=tweet], article[role=article]') *)
}.

Record MutationRecord := {
  mutation_type : string;
  addedNodes : list AddedNode
}.

Definition ELEMENT_NODE := 1.

Definition relevantNode (node : AddedNode) : bool :=
  (nodeType node =? ELEMENT_NODE)
  && (opt_includes "tweet" (node_testid node)
      || node_hasButton node || node_matches node).

Definition shouldProcess (mutations : list MutationRecord) : bool :=
  existsb (λ m, String.eqb (mutation_type m) "childList"
                && (0 <? length (addedNodes m))
                && existsb relevantNode (addedNodes m)) mutations.

(** The callback of the MutationObserver of [setupMutationObserver]. *)
Definition onMutations (mutations : list MutationRecord) (s : State) : State :=
  if shouldProcess mutations then debouncedExpand s else s.

(** [setupMutationObserver] *)
Definition setupMutationObserver (s : State) : State :=
  match observer s with
  | Some _ => s
  | None => set_observer (Some true) s
  end.

(** [handleNavigation] *)
Definition handleNavigation (pg : Page) (s : State) : State :=
  if negb (String.eqb (location_href pg) (currentUrl s)) then
    setTimeout NavScan navigationDelay (set_currentUrl (location_href pg) s)
  else s.

(** The closure [initialize] hands to [setInterval]. *)
Definition backupTask (pg : Page) (s : State) : State :=
  (findNewButtons pg
     (set_pendingButtons
        (filter (λ b, isConnected (element pg b) = true) (pendingButtons s)) s)).2.

(** The closure [initialize] hands to [setTimeout]. *)
Definition initialScanTask (pg : Page) (s : State) : State :=
  let '(found, s1) := findNewButtons pg s in
  emit (ConsoleLog (MsgFound found)) s1.

(** [initialize] *)
Definition initialize (s : State) : State :=
  let s1 := emit (ConsoleLog MsgInitializing) s in
  let s2 := setupMutationObserver (setupIntersectionObserver s1) in
  let s3 := setTimeout InitialScan initialScanDelay s2 in
  let s4 := set_navObserver true s3 in
  let s5 := setInterval Backup backupPeriod s4 in
  emit (ConsoleLog MsgInitComplete) s5.

(** [cleanup] *)
Definition cleanup (s : State) : State :=
  let s1 := match observer s with
            | Some _ => set_observer (Some false) s
            | None => s
            end in
  let s2 := match intersectionObserver s1 with
            | Some _ => set_intersectionObserver (Some ∅) s1
            | None => s1
            end in
  clearTimeout (debounceTimer s2) s2.

(** ** The earlier variant of the script: its validation *)

Module Legacy.

Definition isSpace (c : Ascii.ascii) : bool :=
  let n := Ascii.nat_of_ascii c in ((9 <=? n) && (n <=? 13)) || (n =? 32).

Definition toLower (c : Ascii.ascii) : Ascii.ascii :=
  let n := Ascii.nat_of_ascii c in
  if (65 <=? n) && (n <=? 90) then Ascii.ascii_of_nat (n + 32) else c.

(** [s.toLowerCase()], on ASCII letters *)
Fixpoint toLowerCase (s : string) : string :=
  match s with
  | EmptyString => EmptyString
  | String c rest => String (toLower c) (toLowerCase rest)
  end.

Fixpoint trimStart (s : string) : string :=
  match s with
  | EmptyString => EmptyString
  | String c rest => if isSpace c then trimStart rest else s
  end.

Definition reverse (s : string) : string :=
  String.string_of_list_ascii (rev (String.list_ascii_of_string s)).

(** [s.trim()], on ASCII white space *)
Definition trim (s : string) : string :=
  reverse (trimStart (reverse (trimStart s))).

(** [isElementVisible] *)
Definition isElementVisible (el : Element) : bool :=
  if negb (isConnected el) then false
  else
    negb (String.eqb (computed_display el) "none")
    && negb (String.eqb (computed_visibility el) "hidden")
    && negb (String.eqb (computed_opacity el) "0")
    && (0 <? rect_width el)%Z && (0 <? rect_height el)%Z
    && negb (disabled el) && negb (aria_hidden el).

(** What one of the three [closest] calls of [isShowMoreButton] accepts. *)
Definition isTweetContext (a : Ancestor) : bool :=
  str_is (a_testid a) "tweet"
  || str_is (a_testid a) "tweetText"
  || (String.eqb (a_tagName a) "ARTICLE" && str_is (a_role a) "article").

(** [isShowMoreButton] *)
Definition isShowMoreButton (el : Element) : bool :=
  if negb (isConnected el) then false
  else if negb (str_is (dataset_testid el) "tweet-text-show-more-link") then false
  else if negb (includes "show more" (toLowerCase (trim (textContent el)))) then false
  else if negb (isElementVisible el) then false
  else if negb (existsb isTweetContext (ancestors el)) then false
  else true.

End Legacy.

(** ** The earlier variant of the script: its pipeline *)

(** The earlier variant ([src/unnamed/part_000]) has no pending set and no
    visibility watcher: a scan validates a button with [isShowMoreButton],
    marks it and queues its click at once.  Each run of
    [expandTruncatedPosts] has a counter of its own, [clickedCount], that
    its click closures share; the counters are kept in a store, one cell per
    run. *)
Module LegacyLoop.

Module CONFIG.
Definition clickDelay : nat := 500.
Definition checkInterval : nat := 1000.
Definition debounceDelay : nat := 300.
End CONFIG.

(** The closures handed to timers: [expandTruncatedPosts], and the click
    closure of a button with the counter it captured. *)
Inductive Task :=
| Expand
| Click (button : elem) (cell : nat).

Record Timer := {
  tid : nat;
  due : nat;
  task : Task;
  period : option nat
}.

Inductive Msg :=
| MsgStarting
| MsgInitialized
| MsgExpanded
| MsgProcessed (n : nat)
| MsgNavigation
| MsgError.

Inductive Obs :=
| Clicked (b : elem)
| ConsoleLog (m : Msg)
| ConsoleError (m : Msg)
| Fire (t : Task).

Record State := {
  processedButtons : gset elem;      (* WeakSet: membership only *)
  debounceTimeout : option nat;
  currentPath : string;
  observer : bool;                   (* the observer of initialize observes *)
  clickedCount : list nat;           (* one counter per run of the scan *)
  timers : list Timer;
  nextTimerId : nat;
  now : nat;
  started : bool;                    (* initialize() has run *)
  log : list (nat * Obs)             (* newest first *)
}.

Definition set_processedButtons (v : gset elem) (s : State) : State :=
  Build_State v (debounceTimeout s) (currentPath s) (observer s)
    (clickedCount s) (timers s) (nextTimerId s) (now s) (started s) (log s).

Definition set_debounceTimeout (v : option nat) (s : State) : State :=
  Build_State (processedButtons s) v (currentPath s) (observer s)
    (clickedCount s) (timers s) (nextTimerId s) (now s) (started s) (log s).

Definition set_currentPath (v : string) (s : State) : State :=
  Build_State (processedButtons s) (debounceTimeout s) v (observer s)
    (clickedCount s) (timers s) (nextTimerId s) (now s) (started s) (log s).

Definition set_observer (v : bool) (s : State) : State :=
  Build_State (processedButtons s) (debounceTimeout s) (currentPath s) v
    (clickedCount s) (timers s) (nextTimerId s) (now s) (started s) (log s).

Definition set_clickedCount (v : list nat) (s : State) : State :=
  Build_State (processedButtons s) (debounceTimeout s) (currentPath s)
    (observer s) v (timers s) (nextTimerId s) (now s) (started s) (log s).

Definition set_timers (v : list Timer) (s : State) : State :=
  Build_State (processedButtons s) (debounceTimeout s) (currentPath s)
    (observer s) (clickedCount s) v (nextTimerId s) (now s) (started s) (log s).

Definition set_nextTimerId (v : nat) (s : State) : State :=
  Build_State (processedButtons s) (debounceTimeout s) (currentPath s)
    (observer s) (clickedCount s) (timers s) v (now s) (started s) (log s).

Definition set_now (v : nat) (s : State) : State :=
  Build_State (processedButtons s) (debounceTimeout s) (currentPath s)
    (observer s) (clickedCount s) (timers s) (nextTimerId s) v (started s) (log s).

Definition set_started (v : bool) (s : State) : State :=
  Build_State (processedButtons s) (debounceTimeout s) (currentPath s)
    (observer s) (clickedCount s) (timers s) (nextTimerId s) (now s) v (log s).

Definition set_log (v : list (nat * Obs)) (s : State) : State :=
  Build_State (processedButtons s) (debounceTimeout s) (currentPath s)
    (observer s) (clickedCount s) (timers s) (nextTimerId s) (now s)
    (started s) v.

Definition emit (o : Obs) (s : State) : State :=
  set_log ((now s, o) :: log s) s.

Inductive Completion :=
| Normal (s : State)
| Throw (err : string) (s : State).

Definition andThen (c : Completion) (k : State -> Completion) : Completion :=
  match c with
  | Normal s => k s
  | Throw e s => Throw e s
  end.

Definition tryCatch (c : Completion) (handler : string -> State -> State)
  : State :=
  match c with
  | Normal s => s
  | Throw e s => handler e s
  end.

Definition setTimeout (t : Task) (delay : nat) (s : State) : State :=
  set_nextTimerId (S (nextTimerId s))
    (set_timers (timers s ++ [Build_Timer (nextTimerId s) (now s + delay) t None]) s).

Definition setInterval (t : Task) (p : nat) (s : State) : State :=
  set_nextTimerId (S (nextTimerId s))
    (set_timers (timers s ++ [Build_Timer (nextTimerId s) (now s + p) t (Some p)]) s).

Definition clearTimeout (h : option nat) (s : State) : State :=
  match h with
  | Some i => set_timers (filter (λ tm, tid tm ≠ i) (timers s)) s
  | None => s
  end.

(** The value of the counter of a run. *)
Definition counter (cell : nat) (s : State) : nat :=
  default 0 (clickedCount s !! cell).

(** [clickedCount++] in a click closure *)
Definition increment (cell : nat) (s : State) : State :=
  set_clickedCount (alter S cell (clickedCount s)) s.

(** [button.click()] *)
Definition click (pg : Page) (button : elem) (s : State) : Completion :=
  if click_raises (element pg button) then Throw "click" s
  else Normal (emit (Clicked button) s).

(** The closure [expandTruncatedPosts] hands to [setTimeout]. *)
Definition clickTask (pg : Page) (button : elem) (cell : nat) (s : State)
  : State :=
  tryCatch
    (if isConnected (element pg button)
        && Legacy.isShowMoreButton (element pg button)
     then andThen (click pg button s)
            (λ s1, Normal (emit (ConsoleLog MsgExpanded) (increment cell s1)))
     else Normal s)
    (λ _ s1, emit (ConsoleError MsgError) s1).

(** The loop of [expandTruncatedPosts]; [cell] is its [clickedCount]. *)
Fixpoint forEach (pg : Page) (buttons : list elem) (cell : nat) (s : State)
  : State :=
  match buttons with
  | [] => s
  | button :: rest =>
      if bool_decide (button ∈ processedButtons s) then forEach pg rest cell s
      else if negb (Legacy.isShowMoreButton (element pg button))
      then forEach pg rest cell s
      else
        forEach pg rest cell
          (setTimeout (Click button cell)
             (CONFIG.clickDelay + counter cell s * 100)
             (set_processedButtons ({[button]} ∪ processedButtons s) s))
  end.

(** [expandTruncatedPosts] *)
Definition expandTruncatedPosts (pg : Page) (s : State) : State :=
  let cell := length (clickedCount s) in
  let s1 := forEach pg (querySelectorAll pg) cell
              (set_clickedCount (clickedCount s ++ [0]) s) in
  if 0 <? counter cell s1
  then emit (ConsoleLog (MsgProcessed (counter cell s1))) s1
  else s1.

(** [debouncedExpand] *)
Definition debouncedExpand (s : State) : State :=
  let s1 := clearTimeout (debounceTimeout s) s in
  set_debounceTimeout (Some (nextTimerId s1))
    (setTimeout Expand CONFIG.debounceDelay s1).

(** What [isRelevantMutation] reads of an added node.  An element node
    has [querySelector] and [matches]. *)
Record AddedNode := {
  nodeType : nat;
  contains_button : bool;   (* querySelector('[data-testid=tweet-text-show-more-link]') *)
  contains_tweet : bool;    (* querySelector('[data-testid=tweet]') *)
  contains_article : bool;  (* querySelector('article[role=article]') *)
  matches_tweet : bool;     (* matches('[data-testid=tweet]') *)
  matches_article : bool    (* matches('article[role=article]') *)
}.

Record MutationRecord := {
  mutation_type : string;
  addedNodes : list AddedNode
}.

(** [isRelevantMutation] *)
Definition isRelevantMutation (mutation : MutationRecord) : bool :=
  if negb (String.eqb (mutation_type mutation) "childList")
     || (length (addedNodes mutation) =? 0)
  then false
  else
    existsb (λ node,
               (nodeType node =? ELEMENT_NODE)
               && (contains_button node || contains_tweet node
                   || contains_article node || matches_tweet node
                   || matches_article node))
      (addedNodes mutation).

(** The callback of the MutationObserver of [initialize]. *)
Definition onMutations (mutations : list MutationRecord) (s : State) : State :=
  if existsb isRelevantMutation mutations then debouncedExpand s else s.

(** [initialize] *)
Definition initialize (s : State) : State :=
  let s1 := emit (ConsoleLog MsgStarting) s in
  let s2 := setTimeout Expand 1000 s1 in
  let s3 := set_observer true s2 in
  let s4 := setInterval Expand (CONFIG.checkInterval * 3) s3 in
  emit (ConsoleLog MsgInitialized) s4.

(** The document as a callback finds it. *)
Record Document := {
  page : Page;
  location_pathname : string
}.

(** [handleNavigation] *)
Definition handleNavigation (doc : Document) (s : State) : State :=
  if negb (String.eqb (location_pathname doc) (currentPath s)) then
    setTimeout Expand 1500
      (emit (ConsoleLog MsgNavigation)
         (set_currentPath (location_pathname doc) s))
  else s.

(** *** The event loop *)

(** The navigation observer is created when the script loads, so
    [EvNavigationCheck] can happen before [EvReady]. *)
Inductive Event :=
| EvReady
| EvMutations (mutations : list MutationRecord)
| EvNavigationCheck
| EvTimer (id : nat)
| EvTick (dt : nat).

Definition lookupTimer (i : nat) (l : list Timer) : option Timer :=
  head (filter (λ tm, tid tm = i) l).

Definition rearm (tm : Timer) (l : list Timer) : list Timer :=
  let others := filter (λ x, tid x ≠ tid tm) l in
  match period tm with
  | Some p => others ++ [Build_Timer (tid tm) (due tm + p) (task tm) (Some p)]
  | None => others
  end.

Definition runTask (pg : Page) (t : Task) (s : State) : State :=
  match t with
  | Expand => expandTruncatedPosts pg s
  | Click button cell => clickTask pg button cell s
  end.

Definition fireStart (tm : Timer) (s : State) : State :=
  emit (Fire (task tm)) (set_timers (rearm tm (timers s)) s).

Definition fireTimer (pg : Page) (tm : Timer) (s : State) : State :=
  runTask pg (task tm) (fireStart tm s).

Definition boot (pathname : string) : State :=
  {| processedButtons := ∅; debounceTimeout := None; currentPath := pathname;
     observer := false; clickedCount := []; timers := []; nextTimerId := 1;
     now := 0; started := false; log := [] |}.

Definition advance (dt : nat) (s : State) : State := set_now (now s + dt) s.

Definition step (doc : Document) (ev : Event) (s : State) : option State :=
  match ev with
  | EvReady =>
      if started s then None else Some (initialize (set_started true s))
  | EvMutations mutations =>
      if observer s then Some (onMutations mutations s) else None
  | EvNavigationCheck => Some (handleNavigation doc s)
  | EvTimer i =>
      match lookupTimer i (timers s) with
      | Some tm =>
          if due tm <=? now s then Some (fireTimer (page doc) tm s) else None
      | None => None
      end
  | EvTick dt => Some (advance dt s)
  end.

Fixpoint run (tr : list (Document * Event)) (s : State) : option State :=
  match tr with
  | [] => Some s
  | (doc, ev) :: rest =>
      match step doc ev s with
      | Some s' => run rest s'
      | None => None
      end
  end.

Definition reachable (s : State) : Prop :=
  ∃ pathname tr, run tr (boot pathname) = Some s.

End LegacyLoop.

(** ** The event loop *)

(** What the host can run next.  [EvReady] is the one run of [initialize]
    (at load, or at DOMContentLoaded); [EvIdle k] runs the [k]-th queued idle
    request; [EvIntersections] delivers entries [(target, isIntersecting)];
    [EvTick] lets time pass. *)
Inductive Event :=
| EvReady
| EvMutations (mutations : list MutationRecord)
| EvNavigationCheck
| EvTimer (id : nat)
| EvIdle (k : nat)
| EvIntersections (entries : list (elem * bool))
| EvBeforeUnload
| EvTick (dt : nat).

Definition lookupTimer (i : nat) (l : list Timer) : option Timer :=
  head (filter (λ tm, tid tm = i) l).

(** A timeout leaves the queue when it fires; an interval is queued again
    one period later. *)
Definition rearm (tm : Timer) (l : list Timer) : list Timer :=
  let others := filter (λ x, tid x ≠ tid tm) l in
  match period tm with
  | Some p => others ++ [Build_Timer (tid tm) (due tm + p) (task tm) (Some p)]
  | None => others
  end.

Definition runTask (pg : Page) (t : Task) (s : State) : Completion :=
  match t with
  | InitialScan => Normal (initialScanTask pg s)
  | DebouncedScan | NavScan => Normal (findNewButtons pg s).2
  | Click button => clickTask pg button s
  | Backup => Normal (backupTask pg s)
  end.

(** The host takes the timer off the queue, then runs its closure. *)
Definition fireStart (tm : Timer) (s : State) : State :=
  emit (Fire (task tm)) (set_timers (rearm tm (timers s)) s).

Definition fireTimer (pg : Page) (tm : Timer) (s : State) : State :=
  settle (runTask pg (task tm) (fireStart tm s)).

Definition boot (href : string) : State :=
  {| processedButtons := ∅; pendingButtons := []; debounceTimer := None;
     isProcessing := false; observer := None; intersectionObserver := None;
     currentUrl := href; navObserver := false; timers := []; nextTimerId := 1;
     idleCallbacks := []; now := 0; started := false; log := [] |}.

Definition advance (dt : nat) (s : State) : State := set_now (now s + dt) s.

(** One turn of the event loop; [None] when the event cannot happen in [s].
    A timer does not fire before it is due.  Entries may name any target:
    the script itself decides, by the pending set, which ones count. *)
Definition step (pg : Page) (ev : Event) (s : State) : option State :=
  match ev with
  | EvReady =>
      if started s then None else Some (initialize (set_started true s))
  | EvMutations mutations =>
      match observer s with
      | Some true => Some (onMutations mutations s)
      | _ => None
      end
  | EvNavigationCheck =>
      if navObserver s then Some (handleNavigation pg s) else None
  | EvTimer i =>
      match lookupTimer i (timers s) with
      | Some tm => if due tm <=? now s then Some (fireTimer pg tm s) else None
      | None => None
      end
  | EvIdle k =>
      match idleCallbacks s !! k with
      | Some req =>
          Some (settle (processFunction pg (buttons req)
                          (set_idleCallbacks (delete k (idleCallbacks s)) s)))
      | None => None
      end
  | EvIntersections entries =>
      match intersectionObserver s with
      | Some _ => Some (onIntersections pg entries s)
      | None => None
      end
  | EvBeforeUnload => Some (cleanup s)
  | EvTick dt => Some (advance dt s)
  end.

Fixpoint run (tr : list (Page * Event)) (s : State) : option State :=
  match tr with
  | [] => Some s
  | (pg, ev) :: rest =>
      match step pg ev s with
      | Some s' => run rest s'
      | None => None
      end
  end.

Definition reachable (s : State) : Prop :=
  ∃ href tr, run tr (boot href) = Some s.

(** Timers fire on time: no tick carries the clock past a queued timer. *)
Definition onTime (ev : Event) (s : State) : bool :=
  match ev with
  | EvTick dt => forallb (λ tm, now s + dt <=? due tm) (timers s)
  | _ => true
  end.

Fixpoint runOnTime (tr : list (Page * Event)) (s : State) : option State :=
  match tr with
  | [] => Some s
  | (pg, ev) :: rest =>
      if onTime ev s then
        match step pg ev s with
        | Some s' => runOnTime rest s'
        | None => None
        end
      else None
  end.

(** * Vocabulary of the properties *)

(** ** Counting and the shape of the trace *)

Fixpoint count {A} (p : A -> bool) (l : list A) : nat :=
  match l with
  | [] => 0
  | x :: rest => (if p x then 1 else 0) + count p rest
  end.

(** [grows P old new]: [new] is [old] with entries put in front, each
    satisfying [P]. *)
Inductive grows (P : Obs -> Prop) (old : list (nat * Obs))
  : list (nat * Obs) -> Prop :=
| grows_refl : grows P old old
| grows_cons e l : P e.2 -> grows P old l -> grows P old (e :: l).

(** ** The callbacks as sequences of small steps *)

(** Every callback other than a timer firing, a debounce signal and the
    teardown is a sequence of the steps of [micro]; the loops of the script
    are unrolled here once, so that an invariant is checked step by step. *)

Definition passive (o : Obs) : Prop :=
  match o with
  | ConsoleLog _ | ConsoleError _ | Uncaught _ | Scan | Crossing _ => True
  | _ => False
  end.

Inductive micro (pg : Page) : State -> State -> Prop :=
| mi_emit o s :
    passive o -> micro pg s (emit o s)
| mi_admit b s :
    isCandidate pg s b = true ->
    micro pg s (emit (PendingAdd b)
                  (set_pendingButtons (JsSet.add b (pendingButtons s)) s))
| mi_batch s :
    isProcessing s = false -> micro pg s (processPendingButtons s)
| mi_observe b targets s :
    intersectionObserver s = Some targets ->
    micro pg s (emit (Observe b)
                  (set_intersectionObserver (Some ({[b]} ∪ targets)) s))
| mi_idle_take k s :
    micro pg s (set_idleCallbacks (delete k (idleCallbacks s)) s)
| mi_idle_done s :
    micro pg s (set_isProcessing false s)
| mi_release b s :
    b ∈ pendingButtons s ->
    micro pg s (emit (Release b)
                  (set_pendingButtons (JsSet.delete b (pendingButtons s)) s))
| mi_process b s :
    (∃ t, (t, Crossing b) ∈ log s) -> micro pg s (processButton pg b s)
| mi_prune s :
    micro pg s
      (set_pendingButtons
         (filter (λ b, isConnected (element pg b) = true) (pendingButtons s)) s)
| mi_init s :
    started s = false -> micro pg s (initialize (set_started true s))
| mi_navigate s :
    micro pg s (handleNavigation pg s).

Abbreviation micros pg := (rtc (micro pg)).

(** ** Invariants of the event loop *)

(** *** Clicks and click timers *)

Definition isClicked (b : elem) (e : nat * Obs) : bool :=
  match e.2 with
  | Clicked b' => bool_decide (b' = b)
  | _ => false
  end.

Definition isClickTimer (b : elem) (tm : Timer) : bool :=
  match task tm with
  | Click b' => bool_decide (b' = b)
  | _ => false
  end.

Definition isAttempt (b : elem) (e : nat * Obs) : bool :=
  match e.2 with
  | Fire (Click b') => bool_decide (b' = b)
  | _ => false
  end.

(** How often [click()] returned on [b]. *)
Definition clicks (b : elem) (s : State) : nat := count (isClicked b) (log s).

(** How often the click closure of [b] was run. *)
Definition attempts (b : elem) (s : State) : nat := count (isAttempt b) (log s).

(** How many timers are queued to run it. *)
Definition armed (b : elem) (s : State) : nat := count (isClickTimer b) (timers s).

(** Only the backup scan is an interval. *)
Definition oneShot (l : list Timer) : Prop :=
  ∀ tm, tm ∈ l -> period tm ≠ None -> task tm = Backup.

Definition clickInv (s : State) : Prop :=
  oneShot (timers s)
  ∧ ∀ b, attempts b s + armed b s ≤ 1
         ∧ clicks b s ≤ attempts b s
         ∧ (0 < attempts b s + armed b s -> b ∈ processedButtons s).

(** *** Clicks come after crossings *)

Definition crossed (b : elem) (l : list (nat * Obs)) : Prop :=
  ∃ t, (t, Crossing b) ∈ l.

(** Every [Clicked b] of the trace has a [Crossing b] among the older
    entries. *)
Fixpoint clicksAfterCrossing (l : list (nat * Obs)) : Prop :=
  match l with
  | [] => True
  | e :: older =>
      match e.2 with
      | Clicked b => crossed b older
      | _ => True
      end ∧ clicksAfterCrossing older
  end.

Definition crossInv (s : State) : Prop :=
  clicksAfterCrossing (log s)
  ∧ ∀ tm b, tm ∈ timers s -> task tm = Click b -> crossed b (log s).

(** *** The debounce timer *)

Definition isDebounce (tm : Timer) : bool :=
  match task tm with
  | DebouncedScan => true
  | _ => false
  end.

(** The rescans [debouncedExpand] has scheduled and that are still queued. *)
Definition outstanding (s : State) : nat := count isDebounce (timers s).

Definition debounceInv (s : State) : Prop :=
  oneShot (timers s)
  ∧ (∀ tm, tm ∈ timers s -> task tm = DebouncedScan ->
           debounceTimer s = Some (tid tm))
  ∧ outstanding s ≤ 1.

(** *** Timer handles are fresh *)

Definition idsInv (s : State) : Prop :=
  NoDup (tid <$> timers s) ∧ ∀ tm, tm ∈ timers s -> tid tm < nextTimerId s.

(** *** Timers that fire on time *)

Definition punctual (s : State) : Prop :=
  ∀ tm, tm ∈ timers s -> now s ≤ due tm.

(** *** What a quiet turn does to the debounce timer *)

(** Due times of the queued debounced rescans. *)
Fixpoint debounceDues (l : list Timer) : list nat :=
  match l with
  | [] => []
  | tm :: rest =>
      if isDebounce tm then due tm :: debounceDues rest else debounceDues rest
  end.

(** Times at which a debounced rescan ran, newest first. *)
Fixpoint rescans (l : list (nat * Obs)) : list nat :=
  match l with
  | [] => []
  | e :: older =>
      match e.2 with
      | Fire DebouncedScan => e.1 :: rescans older
      | _ => rescans older
      end
  end.

(** A turn that is neither a debounce signal nor the teardown. *)
Definition quiet (ev : Event) : bool :=
  match ev with
  | EvMutations mutations => negb (shouldProcess mutations)
  | EvBeforeUnload => false
  | _ => true
  end.

Definition tickOf (ev : Event) : nat :=
  match ev with
  | EvTick dt => dt
  | _ => 0
  end.

(** Time that passes along a trace. *)
Definition elapsed (tr : list (Page * Event)) : nat :=
  foldr (λ x acc, tickOf x.2 + acc) 0 tr.

(** The invariants an on-time run keeps. *)
Definition timely (s : State) : Prop := debounceInv s ∧ idsInv s ∧ punctual s.

(** *** Who is in the pending set *)

(** [b] was added by a scan and the pending set was not cleared since. *)
Fixpoint freshlyAdded (b : elem) (l : list (nat * Obs)) : Prop :=
  match l with
  | [] => False
  | e :: older =>
      match e.2 with
      | PendingAdd b' => b' = b ∨ freshlyAdded b older
      | PendingClear _ => False
      | _ => freshlyAdded b older
      end
  end.

(** Every [Release b] of the trace found [b] freshly added. *)
Fixpoint releasesJustified (l : list (nat * Obs)) : Prop :=
  match l with
  | [] => True
  | e :: older =>
      match e.2 with
      | Release b => freshlyAdded b older
      | _ => True
      end ∧ releasesJustified older
  end.

Definition pendInv (s : State) : Prop :=
  releasesJustified (log s)
  ∧ ∀ b, b ∈ pendingButtons s -> freshlyAdded b (log s).

(** Entries that say nothing about the pending set. *)
Definition offPending (o : Obs) : Prop :=
  match o with
  | PendingAdd _ | PendingClear _ | Release _ => False
  | _ => True
  end.

(** ** What a scan changes *)

(** A scan touches the pending set, the idle queue, [isProcessing] and the
    trace, and nothing else. *)
Definition scanFrame (s s' : State) : Prop :=
  processedButtons s' = processedButtons s
  ∧ intersectionObserver s' = intersectionObserver s
  ∧ observer s' = observer s
  ∧ timers s' = timers s
  ∧ debounceTimer s' = debounceTimer s
  ∧ navObserver s' = navObserver s
  ∧ now s' = now s.

(** ** Sample pages and runs *)

Definition tweetArticle : Ancestor :=
  {| a_testid := Some "tweet"; a_tagName := "ARTICLE"; a_role := Some "article" |}.

Definition plainDiv : Ancestor :=
  {| a_testid := None; a_tagName := "DIV"; a_role := None |}.

(** A connected, visible, enabled "Show more" button inside a tweet. *)
Definition showMoreButton : Element :=
  {| isConnected := true; dataset_testid := Some BUTTON_TESTID;
     style_display := ""; style_visibility := ""; textContent := "Show more";
     disabled := false; ancestors := [plainDiv; plainDiv; tweetArticle];
     click_raises := false;
     computed_display := "inline-block"; computed_visibility := "visible";
     computed_opacity := "1"; rect_width := 640%Z; rect_height := 1280%Z;
     aria_hidden := false |}.

(** The same button disabled, hidden from assistive technology, with no
    extent, transparent, and hidden by a style sheet rule. *)
Definition inertButton : Element :=
  {| isConnected := true; dataset_testid := Some BUTTON_TESTID;
     style_display := ""; style_visibility := ""; textContent := "Show more";
     disabled := true; ancestors := [plainDiv; plainDiv; tweetArticle];
     click_raises := false;
     computed_display := "none"; computed_visibility := "hidden";
     computed_opacity := "0"; rect_width := 0%Z; rect_height := 0%Z;
     aria_hidden := true |}.

Definition homeUrl : string := "https://x.com/home".

(** A timeline with [n] expandable tweets. *)
Definition timeline (n : nat) : Page :=
  {| querySelectorAll := seq 0 n; element := λ _, showMoreButton;
     location_href := homeUrl |}.

Definition inertPage : Page :=
  {| querySelectorAll := [0]; element := λ _, inertButton;
     location_href := homeUrl |}.

Definition at_ (pg : Page) (evs : list Event) : list (Page * Event) :=
  map (pair pg) evs.

(** Ready; the initial scan at 1 s admits button 0 and clears the pending
    set; the backup scan at 5 s finds the idle callback still waiting and
    leaves button 0 pending. *)
Definition twoScans : list (Page * Event) :=
  at_ (timeline 1) [EvReady; EvTick 1000; EvTimer 1; EvTick 4000; EvTimer 2].

(** ... then the idle callback subscribes button 0, it becomes visible and
    is released. *)
Definition untilRelease : list (Page * Event) :=
  twoScans ++ at_ (timeline 1) [EvIdle 0; EvIntersections [(0, true)]].

(** ... and 300 ms later it is clicked. *)
Definition untilClick : list (Page * Event) :=
  untilRelease ++ at_ (timeline 1) [EvTick 300; EvTimer 3].

Definition stateAfter (tr : list (Page * Event)) : State :=
  default (boot homeUrl) (run tr (boot homeUrl)).

(** ** Measures and sample states for the claims *)

(** Admission cycles whose batch holds [b]. *)
Definition admissions (b : elem) (l : list (nat * Obs)) : nat :=
  count (λ e, match e.2 with
              | PendingClear batch => bool_decide (b ∈ batch)
              | _ => false
              end) l.

(** The page is ready and one second has passed: the initial scan is due. *)
Definition beforeFirstScan : State :=
  stateAfter (at_ (timeline 1) [EvReady; EvTick 1000]).

(** After [twoScans]: the idle callback runs, and the next backup scan and
    its idle callback follow. *)
Definition threeScans : list (Page * Event) :=
  twoScans ++ at_ (timeline 1) [EvIdle 0; EvTick 5000; EvTimer 2; EvIdle 0].

Definition isObserve (e : nat * Obs) : bool :=
  match e.2 with
  | Observe _ => true
  | _ => false
  end.

(** Calls of [intersectionObserver.observe] so far. *)
Definition observes (s : State) : nat := count isObserve (log s).

Definition final (c : Completion) : State :=
  match c with
  | Normal s => s
  | Throw _ s => s
  end.

(** Whether [b] is among the observation targets. *)
Definition isObserved (b : elem) (s : State) : bool :=
  match intersectionObserver s with
  | Some targets => bool_decide (b ∈ targets)
  | None => false
  end.

(** Button 0 is pending and subscribed. *)
Definition atGate : State := stateAfter (twoScans ++ at_ (timeline 1) [EvIdle 0]).

(** The timeline after button 0 was taken out of the document. *)
Definition detachedPage : Page :=
  {| querySelectorAll := [];
     element := λ _, {| isConnected := false; dataset_testid := Some BUTTON_TESTID;
                        style_display := ""; style_visibility := "";
                        textContent := "Show more"; disabled := false;
                        ancestors := []; click_raises := false;
                        computed_display := ""; computed_visibility := "";
                        computed_opacity := ""; rect_width := 0%Z;
                        rect_height := 0%Z; aria_hidden := false |};
     location_href := homeUrl |}.

(** A timeline whose button throws when clicked. *)
Definition throwingPage : Page :=
  {| querySelectorAll := [0];
     element := λ _, {| isConnected := true; dataset_testid := Some BUTTON_TESTID;
                        style_display := ""; style_visibility := "";
                        textContent := "Show more"; disabled := false;
                        ancestors := [tweetArticle]; click_raises := true;
                        computed_display := "inline-block";
                        computed_visibility := "visible";
                        computed_opacity := "1"; rect_width := 640%Z;
                        rect_height := 1280%Z; aria_hidden := false |};
     location_href := homeUrl |}.

(** A burst of change notifications: each item is a notification (the
    page and the mutation records delivered) and the stretch of the run up
    to the next one. *)
Fixpoint burstTrace (early : list (Page * list MutationRecord * list (Page * Event)))
  : list (Page * Event) :=
  match early with
  | [] => []
  | (pg, mutations, seg) :: rest =>
      (pg, EvMutations mutations) :: seg ++ burstTrace rest
  end.

Fixpoint burstElapsed (early : list (Page * list MutationRecord * list (Page * Event)))
  : nat :=
  match early with
  | [] => 0
  | (_, _, seg) :: rest => elapsed seg + burstElapsed rest
  end.

(** The notification is relevant, and less than the quiet period passes,
    without signal or teardown, before the next one. *)
Definition isShortGap (x : Page * list MutationRecord * list (Page * Event)) : bool :=
  shouldProcess x.1.2
  && forallb (λ y, quiet y.2) x.2
  && (elapsed x.2 <? CONFIG.debounceDelay).

Definition reachableOnTime (s : State) : Prop :=
  ∃ href tr, runOnTime tr (boot href) = Some s.

(** A node whose insertion the change watcher reports. *)
Definition tweetInserted : list MutationRecord :=
  [{| mutation_type := "childList";
      addedNodes := [{| nodeType := 1; node_testid := Some "tweet";
                        node_hasButton := true; node_matches := true |}] |}].

(** Once [initialize] has run, both observers of the script exist. *)
Definition startedInv (s : State) : Prop :=
  started s = true -> is_Some (observer s) ∧ is_Some (intersectionObserver s).

(** The handle in [debounceTimer] names no timer but a debounced rescan. *)
Definition handleInv (s : State) : Prop :=
  idsInv s
  ∧ ∀ i, debounceTimer s = Some i ->
         i < nextTimerId s
         ∧ ∀ tm, tm ∈ timers s -> tid tm = i -> task tm = DebouncedScan.

Definition isScan (e : nat * Obs) : bool :=
  match e.2 with
  | Scan => true
  | _ => false
  end.

(** Runs of [findNewButtons] so far. *)
Definition scans (s : State) : nat := count isScan (log s).

(** Button 0 was released, its click is queued, and the page unloads. *)
Definition tornDown : State :=
  stateAfter (untilRelease ++ at_ (timeline 1) [EvBeforeUnload]).

(** What the host may still run afterwards, on a page that got a second
    tweet: the queued click, the backup scan, its idle callback. *)
Definition afterTeardown : list (Page * Event) :=
  at_ (timeline 2) [EvTick 300; EvTimer 3; EvTick 4700; EvTimer 2; EvIdle 0].

Definition torn (s : State) : Prop :=
  started s = true ∧ observer s = Some false
  ∧ debounceInv s ∧ idsInv s ∧ outstanding s = 0.

(** The initial scan has run and its idle callback is still waiting; four
    seconds later the backup timer is taken off the queue. *)
Definition backupFires : State :=
  fireStart {| tid := 2; due := 5000; task := Backup; period := Some 5000 |}
    (stateAfter (at_ (timeline 1) [EvReady; EvTick 1000; EvTimer 1; EvTick 4000])).

(** The state in which the scan of that backup closure calls
    [processPendingButtons]. *)
Definition midBackupScan : State :=
  (scanLoop (timeline 1) (querySelectorAll (timeline 1)) 0
     (emit Scan
        (set_pendingButtons
           (filter (λ b, isConnected (element (timeline 1) b) = true)
              (pendingButtons backupFires)) backupFires))).2.

(** The timeline with button 0 hidden by an inline style. *)
Definition hiddenPage : Page :=
  {| querySelectorAll := [0];
     element := λ _, {| isConnected := true; dataset_testid := Some BUTTON_TESTID;
                        style_display := ""; style_visibility := "hidden";
                        textContent := "Show more"; disabled := false;
                        ancestors := [tweetArticle]; click_raises := false;
                        computed_display := "inline-block";
                        computed_visibility := "hidden";
                        computed_opacity := "1"; rect_width := 640%Z;
                        rect_height := 1280%Z; aria_hidden := false |};
     location_href := homeUrl |}.

(** The initial scan at 1 s admits button 0; a change is signalled and the
    debounced rescan at 1.2 s finds the batch waiting and leaves button 0
    pending; the idle callback runs within its deadline and subscribes it.
    Then the button is hidden and the visibility watcher reports it. *)
Definition untilHiddenRelease : list (Page * Event) :=
  at_ (timeline 1) [EvReady; EvTick 1000; EvTimer 1; EvMutations tweetInserted;
                    EvTick 200; EvTimer 3; EvIdle 0]
  ++ at_ hiddenPage [EvIntersections [(0, true)]].

(** ... and the backup scan at 5 s finds the button shown again. *)
Definition untilReadmission : list (Page * Event) :=
  untilHiddenRelease ++ at_ (timeline 1) [EvTick 3800; EvTimer 2].

(** ** Further vocabulary *)

(** Timers are compared field by field. *)
#[global] Instance Timer_eq_dec : EqDecision Timer.
Proof. solve_decision. Defined.

(** *** Before [initialize] *)

(** Nothing has happened but the passing of time. *)
Definition pristine (s : State) : Prop :=
  s = advance (now s) (boot (currentUrl s)).

(** *** The callbacks one by one *)

(** What a scan reports on its way. *)
Definition reported (o : Obs) : Prop :=
  match o with
  | ConsoleLog _ | Scan => True
  | _ => False
  end.

(** *** The idle queue *)

(** One idle request is queued while [isProcessing] is set, none otherwise;
    the visibility watcher exists and no callback has thrown. *)
Definition idleInv (s : State) : Prop :=
  is_Some (intersectionObserver s)
  ∧ length (idleCallbacks s) = (if isProcessing s then 1 else 0)
  ∧ ∀ t err, ¬ ((t, Uncaught err) ∈ log s).

(** *** Pending and processed *)

Definition disjointInv (s : State) : Prop :=
  ∀ b, b ∈ pendingButtons s -> ¬ (b ∈ processedButtons s).

(** Every processed element was released, in the turn it crossed. *)
Definition releasedInv (s : State) : Prop :=
  ∀ b, b ∈ processedButtons s ->
       ∃ t, (t, Release b) ∈ log s ∧ (t, Crossing b) ∈ log s.

(** *** Processed with no click to come *)

Definition shelved (b : elem) (s : State) : Prop :=
  b ∈ processedButtons s ∧ attempts b s + armed b s = 0.

(** *** Clicks wait for the delay *)

(** Every queued click is due [clickDelay] after a release of its button,
    and every click made came at least that long after one. *)
Definition delayInv (s : State) : Prop :=
  (∀ tm b, tm ∈ timers s -> task tm = Click b ->
           ∃ t, (t, Release b) ∈ log s ∧ due tm = t + CONFIG.clickDelay)
  ∧ ∀ t b, (t, Clicked b) ∈ log s ->
           ∃ t', (t', Release b) ∈ log s ∧ t' + CONFIG.clickDelay ≤ t.

(** *** The backup scan *)

Definition isBackup (tm : Timer) : Prop := task tm = Backup.

#[global] Instance isBackup_dec tm : Decision (isBackup tm).
Proof. unfold isBackup. apply _. Defined.

(** One backup interval is queued, under the handle [initialize] got. *)
Definition backupInv (s : State) : Prop :=
  ∃ d, filter isBackup (timers s)
       = [{| tid := 2; due := d; task := Backup; period := Some backupPeriod |}].

(** *** Signals of the change watcher *)

Definition isSignal (e : nat * Obs) : bool :=
  match e.2 with
  | Signal => true
  | _ => false
  end.

(** Calls of [debouncedExpand] so far. *)
Definition signals (s : State) : nat := count isSignal (log s).

(** *** The matches a scan admits *)

Definition candidates (pg : Page) (s : State) : list elem :=
  filter (λ b, isCandidate pg s b = true) (querySelectorAll pg).

(** ** Further sample pages and runs *)

Definition profileUrl : string := "https://x.com/someone".

(** The timeline after a client-side navigation. *)
Definition profilePage : Page :=
  {| querySelectorAll := [0]; element := λ _, showMoreButton;
     location_href := profileUrl |}.

(** A "Show more" button that is in no tweet. *)
Definition strayButton : Element :=
  {| isConnected := true; dataset_testid := Some BUTTON_TESTID;
     style_display := ""; style_visibility := ""; textContent := "Show more";
     disabled := false; ancestors := [plainDiv; plainDiv];
     click_raises := false;
     computed_display := "inline-block"; computed_visibility := "visible";
     computed_opacity := "1"; rect_width := 640%Z; rect_height := 1280%Z;
     aria_hidden := false |}.

Definition strayPage : Page :=
  {| querySelectorAll := [0]; element := λ _, strayButton;
     location_href := homeUrl |}.

(** The stray button is scanned twice and subscribed, as button 0 is in
    [twoScans]: it is pending and watched. *)
Definition untilStrayGate : list (Page * Event) :=
  at_ strayPage [EvReady; EvTick 1000; EvTimer 1; EvTick 4000; EvTimer 2;
                 EvIdle 0].

Definition strayGate : State := stateAfter untilStrayGate.

(** ... and it becomes visible. *)
Definition strayRelease : list (Page * Event) :=
  untilStrayGate ++ at_ strayPage [EvIntersections [(0, true)]].

(** Later the button has moved into a tweet, and the backup scan runs. *)
Definition strayLater : list (Page * Event) :=
  at_ (timeline 1) [EvTick 5000; EvTimer 2].

(** The initial scan has run, its idle callback waits, and the backup
    scan is due. *)
Definition backupDue : State :=
  stateAfter (at_ (timeline 1) [EvReady; EvTick 1000; EvTimer 1; EvTick 4000]).

(** A change is signalled, then the URL changes. *)
Definition signalThenNavigate : list (Page * Event) :=
  [(timeline 1, EvReady); (timeline 1, EvMutations tweetInserted);
   (profilePage, EvNavigationCheck)].

(** ** Vocabulary for the earlier variant *)

Module LegacyTrace.
Import LegacyLoop.

Definition isClicked (b : elem) (e : nat * Obs) : bool :=
  match e.2 with
  | Clicked b' => bool_decide (b' = b)
  | _ => false
  end.

Definition isClickTimer (b : elem) (tm : Timer) : bool :=
  match task tm with
  | Click b' _ => bool_decide (b' = b)
  | _ => false
  end.

Definition isAttempt (b : elem) (e : nat * Obs) : bool :=
  match e.2 with
  | Fire (Click b' _) => bool_decide (b' = b)
  | _ => false
  end.

(** How often [click()] returned on [b]. *)
Definition clicks (b : elem) (s : State) : nat := count (isClicked b) (log s).

(** How often a click closure of [b] was run. *)
Definition attempts (b : elem) (s : State) : nat := count (isAttempt b) (log s).

(** How many timers are queued to run one. *)
Definition armed (b : elem) (s : State) : nat := count (isClickTimer b) (timers s).

Definition clickInv (s : State) : Prop :=
  (∀ tm b cell, tm ∈ timers s -> task tm = Click b cell -> period tm = None)
  ∧ ∀ b, attempts b s + armed b s ≤ 1
         ∧ clicks b s ≤ attempts b s
         ∧ (0 < attempts b s + armed b s -> b ∈ processedButtons s).

(** The summary line of a scan was never printed, and every queued click
    is a timeout due [clickDelay] after a run of the scan. *)
Definition staggerInv (s : State) : Prop :=
  (∀ t n, ¬ ((t, ConsoleLog (MsgProcessed n)) ∈ log s))
  ∧ ∀ tm b cell, tm ∈ timers s -> task tm = Click b cell ->
                 period tm = None
                 ∧ ∃ t, (t, Fire Expand) ∈ log s
                        ∧ due tm = t + LegacyLoop.CONFIG.clickDelay.

(** A timeline with one expandable tweet, as the earlier variant finds it. *)
Definition homeDocument : Document :=
  {| page := timeline 1; location_pathname := "/home" |}.

(** Ready; the scan at 1 s queues the click of button 0; it fires at
    1.5 s. *)
Definition untilScan : list (Document * Event) :=
  map (pair homeDocument) [EvReady; EvTick 1000; EvTimer 1].

Definition untilClick : list (Document * Event) :=
  untilScan ++ map (pair homeDocument) [EvTick 500; EvTimer 3].

Definition stateAfter (tr : list (Document * Event)) : State :=
  default (boot "/home") (run tr (boot "/home")).

End LegacyTrace.

(** * Properties *)

(** ** Counting *)

Lemma count_app {A} (p : A -> bool) l1 l2 :
  count p (l1 ++ l2) = count p l1 + count p l2.
Proof. induction l1 as [|x l1 IH]; simpl; [done | rewrite IH; lia]. Qed.

Lemma count_filter_le {A} (p : A -> bool) (Q : A -> Prop)
  `{!∀ x, Decision (Q x)} l :
  count p (filter Q l) ≤ count p l.
Proof.
  induction l as [|x l IH]; simpl; [done |].
  rewrite filter_cons. destruct (decide (Q x)); simpl; lia.
Qed.

Lemma count_pos {A} (p : A -> bool) l :
  0 < count p l ↔ ∃ x, x ∈ l ∧ p x = true.
Proof.
  induction l as [|x l IH]; simpl.
  - split; [lia | intros (? & H & _); inversion H].
  - destruct (p x) eqn:Hp; split.
    + intros _. exists x. split; [left | done].
    + lia.
    + intros H. apply IH in H as (y & ? & ?). exists y. split; [by right | done].
    + intros (y & Hy & Hpy). apply IH. inversion Hy; subst; [congruence | eauto].
Qed.

(** ** The callbacks as sequences of small steps *)

Lemma micros_step pg s1 s2 s3 :
  micros pg s1 s2 -> micro pg s2 s3 -> micros pg s1 s3.
Proof. intros H12 H23. eapply rtc_r; eauto. Qed.

Lemma scanLoop_micros pg matches n s :
  micros pg s (scanLoop pg matches n s).2.
Proof.
  revert n s. induction matches as [|b rest IH]; intros n s; simpl; [done |].
  destruct (isCandidate pg s b) eqn:Hc; [| apply IH].
  eapply rtc_l; [by apply mi_admit | apply IH].
Qed.

Lemma processPendingButtons_micros pg s :
  micros pg s (processPendingButtons s).
Proof.
  destruct (isProcessing s) eqn:Hp.
  - unfold processPendingButtons. by rewrite Hp.
  - apply rtc_once. by constructor.
Qed.

Lemma findNewButtons_micros pg s :
  micros pg s (findNewButtons pg s).2.
Proof.
  unfold findNewButtons.
  pose proof (scanLoop_micros pg (querySelectorAll pg) 0 (emit Scan s)) as H.
  destruct (scanLoop pg (querySelectorAll pg) 0 (emit Scan s)) as [n s1]; simpl in *.
  eapply rtc_l; [by apply (mi_emit pg Scan) |].
  etrans; [exact H |].
  destruct (0 <? n); [apply processPendingButtons_micros | done].
Qed.

Lemma observeEach_micros pg batch s :
  ∃ s1, micros pg s s1 ∧
        (observeEach pg batch s = Normal s1
         ∨ ∃ e, observeEach pg batch s = Throw e s1).
Proof.
  revert s. induction batch as [|b rest IH]; intros s; simpl.
  - exists s. by split; [| left].
  - destruct (isConnected (element pg b)); [| apply IH].
    unfold observe. destruct (intersectionObserver s) as [targets|] eqn:Hio; simpl.
    + destruct (IH (emit (Observe b)
                      (set_intersectionObserver (Some ({[b]} ∪ targets)) s)))
        as (s1 & Hs1 & Hres).
      exists s1. split; [| done].
      eapply rtc_l; [by eapply mi_observe | done].
    + exists s. split; [done | right; by exists "TypeError"].
Qed.

Lemma processFunction_micros pg batch s :
  micros pg s (settle (processFunction pg batch s)).
Proof.
  unfold processFunction.
  destruct (observeEach_micros pg batch s) as (s1 & Hs1 & [-> | [e ->]]); simpl.
  - eapply micros_step; [done | constructor].
  - eapply micros_step; [done | by apply (mi_emit pg (Uncaught e))].
Qed.

Lemma onEntry_micros pg s entry : micros pg s (onEntry pg s entry).
Proof.
  destruct entry as [target [|]]; simpl; [| done].
  eapply rtc_l; [by apply (mi_emit pg (Crossing target)) |].
  unfold JsSet.has. case_bool_decide as Hin; simpl; [| done].
  eapply rtc_l; [by apply (mi_release pg target) |].
  apply rtc_once. constructor. simpl. exists (now s). set_solver.
Qed.

Lemma onIntersections_micros pg entries s :
  micros pg s (onIntersections pg entries s).
Proof.
  unfold onIntersections. revert s.
  induction entries as [|entry rest IH]; intros s; simpl; [done |].
  etrans; [apply onEntry_micros | apply IH].
Qed.

Lemma backupTask_micros pg s : micros pg s (backupTask pg s).
Proof.
  unfold backupTask. eapply rtc_l; [apply mi_prune | apply findNewButtons_micros].
Qed.

Lemma initialScanTask_micros pg s : micros pg s (initialScanTask pg s).
Proof.
  unfold initialScanTask.
  pose proof (findNewButtons_micros pg s) as H.
  destruct (findNewButtons pg s) as [found s1]; simpl in *.
  eapply micros_step; [done | by apply (mi_emit pg (ConsoleLog _))].
Qed.

Lemma lookupTimer_Some i l tm :
  lookupTimer i l = Some tm -> tm ∈ l ∧ tid tm = i.
Proof.
  unfold lookupTimer. intros H. apply head_Some in H as [l' Hl'].
  assert (tm ∈ filter (λ tm, tid tm = i) l) as Hin by (rewrite Hl'; left).
  by apply list_elem_of_filter in Hin as [? ?].
Qed.

(** What one turn of the event loop consists of. *)
Lemma step_cases pg ev s s' :
  step pg ev s = Some s' ->
  match ev with
  | EvTick dt => s' = advance dt s
  | EvMutations mutations =>
      observer s = Some true
      ∧ s' = (if shouldProcess mutations then debouncedExpand s else s)
  | EvBeforeUnload => s' = cleanup s
  | EvTimer i =>
      ∃ tm, tm ∈ timers s ∧ tid tm = i ∧ due tm ≤ now s
            ∧ match task tm with
              | Click _ => s' = fireTimer pg tm s
              | _ => micros pg (fireStart tm s) s'
              end
  | _ => micros pg s s'
  end.
Proof.
  destruct ev as [|mutations| |i|k|entries| |dt]; simpl; intros H.
  - destruct (started s) eqn:Hst; [done |]. injection H as <-.
    apply rtc_once. by constructor.
  - destruct (observer s) as [[|]|]; try done. by injection H as <-.
  - destruct (navObserver s); [| done]. injection H as <-.
    apply rtc_once. constructor.
  - destruct (lookupTimer i (timers s)) as [tm|] eqn:Hl; [| done].
    apply lookupTimer_Some in Hl as [Hin Hid].
    destruct (due tm <=? now s) eqn:Hdue; [| done].
    apply Nat.leb_le in Hdue. injection H as <-.
    exists tm. repeat split; try done.
    unfold fireTimer. destruct (task tm); simpl; try done.
    + apply initialScanTask_micros.
    + apply findNewButtons_micros.
    + apply findNewButtons_micros.
    + apply backupTask_micros.
  - destruct (idleCallbacks s !! k) as [req|]; [| done]. injection H as <-.
    eapply rtc_l; [apply (mi_idle_take pg k) | apply processFunction_micros].
  - destruct (intersectionObserver s); [| done]. injection H as <-.
    apply onIntersections_micros.
  - by injection H as <-.
  - by injection H as <-.
Qed.

(** ** Invariants of the event loop *)

(** A property kept by every small step, by a debounce signal, by the
    teardown and by a timer firing is kept by every turn of the loop.
    [tickOk] is what the property needs of a tick. *)
Section Invariant.
Variable Inv : State -> Prop.
Variable tickOk : nat -> State -> Prop.
Hypothesis Inv_micro : ∀ pg s s', micro pg s s' -> Inv s -> Inv s'.
Hypothesis Inv_tick : ∀ dt s, tickOk dt s -> Inv s -> Inv (advance dt s).
Hypothesis Inv_signal : ∀ s, Inv s -> Inv (debouncedExpand s).
Hypothesis Inv_cleanup : ∀ s, Inv s -> Inv (cleanup s).
Hypothesis Inv_fire : ∀ tm s,
  tm ∈ timers s -> due tm ≤ now s -> (∀ b, task tm ≠ Click b) ->
  Inv s -> Inv (fireStart tm s).
Hypothesis Inv_click : ∀ pg tm b s,
  tm ∈ timers s -> due tm ≤ now s -> task tm = Click b ->
  Inv s -> Inv (fireTimer pg tm s).

Lemma Inv_micros pg s s' : micros pg s s' -> Inv s -> Inv s'.
Proof. induction 1; eauto. Qed.

Lemma Inv_step pg ev s s' :
  (∀ dt, ev = EvTick dt -> tickOk dt s) ->
  step pg ev s = Some s' -> Inv s -> Inv s'.
Proof.
  intros Htick Hstep HI. apply step_cases in Hstep.
  destruct ev as [|mutations| |i|k|entries| |dt];
    try (eapply Inv_micros; by eauto).
  - destruct Hstep as [_ ->]. destruct (shouldProcess mutations); auto.
  - destruct Hstep as (tm & Hin & _ & Hdue & Hrest).
    destruct (task tm) eqn:Htask;
      try (eapply Inv_micros; [exact Hrest |];
           apply Inv_fire; [done | done | intros b; rewrite Htask; done | done]).
    subst s'. eapply Inv_click; eauto.
  - subst s'. auto.
  - subst s'. auto.
Qed.
End Invariant.

Lemma run_invariant (Inv : State -> Prop) tr :
  (∀ pg ev s s', step pg ev s = Some s' -> Inv s -> Inv s') ->
  ∀ s s', run tr s = Some s' -> Inv s -> Inv s'.
Proof.
  intros Hstep. induction tr as [|[pg ev] rest IH]; intros s s' Hrun HI; simpl in *.
  - by injection Hrun as <-.
  - destruct (step pg ev s) as [s1|] eqn:H1; [| done]. eauto.
Qed.

Lemma reachable_invariant (Inv : State -> Prop) :
  (∀ href, Inv (boot href)) ->
  (∀ pg ev s s', step pg ev s = Some s' -> Inv s -> Inv s') ->
  ∀ s, reachable s -> Inv s.
Proof.
  intros Hboot Hstep s (href & tr & Hrun).
  eapply run_invariant; eauto.
Qed.

(** *** Clicks and click timers *)

Lemma isValid_not_processed pg s b :
  isValidShowMoreButton pg s b = true -> b ∉ processedButtons s.
Proof.
  unfold isValidShowMoreButton.
  destruct (isConnected (element pg b)); simpl; [| done].
  by case_bool_decide.
Qed.

Lemma oneShot_app l1 l2 : oneShot l1 -> oneShot l2 -> oneShot (l1 ++ l2).
Proof. intros H1 H2 tm Hin. apply elem_of_app in Hin as [?|?]; eauto. Qed.

Lemma oneShot_filter (Q : Timer -> Prop) `{!∀ x, Decision (Q x)} l :
  oneShot l -> oneShot (filter Q l).
Proof. intros Hl tm Hin. apply list_elem_of_filter in Hin as [_ ?]. eauto. Qed.

Lemma oneShot_single tm :
  (period tm ≠ None -> task tm = Backup) -> oneShot [tm].
Proof. intros H tm' Hin. apply list_elem_of_singleton in Hin as ->. done. Qed.

Lemma oneShot_rearm tm l : oneShot l -> tm ∈ l -> oneShot (rearm tm l).
Proof.
  intros Hl Hin. unfold rearm.
  destruct (period tm) as [p|] eqn:Hp; [| by apply oneShot_filter].
  apply oneShot_app; [by apply oneShot_filter |].
  apply oneShot_single. simpl. intros _. apply Hl; [done | by rewrite Hp].
Qed.

Lemma oneShot_clearTimeout h s :
  oneShot (timers s) -> oneShot (timers (clearTimeout h s)).
Proof. destruct h; simpl; [apply oneShot_filter | done]. Qed.

(** [initialize] and [cleanup] written as field updates. *)
Lemma initialize_eq s :
  initialize s =
  emit (ConsoleLog MsgInitComplete)
    (setInterval Backup backupPeriod
       (set_navObserver true
          (setTimeout InitialScan initialScanDelay
             (set_observer (Some (default true (observer s)))
                (set_intersectionObserver
                   (Some (default ∅ (intersectionObserver s)))
                   (emit (ConsoleLog MsgInitializing) s)))))).
Proof.
  destruct s as [? ? ? ? obs io ? ? ? ? ? ? ? ?].
  by destruct obs, io.
Qed.

Lemma cleanup_eq s :
  cleanup s =
  clearTimeout (debounceTimer s)
    (set_intersectionObserver (const ∅ <$> intersectionObserver s)
       (set_observer (const false <$> observer s) s)).
Proof.
  destruct s as [? ? ? ? obs io ? ? ? ? ? ? ? ?].
  by destruct obs, io.
Qed.

(** [clearTimeout] changes the timer queue only. *)
Lemma clearTimeout_eq h s :
  clearTimeout h s
  = set_timers (match h with
                | Some i => filter (λ tm, tid tm ≠ i) (timers s)
                | None => timers s
                end) s.
Proof. destruct h; [done | by destruct s]. Qed.

(** A step that runs no click closure, queues no click timer and
    forgets no processed button keeps the invariant. *)
Lemma clickInv_frame s s' :
  (∀ b, attempts b s' = attempts b s) ->
  (∀ b, clicks b s' = clicks b s) ->
  (∀ b, armed b s' ≤ armed b s) ->
  (∀ b, b ∈ processedButtons s -> b ∈ processedButtons s') ->
  (oneShot (timers s) -> oneShot (timers s')) ->
  clickInv s -> clickInv s'.
Proof.
  intros Hat Hcl Har Hpr Hone [Ho Hb]. split; [auto |]. intros b.
  destruct (Hb b) as (Hle & Hc & Hin). specialize (Har b).
  rewrite Hat, Hcl. split_and!; [lia | done |]. intros H. apply Hpr, Hin. lia.
Qed.

Lemma armed_snoc b l tm :
  count (isClickTimer b) (l ++ [tm])
  = count (isClickTimer b) l + (if isClickTimer b tm then 1 else 0).
Proof. rewrite count_app. simpl. lia. Qed.

Lemma isClickTimer_click b i d b0 p :
  isClickTimer b (Build_Timer i d (Click b0) p) = bool_decide (b0 = b).
Proof. done. Qed.

Lemma clickInv_micro pg s s' : micro pg s s' -> clickInv s -> clickInv s'.
Proof.
  intros Hm.
  destruct Hm as [o s Ho|b0 s _|s Hp|b0 targets s _|k s|s|b0 s _|b0 s _|s|s _|s];
    try (by apply clickInv_frame).
  - apply clickInv_frame; try done; by destruct o.
  - unfold processPendingButtons. rewrite Hp. by apply clickInv_frame.
  - intros [Hone Hb]. unfold processButton.
    destruct (isValidShowMoreButton pg s b0) eqn:Hv; simpl; [| done].
    apply isValid_not_processed in Hv.
    assert (attempts b0 s + armed b0 s = 0) as Hzero.
    { destruct (Hb b0) as (_ & _ & Hin).
      destruct (attempts b0 s + armed b0 s); [done | exfalso; apply Hv, Hin; lia]. }
    destruct (findTweetContainer (element pg b0)); simpl.
    + split; [apply oneShot_app; [done | by apply oneShot_single] |].
      intros b. destruct (Hb b) as (Hle & Hc & Hin).
      unfold attempts, clicks, armed in *. simpl.
      rewrite !armed_snoc, !isClickTimer_click. case_bool_decide as Heq.
      * subst b0.
        split_and!; [lia | done | intros _; by apply elem_of_union_l, elem_of_singleton].
      * split_and!; [lia | done | intros; apply elem_of_union_r, Hin; lia].
    + split; [done |]. intros b. destruct (Hb b) as (Hle & Hc & Hin).
      unfold attempts, clicks, armed in *. simpl.
      split_and!; [done | done | intros; apply elem_of_union_r, Hin; lia].
  - rewrite initialize_eq. apply clickInv_frame; try done.
    + intros b. unfold armed. simpl. rewrite !armed_snoc. simpl. lia.
    + simpl. intros Hone. repeat apply oneShot_app; try done; by apply oneShot_single.
  - unfold handleNavigation. destruct (negb _); [| done].
    apply clickInv_frame; try done.
    + intros b. unfold armed. simpl. rewrite armed_snoc. simpl. lia.
    + simpl. intros Hone. apply oneShot_app; [done | by apply oneShot_single].
Qed.

Lemma count_filter_lt {A} (p : A -> bool) (Q : A -> Prop)
  `{!∀ x, Decision (Q x)} l x :
  x ∈ l -> p x = true -> ¬ Q x -> count p (filter Q l) + 1 ≤ count p l.
Proof.
  intros Hin Hp HQ. induction l as [|y l IH]; [inversion Hin |].
  rewrite filter_cons. simpl. inversion Hin as [|? ? ? Hin']; subst.
  - rewrite decide_False by done. rewrite Hp.
    pose proof (count_filter_le p Q l). lia.
  - specialize (IH Hin'). destruct (decide (Q y)); simpl; lia.
Qed.

Lemma armed_rearm_le b tm l :
  (∀ b', task tm ≠ Click b') ->
  count (isClickTimer b) (rearm tm l) ≤ count (isClickTimer b) l.
Proof.
  intros Hno. unfold rearm. destruct (period tm).
  - rewrite count_app. cbn [count isClickTimer task].
    pose proof (count_filter_le (isClickTimer b) (λ x, tid x ≠ tid tm) l).
    destruct (task tm) as [| | |b0|] eqn:Ht; simpl; try lia. by destruct (Hno b0).
  - apply count_filter_le.
Qed.

Lemma clickInv_tick dt s : clickInv s -> clickInv (advance dt s).
Proof. done. Qed.

Lemma clickInv_signal s : clickInv s -> clickInv (debouncedExpand s).
Proof.
  unfold debouncedExpand. rewrite !clearTimeout_eq. apply clickInv_frame; try done.
  - intros b. unfold armed. simpl. rewrite armed_snoc. simpl.
    destruct (debounceTimer s); [| lia].
    pose proof (count_filter_le (isClickTimer b) (λ tm, tid tm ≠ n) (timers s)). lia.
  - simpl. intros Hone. apply oneShot_app; [| by apply oneShot_single].
    destruct (debounceTimer s); [by apply oneShot_filter | done].
Qed.

Lemma clickInv_cleanup s : clickInv s -> clickInv (cleanup s).
Proof.
  rewrite cleanup_eq, clearTimeout_eq. apply clickInv_frame; try done.
  - intros b. unfold armed. simpl. destruct (debounceTimer s); [| done].
    apply count_filter_le.
  - simpl. intros Hone. destruct (debounceTimer s); [by apply oneShot_filter | done].
Qed.

Lemma clickInv_fire tm s :
  tm ∈ timers s -> (∀ b, task tm ≠ Click b) ->
  clickInv s -> clickInv (fireStart tm s).
Proof.
  intros Hin Hno. apply clickInv_frame; try done.
  - intros b. unfold attempts. simpl. unfold isAttempt. simpl.
    destruct (task tm) as [| | |b0|] eqn:Ht; try done. by destruct (Hno b0).
  - intros b. by apply armed_rearm_le.
  - simpl. intros Hone. by apply oneShot_rearm.
Qed.

(** What the click closure leaves behind: nothing, a click and its log
    line, or an error line. *)
Lemma clickTask_cases pg b s :
  clickTask pg b s = Normal s
  ∨ clickTask pg b s
    = Normal (emit (ConsoleLog MsgExpanded) (emit (Clicked b) s))
  ∨ clickTask pg b s = Normal (emit (ConsoleError MsgClickError) s).
Proof.
  unfold clickTask, click.
  destruct (isConnected (element pg b) && negb (disabled (element pg b)));
    simpl; [| by left].
  destruct (click_raises (element pg b)); simpl; auto.
Qed.

Lemma attempts_emit b o s :
  attempts b (emit o s) = (if isAttempt b (now s, o) then 1 else 0) + attempts b s.
Proof. done. Qed.

Lemma clicks_emit b o s :
  clicks b (emit o s) = (if isClicked b (now s, o) then 1 else 0) + clicks b s.
Proof. done. Qed.

Lemma armed_emit b o s : armed b (emit o s) = armed b s.
Proof. done. Qed.

Lemma attempts_fireStart b tm s :
  attempts b (fireStart tm s)
  = (if isAttempt b (now s, Fire (task tm)) then 1 else 0) + attempts b s.
Proof. done. Qed.

Lemma clicks_fireStart b tm s : clicks b (fireStart tm s) = clicks b s.
Proof. done. Qed.

Lemma armed_fireStart b tm s :
  armed b (fireStart tm s) = count (isClickTimer b) (rearm tm (timers s)).
Proof. done. Qed.

Lemma clickInv_click pg tm b0 s :
  tm ∈ timers s -> task tm = Click b0 ->
  clickInv s -> clickInv (fireTimer pg tm s).
Proof.
  intros Hin Htask [Hone Hb].
  assert (period tm = None) as Hper.
  { destruct (period tm) eqn:Hp; [| done].
    specialize (Hone tm Hin). rewrite Hp, Htask in Hone. by discriminate Hone. }
  assert (∀ b, count (isClickTimer b) (rearm tm (timers s))
               + (if bool_decide (b0 = b) then 1 else 0)
               ≤ armed b s) as Harm.
  { intros b. unfold armed, rearm. rewrite Hper. case_bool_decide as Heq.
    - subst b. apply count_filter_lt with (x := tm); [done | | by intros H; apply H].
      unfold isClickTimer. rewrite Htask. by apply bool_decide_eq_true.
    - pose proof (count_filter_le (isClickTimer b) (λ x, tid x ≠ tid tm) (timers s)).
      lia. }
  assert (oneShot (rearm tm (timers s))) as Hone' by by apply oneShot_rearm.
  unfold fireTimer. rewrite Htask. simpl.
  destruct (clickTask_cases pg b0 (fireStart tm s)) as [-> | [-> | ->]]; simpl;
    (split; [done |]); intros b; specialize (Harm b);
    destruct (Hb b) as (H1 & Hc & Hp);
    rewrite ?attempts_emit, ?clicks_emit, ?armed_emit,
      attempts_fireStart, clicks_fireStart, armed_fireStart, Htask;
    unfold isAttempt, isClicked; simpl;
    case_bool_decide; (split_and!; [lia | lia | intros; apply Hp; lia]).
Qed.

Lemma clickInv_step pg ev s s' :
  step pg ev s = Some s' -> clickInv s -> clickInv s'.
Proof.
  apply Inv_step with (tickOk := λ _ _, True).
  - apply clickInv_micro.
  - intros; by apply clickInv_tick.
  - apply clickInv_signal.
  - apply clickInv_cleanup.
  - intros; by apply clickInv_fire.
  - intros; by eapply clickInv_click.
  - done.
Qed.

Lemma clickInv_boot href : clickInv (boot href).
Proof.
  split; [intros tm Hin; inversion Hin |].
  intros b. unfold attempts, clicks, armed. simpl. split_and!; lia.
Qed.

Lemma clickInv_reachable s : reachable s -> clickInv s.
Proof.
  apply reachable_invariant; [apply clickInv_boot | apply clickInv_step].
Qed.

(** *** Clicks come after crossings *)

Lemma crossed_cons b e l : crossed b l -> crossed b (e :: l).
Proof. intros [t Ht]. exists t. by right. Qed.

Lemma elem_of_rearm tm tm0 l :
  tm ∈ rearm tm0 l -> tm ∈ l ∨ task tm = task tm0.
Proof.
  unfold rearm. destruct (period tm0).
  - intros [Hin | Hin]%elem_of_app.
    + left. by apply list_elem_of_filter in Hin as [_ ?].
    + right. by apply list_elem_of_singleton in Hin as ->.
  - intros Hin. left. by apply list_elem_of_filter in Hin as [_ ?].
Qed.

Lemma crossInv_micro pg s s' : micro pg s s' -> crossInv s -> crossInv s'.
Proof.
  intros Hm [Hlog Htm]. unfold crossInv in *.
  destruct Hm as [o s Ho|b0 s _|s Hp|b0 targets s _|k s|s|b0 s _|b0 s Hc|s|s _|s].
  - destruct o; try done; simpl; (split; [done |]);
      intros tm b' ? ?; apply crossed_cons; eauto.
  - simpl. split; [done |]. intros tm b' ? ?; apply crossed_cons; eauto.
  - unfold processPendingButtons. rewrite Hp. simpl. split; [done |].
    intros tm b' ? ?; apply crossed_cons; eauto.
  - simpl. split; [done |]. intros tm b' ? ?; apply crossed_cons; eauto.
  - done.
  - done.
  - simpl. split; [done |]. intros tm b' ? ?; apply crossed_cons; eauto.
  - unfold processButton.
    destruct (isValidShowMoreButton pg s b0); simpl; [| done].
    destruct (findTweetContainer (element pg b0)); simpl; [| done].
    split; [done |]. intros tm b' [Hin | Hin]%elem_of_app Htask; [eauto |].
    apply list_elem_of_singleton in Hin as ->. simpl in Htask. by injection Htask as <-.
  - done.
  - rewrite initialize_eq. simpl. split; [done |].
    intros tm b' Hin Htask. do 2 apply crossed_cons.
    rewrite <- app_assoc in Hin. apply elem_of_app in Hin as [Hin | Hin]; [eauto |].
    apply elem_of_cons in Hin as [-> | Hin]; [done |].
    by apply list_elem_of_singleton in Hin as ->.
  - unfold handleNavigation. destruct (negb _); simpl; [| done].
    split; [done |]. intros tm b' [Hin | Hin]%elem_of_app Htask; [eauto |].
    by apply list_elem_of_singleton in Hin as ->.
Qed.

Lemma crossInv_signal s : crossInv s -> crossInv (debouncedExpand s).
Proof.
  intros [Hlog Htm]. unfold debouncedExpand, crossInv.
  rewrite !clearTimeout_eq. simpl. split; [done |].
  intros tm b [Hin | Hin]%elem_of_app Htask.
  - apply crossed_cons. destruct (debounceTimer s); [| eauto].
    apply list_elem_of_filter in Hin as [_ ?]. eauto.
  - by apply list_elem_of_singleton in Hin as ->.
Qed.

Lemma crossInv_cleanup s : crossInv s -> crossInv (cleanup s).
Proof.
  intros [Hlog Htm]. rewrite cleanup_eq, clearTimeout_eq. unfold crossInv. simpl.
  split; [done |]. intros tm b Hin Htask. destruct (debounceTimer s); [| eauto].
  apply list_elem_of_filter in Hin as [_ ?]. eauto.
Qed.

Lemma crossInv_fire tm s :
  (∀ b, task tm ≠ Click b) -> crossInv s -> crossInv (fireStart tm s).
Proof.
  intros Hno [Hlog Htm]. unfold crossInv, fireStart. simpl.
  split; [done |].
  intros tm' b [Hin | Heq]%elem_of_rearm Htask; apply crossed_cons; [eauto |].
  rewrite Heq in Htask. by destruct (Hno b).
Qed.

Lemma crossInv_click pg tm b0 s :
  tm ∈ timers s -> task tm = Click b0 -> crossInv s -> crossInv (fireTimer pg tm s).
Proof.
  intros Hin Htask [Hlog Htm].
  assert (crossed b0 (log (fireStart tm s))) as Hc.
  { simpl. apply crossed_cons. eauto. }
  assert (crossInv (fireStart tm s)) as [Hlog' Htm'].
  { unfold crossInv, fireStart. simpl. split; [done |].
    intros tm' b [Hin' | Heq]%elem_of_rearm Htask'; apply crossed_cons; [eauto |].
    rewrite Heq, Htask in Htask'. injection Htask' as <-. eauto. }
  unfold fireTimer. rewrite Htask. simpl.
  destruct (clickTask_cases pg b0 (fireStart tm s)) as [-> | [-> | ->]];
    unfold crossInv; simpl; [done | |].
  - split; [done |]. intros; do 2 apply crossed_cons; eauto.
  - split; [done |]. intros; apply crossed_cons; eauto.
Qed.

Lemma crossInv_step pg ev s s' :
  step pg ev s = Some s' -> crossInv s -> crossInv s'.
Proof.
  apply Inv_step with (tickOk := λ _ _, True).
  - apply crossInv_micro.
  - done.
  - apply crossInv_signal.
  - apply crossInv_cleanup.
  - intros; by apply crossInv_fire.
  - intros; by eapply crossInv_click.
  - done.
Qed.

Lemma crossInv_reachable s : reachable s -> crossInv s.
Proof.
  apply reachable_invariant; [| apply crossInv_step].
  intros href. split; [done |]. intros tm b Hin. inversion Hin.
Qed.

Lemma clicksAfterCrossing_split l newer t b older :
  clicksAfterCrossing l -> l = newer ++ (t, Clicked b) :: older -> crossed b older.
Proof.
  revert l. induction newer as [|e newer IH]; intros l Hl ->; simpl in Hl.
  - by destruct Hl.
  - destruct Hl as [_ Hl]. by eapply IH.
Qed.

(** *** The debounce timer *)

Lemma count_zero {A} (p : A -> bool) l :
  (∀ x, x ∈ l -> p x = false) -> count p l = 0.
Proof.
  intros H. destruct (count p l) eqn:Hc; [done |].
  assert (0 < count p l) as (x & Hin & Hp)%count_pos by lia.
  rewrite (H x Hin) in Hp. done.
Qed.

Lemma isDebounce_true tm : isDebounce tm = true ↔ task tm = DebouncedScan.
Proof. unfold isDebounce. by destruct (task tm). Qed.

Lemma debounceInv_frame s s' :
  debounceTimer s' = debounceTimer s ->
  (∀ tm, tm ∈ timers s' -> tm ∈ timers s ∨ (isDebounce tm = false ∧ period tm = None)
                           ∨ (task tm = Backup)) ->
  count isDebounce (timers s') ≤ count isDebounce (timers s) ->
  debounceInv s -> debounceInv s'.
Proof.
  intros Hd Htm Hle (Hone & Hid & Hc). unfold debounceInv, outstanding in *.
  split_and!; [| | lia].
  - intros tm Hin Hp. destruct (Htm tm Hin) as [? | [[_ ?] | ?]]; auto. done.
  - intros tm Hin Htask. rewrite Hd.
    destruct (Htm tm Hin) as [? | [[Hnd _] | Hb]]; auto.
    + apply isDebounce_true in Htask. congruence.
    + congruence.
Qed.

Lemma debounceInv_micro pg s s' : micro pg s s' -> debounceInv s -> debounceInv s'.
Proof.
  intros Hm.
  destruct Hm as [o s Ho|b0 s _|s Hp|b0 targets s _|k s|s|b0 s _|b0 s Hc|s|s _|s];
    try (apply debounceInv_frame; simpl; by auto).
  - unfold processPendingButtons. rewrite Hp.
    apply debounceInv_frame; simpl; by auto.
  - unfold processButton.
    destruct (isValidShowMoreButton pg s b0); [| done]. simpl.
    destruct (findTweetContainer (element pg b0));
      apply debounceInv_frame; simpl; auto.
    + intros tm [Hin | Hin]%elem_of_app; [by left |].
      apply list_elem_of_singleton in Hin as ->. right; left. done.
    + rewrite count_app. cbn [count isDebounce task]. lia.
  - rewrite initialize_eq. apply debounceInv_frame; simpl; auto.
    + intros tm Hin. rewrite <- app_assoc in Hin.
      apply elem_of_app in Hin as [Hin | Hin]; [by left |].
      apply elem_of_cons in Hin as [-> | Hin]; [right; left; done |].
      apply list_elem_of_singleton in Hin as ->. right; right. done.
    + rewrite !count_app. cbn [count isDebounce task]. lia.
  - unfold handleNavigation. destruct (negb _); [| done].
    apply debounceInv_frame; simpl; auto.
    + intros tm [Hin | Hin]%elem_of_app; [by left |].
      apply list_elem_of_singleton in Hin as ->. right; left. done.
    + rewrite count_app. cbn [count isDebounce task]. lia.
Qed.

(** After the cancellation in [debouncedExpand] or [cleanup] no debounced
    rescan is queued. *)
Lemma cancel_debounce s :
  debounceInv s ->
  count isDebounce (timers (clearTimeout (debounceTimer s) s)) = 0.
Proof.
  intros (_ & Hid & _). apply count_zero. intros tm Hin.
  destruct (isDebounce tm) eqn:Hd; [| done]. apply isDebounce_true in Hd.
  rewrite clearTimeout_eq in Hin. simpl in Hin.
  destruct (debounceTimer s) as [i|] eqn:Hh.
  - apply list_elem_of_filter in Hin as [Hne Hin].
    specialize (Hid tm Hin Hd). congruence.
  - specialize (Hid tm Hin Hd). done.
Qed.

Lemma debounceInv_signal s : debounceInv s -> debounceInv (debouncedExpand s).
Proof.
  intros HI. pose proof (cancel_debounce s HI) as Hz.
  destruct HI as (Hone & Hid & Hc).
  pose proof (oneShot_clearTimeout (debounceTimer s) s Hone) as Hone'.
  unfold debouncedExpand, debounceInv, outstanding.
  revert Hz Hone'. rewrite !clearTimeout_eq. simpl. intros Hz Hone'.
  split_and!.
  - apply oneShot_app; [done | by apply oneShot_single].
  - intros tm [Hin | Hin]%elem_of_app Htask.
    + apply isDebounce_true in Htask.
      assert (0 < count isDebounce
                    match debounceTimer s with
                    | Some i => filter (λ tm, tid tm ≠ i) (timers s)
                    | None => timers s
                    end) by (apply count_pos; eauto).
      lia.
    + by apply list_elem_of_singleton in Hin as ->.
  - rewrite count_app, Hz. simpl. done.
Qed.

Lemma debounceInv_cleanup s : debounceInv s -> debounceInv (cleanup s).
Proof.
  intros HI. rewrite cleanup_eq, clearTimeout_eq.
  revert HI. apply debounceInv_frame; simpl; [done | |].
  - intros tm Hin. left. destruct (debounceTimer s); [| done].
    by apply list_elem_of_filter in Hin as [_ ?].
  - destruct (debounceTimer s); [apply count_filter_le | done].
Qed.

Lemma count_rearm_le (p : Timer -> bool) tm l :
  tm ∈ l -> (∀ d, p (Build_Timer (tid tm) d (task tm) (period tm)) = p tm) ->
  count p (rearm tm l) ≤ count p l.
Proof.
  intros Hin Hp. unfold rearm. destruct (period tm) as [q|] eqn:Hq.
  - rewrite count_app. simpl. rewrite Hp.
    destruct (p tm) eqn:Hptm.
    + pose proof (count_filter_lt p (λ x, tid x ≠ tid tm) l tm Hin Hptm) as H.
      specialize (H ltac:(by intros H0; apply H0)). lia.
    + pose proof (count_filter_le p (λ x, tid x ≠ tid tm) l). lia.
  - apply count_filter_le.
Qed.

Lemma elem_of_rearm_periodic tm tm0 l :
  tm ∈ rearm tm0 l -> tm ∈ l ∨ (period tm0 ≠ None ∧ task tm = task tm0).
Proof.
  unfold rearm. destruct (period tm0).
  - intros [Hin | Hin]%elem_of_app.
    + left. by apply list_elem_of_filter in Hin as [_ ?].
    + right. by apply list_elem_of_singleton in Hin as ->.
  - intros Hin. left. by apply list_elem_of_filter in Hin as [_ ?].
Qed.

Lemma debounceInv_fireStart tm s :
  tm ∈ timers s -> debounceInv s -> debounceInv (fireStart tm s).
Proof.
  intros Hin HI. pose proof HI as (Hone & _ & _). revert HI.
  apply debounceInv_frame; simpl; [done | |].
  - intros tm' [? | [Hp Heq]]%elem_of_rearm_periodic; [by left |].
    right; right. rewrite Heq. by apply Hone.
  - by apply count_rearm_le.
Qed.

Lemma debounceInv_click pg tm b s :
  tm ∈ timers s -> task tm = Click b ->
  debounceInv s -> debounceInv (fireTimer pg tm s).
Proof.
  intros Hin Htask HI. apply (debounceInv_fireStart tm s Hin) in HI.
  unfold fireTimer. rewrite Htask. simpl.
  destruct (clickTask_cases pg b (fireStart tm s)) as [-> | [-> | ->]]; simpl;
    [done | |]; revert HI; apply debounceInv_frame; simpl; auto.
Qed.

Lemma debounceInv_step pg ev s s' :
  step pg ev s = Some s' -> debounceInv s -> debounceInv s'.
Proof.
  apply Inv_step with (tickOk := λ _ _, True).
  - apply debounceInv_micro.
  - done.
  - apply debounceInv_signal.
  - apply debounceInv_cleanup.
  - intros; by apply debounceInv_fireStart.
  - intros; by eapply debounceInv_click.
  - done.
Qed.

Lemma debounceInv_reachable s : reachable s -> debounceInv s.
Proof.
  apply reachable_invariant; [| apply debounceInv_step].
  intros href. split_and!; [| | unfold outstanding; simpl; lia];
    intros tm Hin; inversion Hin.
Qed.

(** *** Timer handles are fresh *)

Lemma idsInv_same s s' :
  timers s' = timers s -> nextTimerId s' = nextTimerId s ->
  idsInv s -> idsInv s'.
Proof. intros Ht Hn. unfold idsInv. by rewrite Ht, Hn. Qed.

Lemma idsInv_filter (Q : Timer -> Prop) `{!∀ x, Decision (Q x)} s s' :
  timers s' = filter Q (timers s) -> nextTimerId s' = nextTimerId s ->
  idsInv s -> idsInv s'.
Proof.
  intros Ht Hn [Hnd Hlt]. unfold idsInv. rewrite Ht, Hn. split.
  - eapply sublist_NoDup; [done |]. apply fmap_sublist, sublist_filter.
  - intros tm [_ Hin]%list_elem_of_filter. auto.
Qed.

Lemma idsInv_setTimer s s' t d p :
  timers s' = timers s ++ [Build_Timer (nextTimerId s) d t p] ->
  nextTimerId s' = S (nextTimerId s) ->
  idsInv s -> idsInv s'.
Proof.
  intros Ht Hn [Hnd Hlt]. unfold idsInv. rewrite Ht, Hn. split.
  - rewrite fmap_app. simpl. apply NoDup_app. split_and!; [done | | apply NoDup_singleton].
    intros i Hi Hi'. apply list_elem_of_singleton in Hi' as ->.
    apply list_elem_of_fmap in Hi as (tm & Heq & Hin). specialize (Hlt tm Hin). lia.
  - intros tm [Hin | Hin]%elem_of_app; [specialize (Hlt tm Hin); lia |].
    apply list_elem_of_singleton in Hin as ->. simpl. lia.
Qed.

Lemma idsInv_clearTimeout h s : idsInv s -> idsInv (clearTimeout h s).
Proof.
  destruct h as [i|]; [| done].
  by apply (idsInv_filter (λ tm, tid tm ≠ i)).
Qed.

Lemma idsInv_micro pg s s' : micro pg s s' -> idsInv s -> idsInv s'.
Proof.
  intros Hm.
  destruct Hm as [o s Ho|b0 s _|s Hp|b0 targets s _|k s|s|b0 s _|b0 s Hc|s|s _|s];
    try (by apply idsInv_same).
  - unfold processPendingButtons. rewrite Hp. by apply idsInv_same.
  - unfold processButton.
    destruct (isValidShowMoreButton pg s b0); [| done]. simpl.
    destruct (findTweetContainer (element pg b0)); [| by apply idsInv_same].
    by eapply idsInv_setTimer.
  - rewrite initialize_eq. intros HI.
    set (s1 := setTimeout InitialScan initialScanDelay
                 (set_observer _ (set_intersectionObserver _
                    (emit (ConsoleLog MsgInitializing) (set_started true s))))).
    assert (idsInv s1) as HI1 by (revert HI; by eapply idsInv_setTimer).
    revert HI1. by eapply idsInv_setTimer.
  - unfold handleNavigation. destruct (negb _); [| done].
    by eapply idsInv_setTimer.
Qed.

Lemma idsInv_signal s : idsInv s -> idsInv (debouncedExpand s).
Proof.
  intros HI. apply (idsInv_same s (emit Signal s) eq_refl eq_refl) in HI.
  apply (idsInv_clearTimeout (debounceTimer s)) in HI.
  revert HI. unfold debouncedExpand. by eapply idsInv_setTimer.
Qed.

Lemma idsInv_cleanup s : idsInv s -> idsInv (cleanup s).
Proof.
  intros HI. rewrite cleanup_eq.
  apply idsInv_clearTimeout. revert HI. by apply idsInv_same.
Qed.

Lemma idsInv_fireStart tm s : tm ∈ timers s -> idsInv s -> idsInv (fireStart tm s).
Proof.
  intros Hin [Hnd Hlt]. unfold idsInv, fireStart, rearm. simpl.
  assert (NoDup (tid <$> filter (λ x, tid x ≠ tid tm) (timers s))) as Hnd'.
  { eapply sublist_NoDup; [done |]. apply fmap_sublist, sublist_filter. }
  destruct (period tm); split; try done.
  - rewrite fmap_app. simpl. apply NoDup_app. split_and!; [done | | apply NoDup_singleton].
    intros i Hi Hi'. apply list_elem_of_singleton in Hi' as ->.
    apply list_elem_of_fmap in Hi as (tm' & Heq & [Hne _]%list_elem_of_filter).
    by apply Hne.
  - intros tm' [[_ ?]%list_elem_of_filter | Heq%list_elem_of_singleton]%elem_of_app;
      [auto | subst tm'; simpl; auto].
  - intros tm' [_ ?]%list_elem_of_filter. auto.
Qed.

Lemma idsInv_click pg tm b s :
  tm ∈ timers s -> task tm = Click b -> idsInv s -> idsInv (fireTimer pg tm s).
Proof.
  intros Hin Htask HI. apply (idsInv_fireStart tm s Hin) in HI.
  unfold fireTimer. rewrite Htask. simpl.
  destruct (clickTask_cases pg b (fireStart tm s)) as [-> | [-> | ->]]; simpl;
    [done | |]; revert HI; by apply idsInv_same.
Qed.

Lemma idsInv_step pg ev s s' : step pg ev s = Some s' -> idsInv s -> idsInv s'.
Proof.
  apply Inv_step with (tickOk := λ _ _, True).
  - apply idsInv_micro.
  - intros dt s0 _. by apply idsInv_same.
  - apply idsInv_signal.
  - apply idsInv_cleanup.
  - intros; by apply idsInv_fireStart.
  - intros; by eapply idsInv_click.
  - done.
Qed.

Lemma idsInv_boot href : idsInv (boot href).
Proof. split; [apply NoDup_nil_2 | intros tm Hin; inversion Hin]. Qed.

Lemma idsInv_reachable s : reachable s -> idsInv s.
Proof. apply reachable_invariant; [apply idsInv_boot | apply idsInv_step]. Qed.

(** *** Timers that fire on time *)

Lemma punctual_frame s s' :
  now s' = now s ->
  (∀ tm, tm ∈ timers s' -> tm ∈ timers s ∨ now s ≤ due tm) ->
  punctual s -> punctual s'.
Proof.
  intros Hn Ht HI tm Hin. rewrite Hn. destruct (Ht tm Hin); auto.
Qed.

Lemma punctual_micro pg s s' : micro pg s s' -> punctual s -> punctual s'.
Proof.
  intros Hm.
  destruct Hm as [o s Ho|b0 s _|s Hp|b0 targets s _|k s|s|b0 s _|b0 s Hc|s|s _|s];
    try (apply punctual_frame; simpl; by auto).
  - unfold processPendingButtons. rewrite Hp. apply punctual_frame; simpl; by auto.
  - unfold processButton.
    destruct (isValidShowMoreButton pg s b0); [| done]. simpl.
    destruct (findTweetContainer (element pg b0)); apply punctual_frame; simpl; auto.
    intros tm [Hin | Hin]%elem_of_app; [by left |].
    apply list_elem_of_singleton in Hin as ->. right. simpl. lia.
  - rewrite initialize_eq. apply punctual_frame; simpl; auto.
    intros tm Hin. rewrite <- app_assoc in Hin.
    apply elem_of_app in Hin as [Hin | Hin]; [by left |]. right.
    apply elem_of_cons in Hin as [-> | Hin]; [simpl; lia |].
    apply list_elem_of_singleton in Hin as ->. simpl. lia.
  - unfold handleNavigation. destruct (negb _); [| done].
    apply punctual_frame; simpl; auto.
    intros tm [Hin | Hin]%elem_of_app; [by left |].
    apply list_elem_of_singleton in Hin as ->. right. simpl. lia.
Qed.

Lemma punctual_signal s : punctual s -> punctual (debouncedExpand s).
Proof.
  unfold debouncedExpand. rewrite !clearTimeout_eq.
  apply punctual_frame; simpl; [done |].
  intros tm [Hin | Hin]%elem_of_app.
  - left. destruct (debounceTimer s); [| done].
    by apply list_elem_of_filter in Hin as [_ ?].
  - apply list_elem_of_singleton in Hin as ->. right. simpl. lia.
Qed.

Lemma punctual_cleanup s : punctual s -> punctual (cleanup s).
Proof.
  rewrite cleanup_eq, clearTimeout_eq. apply punctual_frame; simpl; [done |].
  intros tm Hin. left. destruct (debounceTimer s); [| done].
  by apply list_elem_of_filter in Hin as [_ ?].
Qed.

Lemma punctual_fireStart tm s :
  tm ∈ timers s -> punctual s -> punctual (fireStart tm s).
Proof.
  intros Hin HI. pose proof (HI tm Hin) as Hdue. revert HI.
  apply punctual_frame; simpl; [done |]. unfold rearm.
  intros tm'. destruct (period tm).
  - intros [[_ ?]%list_elem_of_filter | Heq%list_elem_of_singleton]%elem_of_app;
      [by left | right; subst tm'; simpl; lia].
  - intros [_ ?]%list_elem_of_filter. by left.
Qed.

Lemma punctual_click pg tm b s :
  tm ∈ timers s -> task tm = Click b -> punctual s -> punctual (fireTimer pg tm s).
Proof.
  intros Hin Htask HI. apply (punctual_fireStart tm s Hin) in HI.
  unfold fireTimer. rewrite Htask. simpl.
  destruct (clickTask_cases pg b (fireStart tm s)) as [-> | [-> | ->]]; simpl;
    [done | |]; revert HI; apply punctual_frame; simpl; auto.
Qed.

Lemma punctual_step pg ev s s' :
  onTime ev s = true -> step pg ev s = Some s' -> punctual s -> punctual s'.
Proof.
  intros Hon. apply Inv_step with (tickOk := λ dt s, onTime (EvTick dt) s = true).
  - apply punctual_micro.
  - intros dt s0 Hok HI tm Hin. simpl in *.
    rewrite forallb_forall in Hok. apply Nat.leb_le, Hok.
    by apply list_elem_of_In.
  - apply punctual_signal.
  - apply punctual_cleanup.
  - intros; by apply punctual_fireStart.
  - intros; by eapply punctual_click.
  - by intros dt ->.
Qed.

(** *** What a quiet turn does to the debounce timer *)

Lemma debounceDues_app l1 l2 :
  debounceDues (l1 ++ l2) = debounceDues l1 ++ debounceDues l2.
Proof.
  induction l1 as [|tm l1 IH]; simpl; [done |].
  destruct (isDebounce tm); simpl; by rewrite IH.
Qed.

Lemma debounceDues_length l : length (debounceDues l) = count isDebounce l.
Proof.
  induction l as [|tm l IH]; simpl; [done |].
  destruct (isDebounce tm); simpl; by rewrite IH.
Qed.

Lemma debounceDues_elem tm l :
  tm ∈ l -> isDebounce tm = true -> due tm ∈ debounceDues l.
Proof.
  intros Hin Hd. induction l as [|x l IH]; [inversion Hin |].
  simpl. inversion Hin; subst.
  - rewrite Hd. left.
  - destruct (isDebounce x); [right |]; auto.
Qed.

Lemma debounceDues_elem_inv d l :
  d ∈ debounceDues l -> ∃ tm, tm ∈ l ∧ isDebounce tm = true ∧ due tm = d.
Proof.
  induction l as [|x l IH]; simpl; [intros H; inversion H |].
  destruct (isDebounce x) eqn:Hx.
  - intros [-> | Hin]%elem_of_cons.
    + exists x. split; [left | done].
    + destruct (IH Hin) as (tm & ? & ? & ?). exists tm. split; [by right | done].
  - intros Hin. destruct (IH Hin) as (tm & ? & ? & ?).
    exists tm. split; [by right | done].
Qed.

Lemma debounceDues_filter (Q : Timer -> Prop) `{!∀ x, Decision (Q x)} l :
  (∀ tm, tm ∈ l -> isDebounce tm = true -> Q tm) ->
  debounceDues (filter Q l) = debounceDues l.
Proof.
  intros Hall. induction l as [|x l IH]; [done |].
  rewrite filter_cons. simpl.
  assert (debounceDues (filter Q l) = debounceDues l) as IH'.
  { apply IH. intros tm Hin. apply Hall. by right. }
  destruct (decide (Q x)) as [HQ | HQ]; simpl; rewrite IH'; [done |].
  destruct (isDebounce x) eqn:Hx; [| done].
  destruct HQ. apply Hall; [left | done].
Qed.

Lemma NoDup_tid l tm tm' :
  NoDup (tid <$> l) -> tm ∈ l -> tm' ∈ l -> tid tm = tid tm' -> tm = tm'.
Proof.
  induction l as [|x l IH]; [intros _ H; inversion H |].
  rewrite fmap_cons, NoDup_cons. intros [Hx Hnd] Hin Hin' Heq.
  apply elem_of_cons in Hin as [-> | Hin]; apply elem_of_cons in Hin' as [-> | Hin'];
    try done; try by apply IH.
  - destruct Hx. rewrite Heq. apply list_elem_of_fmap. eauto.
  - destruct Hx. rewrite <- Heq. apply list_elem_of_fmap. eauto.
Qed.

Lemma micro_still pg s s' :
  micro pg s s' ->
  debounceDues (timers s') = debounceDues (timers s)
  ∧ rescans (log s') = rescans (log s) ∧ now s' = now s.
Proof.
  intros Hm.
  destruct Hm as [o s Ho|b0 s _|s Hp|b0 targets s _|k s|s|b0 s _|b0 s Hc|s|s _|s];
    try done.
  - by destruct o.
  - unfold processPendingButtons. by rewrite Hp.
  - unfold processButton.
    destruct (isValidShowMoreButton pg s b0); [| done]. simpl.
    destruct (findTweetContainer (element pg b0)); [| done]. simpl.
    rewrite debounceDues_app. simpl. by rewrite app_nil_r.
  - rewrite initialize_eq. simpl. rewrite !debounceDues_app. simpl.
    by rewrite !app_nil_r.
  - unfold handleNavigation. destruct (negb _); [| done]. simpl.
    rewrite debounceDues_app. simpl. by rewrite app_nil_r.
Qed.

Lemma micros_still pg s s' :
  micros pg s s' ->
  debounceDues (timers s') = debounceDues (timers s)
  ∧ rescans (log s') = rescans (log s) ∧ now s' = now s.
Proof.
  induction 1 as [|s1 s2 s3 H12 _ IH]; [done |].
  apply micro_still in H12 as (E1 & E2 & E3).
  destruct IH as (-> & -> & ->). done.
Qed.

Lemma signal_effect s :
  debounceInv s ->
  debounceDues (timers (debouncedExpand s)) = [now s + CONFIG.debounceDelay]
  ∧ rescans (log (debouncedExpand s)) = rescans (log s)
  ∧ now (debouncedExpand s) = now s.
Proof.
  intros HI. pose proof (cancel_debounce s HI) as Hz.
  rewrite <- debounceDues_length in Hz. apply length_zero_iff_nil in Hz.
  revert Hz. unfold debouncedExpand. rewrite !clearTimeout_eq. simpl.
  intros Hz. by rewrite debounceDues_app, Hz.
Qed.

Lemma fireStart_other tm s :
  tm ∈ timers s -> isDebounce tm = false -> idsInv s ->
  debounceDues (timers (fireStart tm s)) = debounceDues (timers s)
  ∧ rescans (log (fireStart tm s)) = rescans (log s)
  ∧ now (fireStart tm s) = now s.
Proof.
  intros Hin Hd [Hnd _]. simpl. split_and!; [| | done].
  - assert (debounceDues (filter (λ x, tid x ≠ tid tm) (timers s))
            = debounceDues (timers s)) as Hf.
    { apply debounceDues_filter. intros tm' Hin' Hd' Heq.
      assert (tm' = tm) as -> by by eapply NoDup_tid. congruence. }
    unfold rearm. destruct (period tm); [| done].
    rewrite debounceDues_app, Hf. simpl.
    unfold isDebounce in *. simpl. rewrite Hd. by rewrite app_nil_r.
  - unfold isDebounce in Hd. by destruct (task tm).
Qed.

Lemma fireStart_debounce tm s :
  tm ∈ timers s -> task tm = DebouncedScan -> debounceInv s ->
  debounceDues (timers s) = [due tm]
  ∧ debounceDues (timers (fireStart tm s)) = []
  ∧ rescans (log (fireStart tm s)) = now s :: rescans (log s)
  ∧ now (fireStart tm s) = now s.
Proof.
  intros Hin Htask (Hone & Hid & Hc).
  assert (isDebounce tm = true) as Hd by by apply isDebounce_true.
  split_and!; [| | by simpl; rewrite Htask | done].
  - pose proof (debounceDues_elem tm _ Hin Hd) as Hdue.
    unfold outstanding in Hc. rewrite <- debounceDues_length in Hc.
    destruct (debounceDues (timers s)) as [|d [|d' ds]]; simpl in Hc; [| | lia].
    + inversion Hdue.
    + by apply list_elem_of_singleton in Hdue as ->.
  - assert (period tm = None) as Hp.
    { destruct (period tm) eqn:Hp; [| done].
      specialize (Hone tm Hin). rewrite Hp, Htask in Hone. by discriminate Hone. }
    simpl. unfold rearm. rewrite Hp.
    apply length_zero_iff_nil. rewrite debounceDues_length.
    apply count_zero. intros tm' [Hne Hin']%list_elem_of_filter.
    destruct (isDebounce tm') eqn:Hd'; [| done]. apply isDebounce_true in Hd'.
    pose proof (Hid tm Hin Htask). pose proof (Hid tm' Hin' Hd'). congruence.
Qed.

Lemma quiet_step pg ev s s' :
  quiet ev = true -> debounceInv s -> idsInv s -> step pg ev s = Some s' ->
  now s' = now s + tickOf ev
  ∧ ((debounceDues (timers s') = debounceDues (timers s)
      ∧ rescans (log s') = rescans (log s))
     ∨ (∃ d, debounceDues (timers s) = [d] ∧ d ≤ now s
             ∧ debounceDues (timers s') = []
             ∧ rescans (log s') = now s :: rescans (log s))).
Proof.
  intros Hq HD HN Hstep. apply step_cases in Hstep.
  destruct ev as [|mutations| |i|k|entries| |dt]; simpl in *;
    try (apply micros_still in Hstep as (-> & -> & ->); split; [lia | by left]).
  - destruct Hstep as [_ ->]. apply negb_true_iff in Hq. rewrite Hq.
    split; [lia | by left].
  - destruct Hstep as (tm & Hin & _ & Hdue & Hrest).
    destruct (task tm) as [| | |b|] eqn:Htask.
    + apply micros_still in Hrest as (-> & -> & ->).
      destruct (fireStart_other tm s) as (-> & -> & ->);
        [done | by unfold isDebounce; rewrite Htask | done |].
      split; [lia | by left].
    + apply micros_still in Hrest as (-> & -> & ->).
      destruct (fireStart_debounce tm s) as (Hd & -> & -> & ->); [done.. |].
      split; [lia |]. right. exists (due tm). done.
    + apply micros_still in Hrest as (-> & -> & ->).
      destruct (fireStart_other tm s) as (-> & -> & ->);
        [done | by unfold isDebounce; rewrite Htask | done |].
      split; [lia | by left].
    + subst s'. unfold fireTimer. rewrite Htask. simpl.
      destruct (fireStart_other tm s) as (E1 & E2 & E3);
        [done | by unfold isDebounce; rewrite Htask | done |].
      destruct (clickTask_cases pg b (fireStart tm s)) as [-> | [-> | ->]];
        simpl in *; rewrite E1, E2; (split; [lia | by left]).
    + apply micros_still in Hrest as (-> & -> & ->).
      destruct (fireStart_other tm s) as (-> & -> & ->);
        [done | by unfold isDebounce; rewrite Htask | done |].
      split; [lia | by left].
  - done.
  - subst s'. simpl. split; [done | by left].
Qed.

Lemma timely_step pg ev s s' :
  onTime ev s = true -> step pg ev s = Some s' -> timely s -> timely s'.
Proof.
  intros Hon Hstep (HD & HN & HP). split_and!.
  - by eapply debounceInv_step.
  - by eapply idsInv_step.
  - by eapply punctual_step.
Qed.

Lemma timely_run tr s s' : runOnTime tr s = Some s' -> timely s -> timely s'.
Proof.
  revert s. induction tr as [|[pg ev] rest IH]; intros s Hrun HI; simpl in *.
  - by injection Hrun as <-.
  - destruct (onTime ev s) eqn:Hon; [| done].
    destruct (step pg ev s) as [s1|] eqn:Hstep; [| done].
    eapply IH; [done |]. by eapply timely_step.
Qed.

Lemma timely_boot href : timely (boot href).
Proof.
  split_and!.
  - apply debounceInv_reachable. by exists href, [].
  - apply idsInv_boot.
  - intros tm Hin. inversion Hin.
Qed.

Lemma runOnTime_app tr1 tr2 s s' :
  runOnTime (tr1 ++ tr2) s = Some s' ->
  ∃ s1, runOnTime tr1 s = Some s1 ∧ runOnTime tr2 s1 = Some s'.
Proof.
  revert s. induction tr1 as [|[pg ev] rest IH]; intros s Hrun; simpl in *.
  - by exists s.
  - destruct (onTime ev s); [| done]. destruct (step pg ev s); [| done]. auto.
Qed.

Lemma punctual_dues s d :
  punctual s -> d ∈ debounceDues (timers s) -> now s ≤ d.
Proof.
  intros HP (tm & Hin & _ & <-)%debounceDues_elem_inv. by apply HP.
Qed.

(** A quiet stretch of an on-time run: the queued rescan, if any, stays
    queued, or it runs once, at its due time. *)
Lemma quiet_segment seg s s' :
  forallb (λ x, quiet x.2) seg = true -> timely s ->
  runOnTime seg s = Some s' ->
  now s' = now s + elapsed seg
  ∧ ((debounceDues (timers s') = debounceDues (timers s)
      ∧ rescans (log s') = rescans (log s))
     ∨ (∃ d, debounceDues (timers s) = [d] ∧ d ≤ now s'
             ∧ debounceDues (timers s') = []
             ∧ rescans (log s') = d :: rescans (log s))).
Proof.
  revert s. induction seg as [|[pg ev] rest IH]; intros s Hq HI Hrun; simpl in *.
  - injection Hrun as <-. split; [lia | by left].
  - apply andb_true_iff in Hq as [Hq Hqs].
    destruct (onTime ev s) eqn:Hon; [| done].
    destruct (step pg ev s) as [s1|] eqn:Hstep; [| done].
    pose proof (timely_step _ _ _ _ Hon Hstep HI) as HI1.
    destruct HI as (HD & HN & HP).
    destruct (quiet_step _ _ _ _ Hq HD HN Hstep) as [Hnow Hcase].
    destruct (IH s1 Hqs HI1 Hrun) as [Hnow' Hcase'].
    split; [lia |].
    destruct Hcase as [[E1 E2] | (d & Hd & Hle & E1 & E2)].
    + rewrite <- E1, <- E2. destruct Hcase' as [? | (d & ? & ? & ? & ?)]; [by left |].
      right. by exists d.
    + assert (now s = d) as <-.
      { apply Nat.le_antisymm; [| done]. apply punctual_dues; [done |].
        rewrite Hd. left. }
      right. exists (now s). rewrite E1 in Hcase'.
      destruct Hcase' as [[-> ->] | (d' & ? & _)]; [| done].
      split_and!; try done. lia.
Qed.

(** *** Who is in the pending set *)

Lemma freshlyAdded_grows b l l' :
  grows offPending l l' -> freshlyAdded b l -> freshlyAdded b l'.
Proof.
  induction 1 as [|[t o] l' Ho _ IH]; [done |]. intros H. simpl in *.
  destruct o; try done; auto.
Qed.

Lemma releasesJustified_grows l l' :
  grows offPending l l' -> releasesJustified l -> releasesJustified l'.
Proof.
  induction 1 as [|[t o] l' Ho _ IH]; [done |]. intros H. simpl in *.
  destruct o; try done; auto.
Qed.

Lemma pendInv_frame s s' :
  grows offPending (log s) (log s') ->
  (∀ b, b ∈ pendingButtons s' -> b ∈ pendingButtons s) ->
  pendInv s -> pendInv s'.
Proof.
  intros Hg Hsub [Hrel Hp]. split.
  - by eapply releasesJustified_grows.
  - intros b Hb. eapply freshlyAdded_grows; eauto.
Qed.

Lemma JsSet_add_elem b b0 l : b ∈ JsSet.add b0 l ↔ b = b0 ∨ b ∈ l.
Proof.
  unfold JsSet.add, JsSet.has. case_bool_decide.
  - split; [by right | by intros [-> | ?]].
  - rewrite elem_of_app, list_elem_of_singleton. tauto.
Qed.

Lemma JsSet_delete_elem b b0 l : b ∈ JsSet.delete b0 l ↔ b ≠ b0 ∧ b ∈ l.
Proof. unfold JsSet.delete. by rewrite list_elem_of_filter. Qed.

Lemma pendInv_micro pg s s' : micro pg s s' -> pendInv s -> pendInv s'.
Proof.
  intros Hm.
  destruct Hm as [o s Ho|b0 s _|s Hp|b0 targets s _|k s|s|b0 s Hin|b0 s Hc|s|s _|s];
    try (apply pendInv_frame; simpl; [by repeat constructor | by auto]).
  - apply pendInv_frame; simpl; [| by auto].
    constructor; [by destruct o | constructor].
  - intros [Hrel Hpend]. split; simpl; [done |].
    intros b [-> | Hb]%JsSet_add_elem; auto.
  - unfold processPendingButtons. rewrite Hp. intros [Hrel Hpend].
    split; simpl; [done |]. intros b Hb. inversion Hb.
  - intros [Hrel Hpend]. split; simpl; [by auto |].
    intros b [_ Hb]%JsSet_delete_elem. auto.
  - unfold processButton.
    destruct (isValidShowMoreButton pg s b0); [| done]. simpl.
    destruct (findTweetContainer (element pg b0));
      apply pendInv_frame; simpl; by (constructor || auto).
  - apply pendInv_frame; simpl; [constructor |].
    by intros b [_ ?]%list_elem_of_filter.
  - rewrite initialize_eq. apply pendInv_frame; simpl; [repeat constructor | by auto].
  - unfold handleNavigation. destruct (negb _); [| done].
    apply pendInv_frame; simpl; by (constructor || auto).
Qed.

Lemma pendInv_signal s : pendInv s -> pendInv (debouncedExpand s).
Proof.
  unfold debouncedExpand. rewrite !clearTimeout_eq.
  apply pendInv_frame; simpl; [repeat constructor | by auto].
Qed.

Lemma pendInv_cleanup s : pendInv s -> pendInv (cleanup s).
Proof.
  rewrite cleanup_eq, clearTimeout_eq.
  apply pendInv_frame; simpl; [constructor | by auto].
Qed.

Lemma pendInv_fireStart tm s : pendInv s -> pendInv (fireStart tm s).
Proof. apply pendInv_frame; simpl; [repeat constructor | by auto]. Qed.

Lemma pendInv_click pg tm b s :
  task tm = Click b -> pendInv s -> pendInv (fireTimer pg tm s).
Proof.
  intros Htask HI. apply (pendInv_fireStart tm) in HI.
  unfold fireTimer. rewrite Htask. simpl.
  destruct (clickTask_cases pg b (fireStart tm s)) as [-> | [-> | ->]]; simpl;
    [done | |]; revert HI; apply pendInv_frame; simpl;
    by (repeat constructor || auto).
Qed.

Lemma pendInv_step pg ev s s' :
  step pg ev s = Some s' -> pendInv s -> pendInv s'.
Proof.
  apply Inv_step with (tickOk := λ _ _, True).
  - apply pendInv_micro.
  - done.
  - apply pendInv_signal.
  - apply pendInv_cleanup.
  - intros; by apply pendInv_fireStart.
  - intros; by eapply pendInv_click.
  - done.
Qed.

Lemma pendInv_reachable s : reachable s -> pendInv s.
Proof.
  apply reachable_invariant; [| apply pendInv_step].
  intros href. split; [done |]. intros b Hb. inversion Hb.
Qed.

(** ** What a scan changes *)

Lemma scanFrame_trans s1 s2 s3 : scanFrame s1 s2 -> scanFrame s2 s3 -> scanFrame s1 s3.
Proof.
  unfold scanFrame. intros (-> & -> & -> & -> & -> & -> & ->). done.
Qed.

Lemma isCandidate_frame pg s s' b :
  processedButtons s' = processedButtons s ->
  isCandidate pg s' b = isCandidate pg s b.
Proof.
  intros H. unfold isCandidate, isValidShowMoreButton. by rewrite H.
Qed.

Lemma scanLoop_frame pg matches n s : scanFrame s (scanLoop pg matches n s).2.
Proof.
  revert n s. induction matches as [|b rest IH]; intros n s; simpl.
  - by unfold scanFrame.
  - destruct (isCandidate pg s b); [| apply IH].
    eapply scanFrame_trans; [| apply IH]. by unfold scanFrame.
Qed.

Lemma processPendingButtons_frame s : scanFrame s (processPendingButtons s).
Proof.
  unfold processPendingButtons. by destruct (isProcessing s); unfold scanFrame.
Qed.

Lemma findNewButtons_eq pg s :
  findNewButtons pg s
  = let r := scanLoop pg (querySelectorAll pg) 0 (emit Scan s) in
    (r.1, if 0 <? r.1 then processPendingButtons r.2 else r.2).
Proof. unfold findNewButtons. by destruct (scanLoop _ _ _ _). Qed.

Lemma findNewButtons_frame pg s : scanFrame s (findNewButtons pg s).2.
Proof.
  rewrite findNewButtons_eq. simpl.
  pose proof (scanLoop_frame pg (querySelectorAll pg) 0 (emit Scan s)) as H.
  apply (scanFrame_trans s (emit Scan s)); [by unfold scanFrame |].
  eapply scanFrame_trans; [exact H |].
  destruct (0 <? _); [apply processPendingButtons_frame | by unfold scanFrame].
Qed.

(** The loop counts the candidates among the matches, and afterwards they
    are all in the pending set. *)
Lemma scanLoop_count pg matches n s :
  (scanLoop pg matches n s).1 = n + count (isCandidate pg s) matches.
Proof.
  revert n s. induction matches as [|b rest IH]; intros n s; simpl; [lia |].
  destruct (isCandidate pg s b) eqn:Hc; rewrite IH.
  - assert (count (isCandidate pg
                (emit (PendingAdd b)
                   (set_pendingButtons (JsSet.add b (pendingButtons s)) s))) rest
            = count (isCandidate pg s) rest) as ->; [| lia].
    clear IH. induction rest as [|x rest IH]; simpl; [done |].
    rewrite IH. by rewrite (isCandidate_frame pg s).
  - lia.
Qed.

Lemma scanLoop_pending pg matches n s b :
  b ∈ pendingButtons (scanLoop pg matches n s).2
  ↔ b ∈ pendingButtons s ∨ (b ∈ matches ∧ isCandidate pg s b = true).
Proof.
  revert n s. induction matches as [|x rest IH]; intros n s; simpl.
  - split; [by left | intros [? | [H _]]; [done | inversion H]].
  - destruct (isCandidate pg s x) eqn:Hc; rewrite IH; simpl.
    + rewrite JsSet_add_elem, (isCandidate_frame pg s) by done.
      rewrite elem_of_cons. split; [| intros [?|[[->|?] ?]]; auto].
      intros [[-> | ?] | [? ?]]; auto.
    + rewrite elem_of_cons. split; [intros [?|[? ?]]; auto |].
      intros [? | [[-> | ?] ?]]; auto. congruence.
Qed.

(** ** Sample pages and runs *)

Lemma reachable_untilRelease : reachable (stateAfter untilRelease).
Proof. exists homeUrl, untilRelease. by vm_compute. Qed.

Lemma reachable_untilClick : reachable (stateAfter untilClick).
Proof. exists homeUrl, untilClick. by vm_compute. Qed.

Example untilClick_log :
  log (stateAfter untilClick)
  = [(5300, ConsoleLog MsgExpanded); (5300, Clicked 0); (5300, Fire (Click 0));
     (5000, Release 0); (5000, Crossing 0); (5000, Observe 0);
     (5000, PendingAdd 0); (5000, Scan); (5000, Fire Backup);
     (1000, ConsoleLog (MsgFound 1)); (1000, PendingClear [0]);
     (1000, PendingAdd 0); (1000, Scan); (1000, Fire InitialScan);
     (0, ConsoleLog MsgInitComplete); (0, ConsoleLog MsgInitializing)].
Proof. by vm_compute. Qed.

(** ** The claims *)

(** *** C1 *)

Lemma processed_step pg ev s s' b :
  step pg ev s = Some s' -> b ∈ processedButtons s -> b ∈ processedButtons s'.
Proof.
  apply Inv_step with (Inv := λ s, b ∈ processedButtons s) (tickOk := λ _ _, True);
    try done.
  - intros pg0 s0 s0' Hm.
    destruct Hm as [o s0 Ho|b0 s0 _|s0 Hp|b0 targets s0 _|k s0|s0|b0 s0 _|b0 s0 _
                   |s0|s0 _|s0]; try done.
    + unfold processPendingButtons. by rewrite Hp.
    + unfold processButton. destruct (isValidShowMoreButton pg0 s0 b0); [| done].
      simpl. intros Hb. destruct (findTweetContainer _); simpl;
        by apply elem_of_union_r.
    + by rewrite initialize_eq.
    + unfold handleNavigation. by destruct (negb _).
  - intros s0. unfold debouncedExpand. by rewrite !clearTimeout_eq.
  - intros s0. by rewrite cleanup_eq, clearTimeout_eq.
  - intros pg0 tm b0 s0 _ _ Htask. unfold fireTimer. rewrite Htask. simpl.
    by destruct (clickTask_cases pg0 b0 (fireStart tm s0)) as [-> | [-> | ->]].
Qed.

Lemma isCandidate_processed pg s b :
  b ∈ processedButtons s -> isCandidate pg s b = false.
Proof. intros H. unfold isCandidate. by rewrite bool_decide_eq_true_2. Qed.

Lemma processButton_processed pg s b :
  b ∈ processedButtons s -> processButton pg b s = s.
Proof.
  intros H. unfold processButton, isValidShowMoreButton.
  rewrite (bool_decide_eq_true_2 _ H). by rewrite orb_true_r.
Qed.

(** C1 (at most once).  In every state the event loop can reach, [click()]
    has returned on an element [b] at most once; the closure that calls it
    has run or is queued at most once in all.  Once [b] is in
    [processedButtons], it stays there, the test of the scan loop rejects
    it, and [processButton] on it does nothing. *)
Theorem C1_at_most_once (s : State) (b : elem) :
  reachable s ->
  clicks b s ≤ 1
  ∧ attempts b s + armed b s ≤ 1
  ∧ (b ∈ processedButtons s ->
     ∀ pg, isCandidate pg s b = false
           ∧ processButton pg b s = s
           ∧ ∀ ev s', step pg ev s = Some s' -> b ∈ processedButtons s').
Proof.
  intros Hr. destruct (clickInv_reachable s Hr) as [_ Hb].
  destruct (Hb b) as (Hle & Hc & _). split_and!; [lia | done |].
  intros Hin pg. split_and!.
  - by apply isCandidate_processed.
  - by apply processButton_processed.
  - intros ev s' Hstep. by eapply processed_step.
Qed.

Lemma C1_witness :
  clicks 0 (stateAfter untilClick) ≤ 1
  ∧ attempts 0 (stateAfter untilClick) + armed 0 (stateAfter untilClick) ≤ 1
  ∧ isCandidate (timeline 1) (stateAfter untilClick) 0 = false.
Proof.
  destruct (C1_at_most_once (stateAfter untilClick) 0 reachable_untilClick)
    as (H1 & H2 & H3).
  split_and!; [exact H1 | exact H2 |].
  apply H3. apply (bool_decide_unpack _). by vm_compute.
Defined.

(** *** C2 *)

(** C2 (no premature action).  In the trace of every reachable state, a
    call of [click()] on [b] is preceded by an entry of the
    IntersectionObserver callback for [b] with [isIntersecting] true; and a
    queued click timer for [b] exists only after such an entry. *)
Theorem C2_no_premature_action (s : State) (b : elem) :
  reachable s ->
  (∀ newer t older,
     log s = newer ++ (t, Clicked b) :: older -> ∃ t', (t', Crossing b) ∈ older)
  ∧ (0 < armed b s -> ∃ t', (t', Crossing b) ∈ log s).
Proof.
  intros Hr. destruct (crossInv_reachable s Hr) as [Hlog Htm]. split.
  - intros newer t older Heq. by eapply clicksAfterCrossing_split.
  - intros (tm & Hin & Hp)%count_pos. apply (Htm tm b Hin).
    unfold isClickTimer in Hp. destruct (task tm); try done.
    by apply bool_decide_eq_true in Hp as ->.
Qed.

Lemma C2_witness :
  ∃ t', (t', Crossing 0) ∈ drop 2 (log (stateAfter untilClick)).
Proof.
  destruct (C2_no_premature_action (stateAfter untilClick) 0 reachable_untilClick)
    as [H _].
  apply (H (take 1 (log (stateAfter untilClick))) 5300).
  by vm_compute.
Defined.

(** *** C3 *)

(** C3, as stated, fails: the scan of a page whose one button is a
    candidate leaves [processedButtons] without it, and two later scans
    admit the button a second time. *)
Lemma C3_counterexample :
  isCandidate (timeline 1) beforeFirstScan 0 = true
  ∧ ¬ (0 ∈ processedButtons (findNewButtons (timeline 1) beforeFirstScan).2)
  ∧ admissions 0 (log (stateAfter threeScans)) = 2
  ∧ ¬ (∀ pg s b, isCandidate pg s b = true ->
                 b ∈ processedButtons (findNewButtons pg s).2).
Proof.
  assert (¬ (0 ∈ processedButtons (findNewButtons (timeline 1) beforeFirstScan).2))
    as Hno by (apply (bool_decide_unpack _); by vm_compute).
  split_and!; [by vm_compute | done | by vm_compute |].
  intros Hall. apply Hno, Hall. by vm_compute.
Qed.

Lemma isValid_isCandidate pg s b :
  isValidShowMoreButton pg s b = true -> isCandidate pg s b = true.
Proof.
  intros Hv. unfold isCandidate. rewrite Hv.
  by rewrite (bool_decide_eq_false_2 _ (isValid_not_processed _ _ _ Hv)).
Qed.

Lemma isValid_processed pg s b :
  b ∈ processedButtons s -> isValidShowMoreButton pg s b = false.
Proof.
  intros H. unfold isValidShowMoreButton.
  rewrite (bool_decide_eq_true_2 _ H). by rewrite orb_true_r.
Qed.

Lemma processed_run tr s s' b :
  run tr s = Some s' -> b ∈ processedButtons s -> b ∈ processedButtons s'.
Proof.
  apply (run_invariant (λ x, b ∈ processedButtons x)).
  intros pg ev s0 s0'. apply processed_step.
Qed.

(** What the visibility callback does with a pending element: it takes it
    out of the pending set and calls [processButton]. *)
Lemma release_eq pg s b :
  b ∈ pendingButtons s ->
  onIntersections pg [(b, true)] s
  = processButton pg b
      (emit (Release b)
         (set_pendingButtons (JsSet.delete b (pendingButtons s))
            (emit (Crossing b) s))).
Proof.
  intros Hin. unfold onIntersections. simpl. unfold JsSet.has.
  by rewrite bool_decide_eq_true_2.
Qed.

(** The same run, with the button hidden when it is reported: it leaves
    the pending set unmarked, no click is queued, and the backup scan admits
    it a second time. *)
Example hidden_release_readmitted :
  run untilHiddenRelease (boot homeUrl) = Some (stateAfter untilHiddenRelease)
  ∧ run untilReadmission (boot homeUrl) = Some (stateAfter untilReadmission)
  ∧ pendingButtons (stateAfter untilHiddenRelease) = []
  ∧ processedButtons (stateAfter untilHiddenRelease) = ∅
  ∧ armed 0 (stateAfter untilHiddenRelease) = 0
  ∧ admissions 0 (log (stateAfter untilReadmission)) = 2.
Proof. split_and!; by vm_compute. Qed.

(** C3, amended.  A scan marks nothing: it leaves [processedButtons] as
    it was, so every element is a candidate after the scan exactly if it
    was one before.  The mark is set by [processButton], at dispatch:

    - on an element [b] that passes the validation, [processButton] puts
      [b] into [processedButtons] first and sets the click timer, if any, on
      the state that already has the mark; in every state of every later
      run [b] is still marked, no scan takes [b] as a candidate and
      [processButton] on [b] changes nothing;
    - on an element that fails the validation, [processButton] changes
      nothing: no mark, no timer;
    - so the visibility callback, for a pending [b], takes [b] out of the
      pending set in either case, and marks it exactly if it passes the
      validation then (or was marked already); when it fails, a later scan
      takes [b] as a candidate exactly as it would have before;
    - once [b] is marked in some state, it stays marked along every run
      from there, no scan admits it and no release dispatches it. *)
Theorem C3_mark_at_dispatch (pg : Page) (s : State) (b : elem) :
  processedButtons (findNewButtons pg s).2 = processedButtons s
  ∧ (∀ pg', isCandidate pg' (findNewButtons pg s).2 b = isCandidate pg' s b)
  ∧ (isValidShowMoreButton pg s b = true ->
     isCandidate pg (findNewButtons pg s).2 b = true
     ∧ (∃ marked, b ∈ processedButtons marked
                  ∧ timers marked = timers s
                  ∧ (processButton pg b s = marked
                     ∨ processButton pg b s
                       = setTimeout (Click b) CONFIG.clickDelay marked))
     ∧ ∀ tr s', run tr (processButton pg b s) = Some s' ->
                b ∈ processedButtons s'
                ∧ ∀ pg', isCandidate pg' s' b = false
                         ∧ processButton pg' b s' = s')
  ∧ (isValidShowMoreButton pg s b = false -> processButton pg b s = s)
  ∧ (b ∈ pendingButtons s ->
     ¬ (b ∈ pendingButtons (onIntersections pg [(b, true)] s))
     ∧ (b ∈ processedButtons (onIntersections pg [(b, true)] s)
        ↔ b ∈ processedButtons s ∨ isValidShowMoreButton pg s b = true)
     ∧ (isValidShowMoreButton pg s b = false ->
        timers (onIntersections pg [(b, true)] s) = timers s
        ∧ ∀ pg', isCandidate pg' (onIntersections pg [(b, true)] s) b
                 = isCandidate pg' s b))
  ∧ (b ∈ processedButtons s ->
     ∀ tr s', run tr s = Some s' ->
              b ∈ processedButtons s'
              ∧ ∀ pg', isCandidate pg' s' b = false
                       ∧ isValidShowMoreButton pg' s' b = false
                       ∧ processButton pg' b s' = s').
Proof.
  destruct (findNewButtons_frame pg s) as (Hp & _).
  assert (∀ x, b ∈ processedButtons x ->
               ∀ tr s', run tr x = Some s' ->
                        b ∈ processedButtons s'
                        ∧ ∀ pg', isCandidate pg' s' b = false
                                 ∧ isValidShowMoreButton pg' s' b = false
                                 ∧ processButton pg' b s' = s') as Hlater.
  { intros x Hx tr s' Hrun.
    pose proof (processed_run tr x s' b Hrun Hx) as Hs'.
    split; [done |]. intros pg'.
    split_and!; [by apply isCandidate_processed | by apply isValid_processed
                | by apply processButton_processed]. }
  split_and!.
  - done.
  - intros pg'. by apply isCandidate_frame.
  - intros Hv.
    assert (b ∈ processedButtons (processButton pg b s)) as Hin.
    { unfold processButton. rewrite Hv. simpl.
      destruct (findTweetContainer _); simpl;
        by apply elem_of_union_l, elem_of_singleton. }
    split_and!.
    + rewrite (isCandidate_frame pg s) by done. by apply isValid_isCandidate.
    + exists (set_processedButtons ({[b]} ∪ processedButtons s) s).
      split_and!; [by apply elem_of_union_l, elem_of_singleton | done |].
      unfold processButton. rewrite Hv. simpl.
      destruct (findTweetContainer _); auto.
    + intros tr s' Hrun. destruct (Hlater _ Hin tr s' Hrun) as [Hs' Hpg].
      split; [done |]. intros pg'. destruct (Hpg pg') as (? & _ & ?). done.
  - intros Hv. unfold processButton. by rewrite Hv.
  - intros Hpend. rewrite (release_eq pg s b Hpend).
    set (s2 := emit (Release b) _).
    assert (isValidShowMoreButton pg s2 b = isValidShowMoreButton pg s b) as Hv2
      by done.
    split_and!.
    + unfold processButton. rewrite Hv2.
      assert (¬ (b ∈ pendingButtons s2)) as Hgone.
      { subst s2. simpl. rewrite JsSet_delete_elem. by intros [? _]. }
      destruct (isValidShowMoreButton pg s b); simpl; [| done].
      by destruct (findTweetContainer _).
    + unfold processButton. rewrite Hv2.
      destruct (isValidShowMoreButton pg s b) eqn:Hv; simpl.
      * split; [by right |]. intros _.
        destruct (findTweetContainer _); simpl;
          by apply elem_of_union_l, elem_of_singleton.
      * subst s2. simpl. split; [by left | by intros [? | ?]].
    + intros Hv. unfold processButton. rewrite Hv2, Hv. simpl.
      split; [done |]. intros pg'. by apply isCandidate_frame.
  - apply Hlater.
Qed.

Lemma C3_witness :
  processedButtons (findNewButtons (timeline 1) beforeFirstScan).2
  = processedButtons beforeFirstScan
  ∧ isCandidate (timeline 1) (findNewButtons (timeline 1) beforeFirstScan).2 0 = true.
Proof.
  destruct (C3_mark_at_dispatch (timeline 1) beforeFirstScan 0)
    as (H1 & _ & H3 & _).
  split; [exact H1 |].
  assert (isValidShowMoreButton (timeline 1) beforeFirstScan 0 = true) as Hv
    by by vm_compute.
  by destruct (H3 Hv) as (H2 & _).
Defined.

(** *** C4 *)

Lemma observeEach_bound pg batch s :
  observes (final (observeEach pg batch s)) ≤ observes s + length batch.
Proof.
  revert s. induction batch as [|b rest IH]; intros s; simpl; [lia |].
  destruct (isConnected (element pg b)).
  - unfold observe. destruct (intersectionObserver s) as [targets|]; simpl; [| lia].
    etrans; [apply IH |]. unfold observes. simpl. lia.
  - etrans; [apply IH |]. lia.
Qed.

Lemma processFunction_bound pg batch s :
  observes (settle (processFunction pg batch s)) ≤ observes s + length batch.
Proof.
  unfold processFunction. pose proof (observeEach_bound pg batch s) as H.
  by destruct (observeEach pg batch s).
Qed.

(** C4 (batch bound).  A scan counts all candidates among the matches,
    however many.  One call of [processPendingButtons] queues at most one
    idle request, whose batch is the first five pending buttons; its idle
    callback calls [observe] at most five times; the buttons beyond the
    batch are dropped from the pending set.  No button is put into
    [processedButtons] by the call or by the scan around it, so every
    candidate of a scan, admitted or not, is a candidate of the next scan
    of the same page. *)
Theorem C4_batch_bound (pg : Page) (s : State) :
  (findNewButtons pg s).1 = count (isCandidate pg s) (querySelectorAll pg)
  ∧ (∀ req, req ∈ idleCallbacks (processPendingButtons s) ->
          req ∈ idleCallbacks s
          ∨ (buttons req = take 5 (pendingButtons s) ∧ length (buttons req) ≤ 5
             ∧ ∀ pg1 s1, observes (settle (processFunction pg1 (buttons req) s1))
                         ≤ observes s1 + 5))
  ∧ pendingButtons (processPendingButtons s)
    = (if isProcessing s then pendingButtons s else [])
  ∧ processedButtons (processPendingButtons s) = processedButtons s
  ∧ processedButtons (findNewButtons pg s).2 = processedButtons s
  ∧ (∀ b, isCandidate pg s b = true ->
          isCandidate pg (findNewButtons pg s).2 b = true).
Proof.
  split_and!.
  - rewrite findNewButtons_eq. simpl. rewrite scanLoop_count. simpl.
    clear. induction (querySelectorAll pg) as [|x l IH]; simpl; [done |].
    by rewrite IH, (isCandidate_frame pg s).
  - unfold processPendingButtons, CONFIG.maxProcessPerBatch.
    destruct (isProcessing s); [by left |]. simpl.
    intros req [Hin | Hin]%elem_of_app; [by left |].
    apply list_elem_of_singleton in Hin as ->. right. simpl.
    assert (length (take 5 (pendingButtons s)) ≤ 5) as Hlen
      by (rewrite length_take; lia).
    split_and!; [done | done |].
    intros pg1 s1. etrans; [apply processFunction_bound |]. lia.
  - unfold processPendingButtons. by destruct (isProcessing s).
  - apply processPendingButtons_frame.
  - apply findNewButtons_frame.
  - intros b Hc. rewrite (isCandidate_frame pg s); [done |].
    apply findNewButtons_frame.
Qed.

(** Seven candidates: the scan counts seven, the batch is the first five,
    the pending set ends empty, and the next scan counts seven again. *)
Lemma C4_witness :
  (findNewButtons (timeline 7) beforeFirstScan).1 = 7
  ∧ idleCallbacks (findNewButtons (timeline 7) beforeFirstScan).2
    = [{| buttons := [0; 1; 2; 3; 4]; deadline := 2000 |}]
  ∧ isCandidate (timeline 7) (findNewButtons (timeline 7) beforeFirstScan).2 6 = true.
Proof.
  destruct (C4_batch_bound (timeline 7) beforeFirstScan) as (_ & _ & _ & _ & _ & H).
  split_and!; [by vm_compute | by vm_compute |].
  apply H. by vm_compute.
Defined.

(** *** C5 *)

(** C5, as stated, fails: button 0, pending and subscribed, crosses into
    view and is released, and is still an observation target afterwards;
    and when it is detached instead, the backup scan drops it from the
    pending set and leaves it an observation target. *)
Lemma C5_counterexample :
  JsSet.has 0 (pendingButtons atGate) = true
  ∧ isObserved 0 atGate = true
  ∧ (5000, Release 0) ∈ log (onIntersections (timeline 1) [(0, true)] atGate)
  ∧ isObserved 0 (onIntersections (timeline 1) [(0, true)] atGate) = true
  ∧ pendingButtons (backupTask detachedPage atGate) = []
  ∧ isObserved 0 (backupTask detachedPage atGate) = true
  ∧ ¬ (∀ pg target s,
         target ∈ pendingButtons s ->
         isObserved target (onIntersections pg [(target, true)] s) = false).
Proof.
  assert (0 ∈ pendingButtons atGate) as Hin
    by (apply (bool_decide_unpack _); by vm_compute).
  split_and!; [by vm_compute | by vm_compute | | by vm_compute | by vm_compute
               | by vm_compute |].
  - apply (bool_decide_unpack _). by vm_compute.
  - intros Hall. specialize (Hall (timeline 1) 0 atGate Hin).
    by vm_compute in Hall.
Qed.

Lemma processButton_frame pg b s :
  pendingButtons (processButton pg b s) = pendingButtons s
  ∧ intersectionObserver (processButton pg b s) = intersectionObserver s
  ∧ log (processButton pg b s) = log s.
Proof.
  unfold processButton. destruct (isValidShowMoreButton pg s b); [| done]. simpl.
  by destruct (findTweetContainer _).
Qed.

Lemma onEntry_observer pg s entry :
  intersectionObserver (onEntry pg s entry) = intersectionObserver s.
Proof.
  destruct entry as [target [|]]; simpl; [| done].
  destruct (JsSet.has target (pendingButtons s)); [| done].
  by destruct (processButton_frame pg target
                 (emit (Release target)
                    (set_pendingButtons (JsSet.delete target (pendingButtons s))
                       (emit (Crossing target) s)))) as (_ & -> & _).
Qed.

Lemma onIntersections_observer pg entries s :
  intersectionObserver (onIntersections pg entries s) = intersectionObserver s.
Proof.
  unfold onIntersections. revert s.
  induction entries as [|entry rest IH]; intros s; simpl; [done |].
  by rewrite IH, onEntry_observer.
Qed.

(** C5, amended.  When the callback of the IntersectionObserver gets an
    intersecting entry for a member [target] of the pending set, it takes
    [target] out of the pending set and calls [processButton] on it; it does
    not unsubscribe.  The observation targets are the same after any run of
    the callback and after the backup closure; [cleanup] empties them. *)
Theorem C5_release_keeps_subscription (pg : Page) (target : elem) (s : State) :
  target ∈ pendingButtons s ->
  onIntersections pg [(target, true)] s
  = processButton pg target
      (emit (Release target)
         (set_pendingButtons (JsSet.delete target (pendingButtons s))
            (emit (Crossing target) s)))
  ∧ ¬ (target ∈ pendingButtons (onIntersections pg [(target, true)] s))
  ∧ (∀ entries,
       intersectionObserver (onIntersections pg entries s) = intersectionObserver s)
  ∧ intersectionObserver (backupTask pg s) = intersectionObserver s
  ∧ intersectionObserver (cleanup s) = const ∅ <$> intersectionObserver s.
Proof.
  intros Hin.
  assert (onIntersections pg [(target, true)] s
          = processButton pg target
              (emit (Release target)
                 (set_pendingButtons (JsSet.delete target (pendingButtons s))
                    (emit (Crossing target) s)))) as Heq.
  { unfold onIntersections. cbn [foldl]. unfold onEntry. cbn [andb].
    change (pendingButtons (emit (Crossing target) s)) with (pendingButtons s).
    unfold JsSet.has. by rewrite (bool_decide_eq_true_2 _ Hin). }
  split_and!.
  - done.
  - rewrite Heq. destruct (processButton_frame pg target
                   (emit (Release target)
                      (set_pendingButtons (JsSet.delete target (pendingButtons s))
                         (emit (Crossing target) s)))) as (-> & _).
    simpl. rewrite JsSet_delete_elem. by intros [? _].
  - intros entries. apply onIntersections_observer.
  - unfold backupTask.
    by destruct (findNewButtons_frame pg
                   (set_pendingButtons
                      (filter (λ b, isConnected (element pg b) = true)
                         (pendingButtons s)) s)) as (_ & -> & _).
  - by rewrite cleanup_eq, clearTimeout_eq.
Qed.

Lemma C5_witness :
  ¬ (0 ∈ pendingButtons (onIntersections (timeline 1) [(0, true)] atGate))
  ∧ intersectionObserver (onIntersections (timeline 1) [(0, true)] atGate)
    = intersectionObserver atGate.
Proof.
  destruct (C5_release_keeps_subscription (timeline 1) 0 atGate) as (_ & H1 & H2 & _).
  - apply (bool_decide_unpack _). by vm_compute.
  - split; [exact H1 | apply H2].
Defined.

(** *** C7 *)

(** C7 (dispatch).  [processButton] queues the click 300 ms ahead.  The
    queued closure always completes normally: on an element that is
    disconnected or disabled it changes nothing; otherwise it calls
    [click()], and records the click and its log line, or, when the call
    throws, the error line only.  It leaves the timer queue, the idle
    queue, the pending set and [processedButtons] as they are. *)
Theorem C7_dispatch_revalidates (pg : Page) (b : elem) (s : State) :
  (isValidShowMoreButton pg s b = true ->
   findTweetContainer (element pg b) ≠ None ->
   timers (processButton pg b s)
   = timers s ++ [{| tid := nextTimerId s; due := now s + 300;
                     task := Click b; period := None |}])
  ∧ ∃ s', clickTask pg b s = Normal s'
          ∧ timers s' = timers s
          ∧ idleCallbacks s' = idleCallbacks s
          ∧ pendingButtons s' = pendingButtons s
          ∧ processedButtons s' = processedButtons s
          ∧ (if isConnected (element pg b) && negb (disabled (element pg b))
             then if click_raises (element pg b)
                  then log s' = (now s, ConsoleError MsgClickError) :: log s
                  else log s' = (now s, ConsoleLog MsgExpanded)
                                  :: (now s, Clicked b) :: log s
             else s' = s).
Proof.
  split.
  - intros Hv Hc. unfold processButton. rewrite Hv. simpl.
    by destruct (findTweetContainer (element pg b)).
  - unfold clickTask, click.
    destruct (isConnected (element pg b) && negb (disabled (element pg b)));
      simpl; [| by exists s].
    destruct (click_raises (element pg b)); simpl; eexists; by split_and!.
Qed.

Lemma C7_witness :
  timers (processButton (timeline 1) 0 atGate)
  = timers atGate ++ [{| tid := nextTimerId atGate; due := now atGate + 300;
                         task := Click 0; period := None |}]
  ∧ ∃ s', clickTask throwingPage 0 atGate = Normal s'
          ∧ log s' = (now atGate, ConsoleError MsgClickError) :: log atGate.
Proof.
  destruct (C7_dispatch_revalidates (timeline 1) 0 atGate) as [H1 _].
  destruct (C7_dispatch_revalidates throwingPage 0 atGate)
    as [_ (s' & H2 & _ & _ & _ & _ & H3)].
  split; [apply H1; by vm_compute |].
  exists s'. split; [exact H2 | exact H3].
Defined.

(** *** C6 *)

Lemma reachableOnTime_timely s : reachableOnTime s -> timely s.
Proof. intros (href & tr & Hrun). eapply timely_run; [done | apply timely_boot]. Qed.

Lemma signal_step pg mutations s s' :
  shouldProcess mutations = true ->
  step pg (EvMutations mutations) s = Some s' -> s' = debouncedExpand s.
Proof. intros Hs Hstep. apply step_cases in Hstep as [_ ->]. by rewrite Hs. Qed.

Lemma runOnTime_cons pg ev rest s s' :
  runOnTime ((pg, ev) :: rest) s = Some s' ->
  onTime ev s = true ∧ ∃ s1, step pg ev s = Some s1 ∧ runOnTime rest s1 = Some s'.
Proof.
  simpl. destruct (onTime ev s); [| done].
  destruct (step pg ev s) as [s1|]; [| done]. eauto.
Qed.

Lemma early_burst early s s' :
  timely s -> forallb isShortGap early = true ->
  runOnTime (burstTrace early) s = Some s' ->
  timely s' ∧ now s' = now s + burstElapsed early
  ∧ rescans (log s') = rescans (log s).
Proof.
  revert s. induction early as [|[[pg mutations] seg] rest IH]; intros s HI Hall Hrun.
  - simpl in *. injection Hrun as <-. split_and!; [done | lia | done].
  - simpl in Hall. cbn [burstTrace] in Hrun.
    apply andb_true_iff in Hall as [Hgap Hall]. unfold isShortGap in Hgap. simpl in Hgap.
    apply andb_true_iff in Hgap as [[Hs Hq]%andb_true_iff Hlt]. apply Nat.ltb_lt in Hlt.
    apply runOnTime_cons in Hrun as (Hon & s1 & Hstep & Hrun).
    pose proof (timely_step _ _ _ _ Hon Hstep HI) as HI1.
    apply signal_step in Hstep; [| done]. subst s1.
    destruct HI as (HD & _ & _).
    destruct (signal_effect s HD) as (Hdues & Hres & Hnow).
    apply runOnTime_app in Hrun as (s2 & Hseg & Hrest).
    pose proof (timely_run _ _ _ Hseg HI1) as HI2.
    destruct (quiet_segment _ _ _ Hq HI1 Hseg) as [Hnow2 Hcase].
    destruct (IH s2 HI2 Hall Hrest) as (HI' & Hnow' & Hres').
    split_and!; [done | simpl; lia |].
    destruct Hcase as [[_ E2] | (d & Hd & Hle & _)].
    + congruence.
    + rewrite Hdues in Hd. injection Hd as <-. lia.
Qed.

(** The same without the assumption that timers fire on time: a queued
    rescan stays queued or runs once, not before it is due. *)
Lemma quiet_segment_late seg s s' :
  forallb (λ x, quiet x.2) seg = true -> debounceInv s -> idsInv s ->
  run seg s = Some s' ->
  now s' = now s + elapsed seg
  ∧ ((debounceDues (timers s') = debounceDues (timers s)
      ∧ rescans (log s') = rescans (log s))
     ∨ (∃ d t, debounceDues (timers s) = [d] ∧ d ≤ t ∧ t ≤ now s'
               ∧ debounceDues (timers s') = []
               ∧ rescans (log s') = t :: rescans (log s))).
Proof.
  revert s. induction seg as [|[pg ev] rest IH]; intros s Hq HD HN Hrun; simpl in *.
  - injection Hrun as <-. split; [lia | by left].
  - apply andb_true_iff in Hq as [Hq Hqs].
    destruct (step pg ev s) as [s1|] eqn:Hstep; [| done].
    pose proof (debounceInv_step _ _ _ _ Hstep HD) as HD1.
    pose proof (idsInv_step _ _ _ _ Hstep HN) as HN1.
    destruct (quiet_step _ _ _ _ Hq HD HN Hstep) as [Hnow Hcase].
    destruct (IH s1 Hqs HD1 HN1 Hrun) as [Hnow' Hcase'].
    split; [lia |].
    destruct Hcase as [[E1 E2] | (d & Hd & Hle & E1 & E2)].
    + rewrite <- E1, <- E2.
      destruct Hcase' as [? | (d & t & ? & ? & ? & ? & ?)]; [by left |].
      right. by exists d, t.
    + right. exists d, (now s). rewrite E1 in Hcase'.
      destruct Hcase' as [[-> ->] | (d' & t' & ? & _)]; [| done].
      split_and!; try done. lia.
Qed.

Lemma run_app tr1 tr2 s s' :
  run (tr1 ++ tr2) s = Some s' ->
  ∃ s1, run tr1 s = Some s1 ∧ run tr2 s1 = Some s'.
Proof.
  revert s. induction tr1 as [|[pg ev] rest IH]; intros s Hrun; simpl in *.
  - by exists s.
  - destruct (step pg ev s); [| done]. auto.
Qed.

Lemma early_burst_late early s s' :
  debounceInv s -> idsInv s -> forallb isShortGap early = true ->
  run (burstTrace early) s = Some s' ->
  debounceInv s' ∧ idsInv s' ∧ now s' = now s + burstElapsed early
  ∧ rescans (log s') = rescans (log s).
Proof.
  revert s. induction early as [|[[pg mutations] seg] rest IH];
    intros s HD HN Hall Hrun.
  - simpl in *. injection Hrun as <-. split_and!; [done | done | lia | done].
  - simpl in Hall. cbn [burstTrace run] in Hrun.
    apply andb_true_iff in Hall as [Hgap Hall]. unfold isShortGap in Hgap. simpl in Hgap.
    apply andb_true_iff in Hgap as [[Hs Hq]%andb_true_iff Hlt]. apply Nat.ltb_lt in Hlt.
    destruct (step pg (EvMutations mutations) s) as [s1|] eqn:Hstep; [| done].
    pose proof (debounceInv_step _ _ _ _ Hstep HD) as HD1.
    pose proof (idsInv_step _ _ _ _ Hstep HN) as HN1.
    apply signal_step in Hstep; [| done]. subst s1.
    destruct (signal_effect s HD) as (Hdues & Hres & Hnow).
    apply run_app in Hrun as (s2 & Hseg & Hrest).
    destruct (quiet_segment_late _ _ _ Hq HD1 HN1 Hseg) as [Hnow2 Hcase].
    assert (debounceInv s2 ∧ idsInv s2) as [HD2 HN2].
    { split; (eapply run_invariant; [| exact Hseg | done]);
        [apply debounceInv_step | apply idsInv_step]. }
    destruct (IH s2 HD2 HN2 Hall Hrest) as (HD' & HN' & Hnow' & Hres').
    split_and!; [done | done | simpl; lia |].
    destruct Hcase as [[_ E2] | (d & t & Hd & Hle & Hle' & _)].
    + congruence.
    + rewrite Hdues in Hd. injection Hd as <-. lia.
Qed.

(** When timers may fire late, a burst still gives at most one debounced
    rescan, and none before the quiet period after the last notification
    is over. *)
Lemma debounce_late_timers (s0 s : State)
  (early : list (Page * list MutationRecord * list (Page * Event)))
  (pgN : Page) (lastMutations : list MutationRecord) (tail : list (Page * Event)) :
  reachable s0 ->
  forallb isShortGap early = true ->
  shouldProcess lastMutations = true ->
  forallb (λ y, quiet y.2) tail = true ->
  run (burstTrace early ++ (pgN, EvMutations lastMutations) :: tail) s0 = Some s ->
  rescans (log s) = rescans (log s0)
  ∨ ∃ t, now s0 + burstElapsed early + CONFIG.debounceDelay ≤ t
         ∧ rescans (log s) = t :: rescans (log s0).
Proof.
  intros Hr Hearly Hsig Hq Hrun.
  pose proof (debounceInv_reachable s0 Hr) as HD.
  pose proof (idsInv_reachable s0 Hr) as HN.
  apply run_app in Hrun as (s1 & Hrun1 & Hrun2).
  destruct (early_burst_late _ _ _ HD HN Hearly Hrun1) as (HD1 & HN1 & Hnow1 & Hres1).
  cbn [run] in Hrun2.
  destruct (step pgN (EvMutations lastMutations) s1) as [s2|] eqn:Hstep; [| done].
  pose proof (debounceInv_step _ _ _ _ Hstep HD1) as HD2.
  pose proof (idsInv_step _ _ _ _ Hstep HN1) as HN2.
  apply signal_step in Hstep; [| done]. subst s2.
  destruct (signal_effect s1 HD1) as (Hdues & Hres & Hnow).
  destruct (quiet_segment_late _ _ _ Hq HD2 HN2 Hrun2) as [_ Hcase].
  destruct Hcase as [[_ E2] | (d & t & Hd & Hle & _ & _ & E2)].
  - left. congruence.
  - right. exists t. rewrite Hdues in Hd. injection Hd as <-.
    split; [lia | congruence].
Qed.

(** C6 (debounce coalescing).  Take a state of a run in which timers fire
    on time, and from it a burst of relevant change notifications, each
    followed by less than the quiet period of 200 ms without teardown, the
    last one followed by more than the quiet period.  Then exactly one
    debounced rescan runs during the burst, 200 ms after the last
    notification.  In every reachable state at most one debounced rescan is
    queued, and [debouncedExpand] leaves exactly one, due 200 ms later. *)
Theorem C6_debounce_coalescing (s0 s : State)
  (early : list (Page * list MutationRecord * list (Page * Event)))
  (pgN : Page) (lastMutations : list MutationRecord) (tail : list (Page * Event)) :
  reachableOnTime s0 ->
  forallb isShortGap early = true ->
  shouldProcess lastMutations = true ->
  forallb (λ y, quiet y.2) tail = true ->
  CONFIG.debounceDelay < elapsed tail ->
  runOnTime (burstTrace early ++ (pgN, EvMutations lastMutations) :: tail) s0
  = Some s ->
  rescans (log s)
  = (now s0 + burstElapsed early + CONFIG.debounceDelay) :: rescans (log s0)
  ∧ ∀ s', reachable s' ->
          outstanding s' ≤ 1
          ∧ outstanding (debouncedExpand s') = 1
          ∧ debounceDues (timers (debouncedExpand s')) = [now s' + 200].
Proof.
  intros Hr Hearly Hsig Hq Hlong Hrun. split.
  - apply reachableOnTime_timely in Hr.
    apply runOnTime_app in Hrun as (s1 & Hrun1 & Hrun2).
    destruct (early_burst _ _ _ Hr Hearly Hrun1) as (HI1 & Hnow1 & Hres1).
    apply runOnTime_cons in Hrun2 as (Hon & s2 & Hstep & Hrun2).
    pose proof (timely_step _ _ _ _ Hon Hstep HI1) as HI2.
    apply signal_step in Hstep; [| done]. subst s2.
    destruct HI1 as (HD & _ & _).
    destruct (signal_effect s1 HD) as (Hdues & Hres & Hnow).
    pose proof (timely_run _ _ _ Hrun2 HI2) as (_ & _ & HP).
    destruct (quiet_segment _ _ _ Hq HI2 Hrun2) as [Hnow2 Hcase].
    destruct Hcase as [[E1 _] | (d & Hd & _ & _ & E2)].
    + assert (now s ≤ now s1 + CONFIG.debounceDelay); [| lia].
      apply punctual_dues; [done |]. rewrite E1, Hdues. left.
    + rewrite Hdues in Hd. injection Hd as <-. rewrite E2, Hres, Hres1, Hnow1. done.
  - intros s' Hr'. pose proof (debounceInv_reachable s' Hr') as HD.
    destruct (signal_effect s' HD) as (Hdues & _).
    split_and!; [by destruct HD as (_ & _ & ?) | | done].
    unfold outstanding. by rewrite <- debounceDues_length, Hdues.
Qed.

(** Notifications at 0, 100 and 250 ms after the script started; the
    rescan of the last one runs at 450 ms. *)
Lemma C6_witness :
  rescans
    (log (stateAfter
            (at_ (timeline 1)
               [EvReady; EvMutations tweetInserted; EvTick 100;
                EvMutations tweetInserted; EvTick 150;
                EvMutations tweetInserted; EvTick 200; EvTimer 5; EvTick 100])))
  = [450].
Proof.
  set (pg := timeline 1).
  apply (C6_debounce_coalescing (stateAfter (at_ pg [EvReady])) _
           [(pg, tweetInserted, at_ pg [EvTick 100]);
            (pg, tweetInserted, at_ pg [EvTick 150])]
           pg tweetInserted (at_ pg [EvTick 200; EvTimer 5; EvTick 100])).
  - exists homeUrl, (at_ pg [EvReady]). by vm_compute.
  - by vm_compute.
  - by vm_compute.
  - by vm_compute.
  - vm_compute. lia.
  - by vm_compute.
Defined.

(** *** C8 *)

Lemma startedInv_frame s s' :
  started s' = started s -> observer s' = observer s ->
  (is_Some (intersectionObserver s) -> is_Some (intersectionObserver s')) ->
  startedInv s -> startedInv s'.
Proof.
  intros Hs Ho Hio HI Hst. rewrite Hs in Hst. destruct (HI Hst) as [? ?].
  rewrite Ho. auto.
Qed.

Lemma startedInv_micro pg s s' : micro pg s s' -> startedInv s -> startedInv s'.
Proof.
  intros Hm.
  destruct Hm as [o s Ho|b0 s _|s Hp|b0 targets s _|k s|s|b0 s _|b0 s Hc|s|s _|s];
    try (apply startedInv_frame; simpl; by auto).
  - unfold processPendingButtons. rewrite Hp. apply startedInv_frame; simpl; by auto.
  - unfold processButton. destruct (isValidShowMoreButton pg s b0); [| done]. simpl.
    destruct (findTweetContainer _); apply startedInv_frame; simpl; by auto.
  - intros _ _. rewrite initialize_eq. simpl. by split.
  - unfold handleNavigation. destruct (negb _); [| done].
    apply startedInv_frame; simpl; by auto.
Qed.

Lemma startedInv_step pg ev s s' :
  step pg ev s = Some s' -> startedInv s -> startedInv s'.
Proof.
  apply Inv_step with (tickOk := λ _ _, True).
  - apply startedInv_micro.
  - done.
  - intros s0. unfold debouncedExpand. rewrite !clearTimeout_eq.
    apply startedInv_frame; simpl; by auto.
  - intros s0 HI Hst. rewrite cleanup_eq, clearTimeout_eq in *. simpl in *.
    destruct (HI Hst) as [[? ->] [? ->]]. by split.
  - intros tm s0 _ _ _. apply startedInv_frame; simpl; by auto.
  - intros pg0 tm b s0 _ _ Htask. unfold fireTimer. rewrite Htask. simpl.
    destruct (clickTask_cases pg0 b (fireStart tm s0)) as [-> | [-> | ->]]; simpl;
      apply startedInv_frame; simpl; by auto.
  - done.
Qed.

Lemma handleInv_frame s s' :
  idsInv s' -> debounceTimer s' = debounceTimer s ->
  nextTimerId s ≤ nextTimerId s' ->
  (∀ tm, tm ∈ timers s' ->
         nextTimerId s ≤ tid tm ∨ ∃ tm0, tm0 ∈ timers s ∧ tid tm0 = tid tm
                                         ∧ task tm0 = task tm) ->
  handleInv s -> handleInv s'.
Proof.
  intros HN Hd Hn Ht [_ HI]. split; [done |]. intros i Hi. rewrite Hd in Hi.
  destruct (HI i Hi) as [Hlt Htask]. split; [lia |].
  intros tm Hin Hid. destruct (Ht tm Hin) as [? | (tm0 & Hin0 & Hid0 & <-)]; [lia |].
  apply Htask; [done | congruence].
Qed.

Lemma handleInv_micro pg s s' : micro pg s s' -> handleInv s -> handleInv s'.
Proof.
  intros Hm HI. pose proof (idsInv_micro pg s s' Hm (proj1 HI)) as HN. revert HI.
  destruct Hm as [o s Ho|b0 s _|s Hp|b0 targets s _|k s|s|b0 s _|b0 s Hc|s|s _|s];
    try (apply handleInv_frame; simpl; by eauto 8).
  - revert HN. unfold processPendingButtons. rewrite Hp. intros HN.
    apply handleInv_frame; simpl; by eauto 8.
  - revert HN. unfold processButton.
    destruct (isValidShowMoreButton pg s b0); [| done]. simpl.
    destruct (findTweetContainer _); intros HN;
      apply handleInv_frame; simpl; eauto 8.
    intros tm [Hin | Hin]%elem_of_app; [by eauto 8 |].
    apply list_elem_of_singleton in Hin as ->. by left.
  - revert HN. rewrite initialize_eq. intros HN.
    apply handleInv_frame; simpl; eauto 8.
    intros tm Hin. rewrite <- app_assoc in Hin.
    apply elem_of_app in Hin as [Hin | Hin]; [by eauto 8 |]. left.
    apply elem_of_cons in Hin as [-> | Hin]; [simpl; lia |].
    apply list_elem_of_singleton in Hin as ->. simpl. lia.
  - revert HN. unfold handleNavigation. destruct (negb _); [| done]. intros HN.
    apply handleInv_frame; simpl; eauto 8.
    intros tm [Hin | Hin]%elem_of_app; [by eauto 8 |].
    apply list_elem_of_singleton in Hin as ->. by left.
Qed.

Lemma handleInv_signal s : handleInv s -> handleInv (debouncedExpand s).
Proof.
  intros [HN HI]. split; [by apply idsInv_signal |].
  unfold debouncedExpand. rewrite !clearTimeout_eq. simpl.
  intros i [= <-]. split; [lia |].
  intros tm [Hin | Hin]%elem_of_app Hid.
  - destruct HN as [_ Hlt].
    assert (tm ∈ timers s) as Hin'.
    { destruct (debounceTimer s); [| done].
      by apply list_elem_of_filter in Hin as [_ ?]. }
    specialize (Hlt tm Hin'). lia.
  - by apply list_elem_of_singleton in Hin as ->.
Qed.

Lemma handleInv_cleanup s : handleInv s -> handleInv (cleanup s).
Proof.
  intros HI. pose proof (idsInv_cleanup s (proj1 HI)) as HN. revert HI.
  revert HN. rewrite cleanup_eq, clearTimeout_eq. intros HN.
  apply handleInv_frame; simpl; eauto.
  intros tm Hin. right. exists tm. split; [| done].
  destruct (debounceTimer s); [| done]. by apply list_elem_of_filter in Hin as [_ ?].
Qed.

Lemma handleInv_fireStart tm s :
  tm ∈ timers s -> handleInv s -> handleInv (fireStart tm s).
Proof.
  intros Hin HI. pose proof (idsInv_fireStart tm s Hin (proj1 HI)) as HN. revert HI.
  apply handleInv_frame; simpl; eauto.
  intros tm' Hin'. right. unfold rearm in Hin'. destruct (period tm).
  - apply elem_of_app in Hin' as [[_ ?]%list_elem_of_filter | Heq%list_elem_of_singleton];
      [by eauto | subst tm'; by eauto].
  - apply list_elem_of_filter in Hin' as [_ ?]. by eauto.
Qed.

Lemma handleInv_click pg tm b s :
  tm ∈ timers s -> task tm = Click b -> handleInv s -> handleInv (fireTimer pg tm s).
Proof.
  intros Hin Htask HI. apply (handleInv_fireStart tm s Hin) in HI.
  pose proof (proj1 HI) as HN.
  unfold fireTimer. rewrite Htask. simpl.
  destruct (clickTask_cases pg b (fireStart tm s)) as [-> | [-> | ->]]; simpl;
    [done | |]; revert HI; apply handleInv_frame; simpl; eauto;
    by apply (idsInv_same (fireStart tm s)).
Qed.

Lemma handleInv_step pg ev s s' :
  step pg ev s = Some s' -> handleInv s -> handleInv s'.
Proof.
  apply Inv_step with (tickOk := λ _ _, True).
  - apply handleInv_micro.
  - intros dt s0 _ HI. pose proof (proj1 HI) as HN. revert HI.
    apply handleInv_frame; simpl; eauto.
  - apply handleInv_signal.
  - apply handleInv_cleanup.
  - intros; by apply handleInv_fireStart.
  - intros; by eapply handleInv_click.
  - done.
Qed.

Lemma handleInv_reachable s : reachable s -> handleInv s.
Proof.
  apply reachable_invariant; [| apply handleInv_step].
  intros href. split; [apply idsInv_boot | done].
Qed.

Lemma startedInv_reachable s : reachable s -> startedInv s.
Proof. apply reachable_invariant; [done | apply startedInv_step]. Qed.

(** C8, as stated, fails: after [cleanup] the click queued before it
    still runs, the backup interval still scans, its idle callback
    subscribes a new button at the IntersectionObserver again, and the
    navigation observer is still connected. *)
Lemma C8_counterexample :
  ∃ s', run afterTeardown tornDown = Some s'
        ∧ clicks 0 tornDown = 0 ∧ clicks 0 s' = 1
        ∧ scans tornDown = 2 ∧ scans s' = 3
        ∧ isObserved 1 tornDown = false ∧ isObserved 1 s' = true
        ∧ navObserver s' = true
        ∧ tornDown = cleanup (stateAfter untilRelease)
        ∧ ¬ (∀ s tr s1,
               reachable s -> started s = true ->
               run tr (cleanup s) = Some s1 ->
               scans s1 = scans (cleanup s) ∧ clicks 0 s1 = clicks 0 (cleanup s)).
Proof.
  exists (default tornDown (run afterTeardown tornDown)).
  split_and!; [by vm_compute.. |].
  intros Hall.
  destruct (Hall (stateAfter untilRelease) afterTeardown
              (default tornDown (run afterTeardown tornDown))
              reachable_untilRelease) as [Hscans _]; [by vm_compute.. |].
  by vm_compute in Hscans.
Qed.

Lemma micro_lifecycle pg s s' :
  micro pg s s' -> started s = true ->
  started s' = true ∧ observer s' = observer s.
Proof.
  intros Hm Hst.
  destruct Hm as [o s Ho|b0 s _|s Hp|b0 targets s _|k s|s|b0 s _|b0 s Hc|s|s Hno|s];
    try done.
  - unfold processPendingButtons. by rewrite Hp.
  - unfold processButton. destruct (isValidShowMoreButton pg s b0); [| done]. simpl.
    by destruct (findTweetContainer _).
  - congruence.
  - unfold handleNavigation. by destruct (negb _).
Qed.

Lemma micros_lifecycle pg s s' :
  micros pg s s' -> started s = true ->
  started s' = true ∧ observer s' = observer s.
Proof.
  induction 1 as [|s1 s2 s3 H12 _ IH]; [done |]. intros Hst.
  destruct (micro_lifecycle _ _ _ H12 Hst) as [Hst2 <-]. auto.
Qed.

Lemma torn_step pg ev s s' :
  torn s -> step pg ev s = Some s' ->
  torn s' ∧ rescans (log s') = rescans (log s).
Proof.
  intros (Hst & Ho & HD & HN & Hz) Hstep.
  assert (debounceDues (timers s) = []) as Hdues.
  { apply length_zero_iff_nil. by rewrite debounceDues_length. }
  assert (quiet ev = true ->
          outstanding s' = 0 ∧ rescans (log s') = rescans (log s)) as Hquiet.
  { intros Hq.
    destruct (quiet_step _ _ _ _ Hq HD HN Hstep) as [_ [[E1 E2] | (d & Hd & _)]];
      [| congruence].
    split; [| done]. unfold outstanding.
    by rewrite <- debounceDues_length, E1, Hdues. }
  pose proof (debounceInv_step _ _ _ _ Hstep HD) as HD'.
  pose proof (idsInv_step _ _ _ _ Hstep HN) as HN'.
  unfold torn.
  destruct ev as [|mutations| |i|k|entries| |dt].
  - simpl in Hstep. by rewrite Hst in Hstep.
  - simpl in Hstep. by rewrite Ho in Hstep.
  - destruct (Hquiet eq_refl) as [? ?]. apply step_cases in Hstep.
    destruct (micros_lifecycle _ _ _ Hstep Hst) as [? ->]. by split_and!.
  - destruct (Hquiet eq_refl) as [? ?]. apply step_cases in Hstep.
    destruct Hstep as (tm & _ & _ & _ & Hrest).
    assert (started s' = true ∧ observer s' = observer s) as [? ->]; [| by split_and!].
    destruct (task tm) as [| | |b|] eqn:Htask;
      try (by apply (micros_lifecycle _ _ _ Hrest)).
    subst s'. unfold fireTimer. rewrite Htask. simpl.
    by destruct (clickTask_cases pg b (fireStart tm s)) as [-> | [-> | ->]].
  - destruct (Hquiet eq_refl) as [? ?]. apply step_cases in Hstep.
    destruct (micros_lifecycle _ _ _ Hstep Hst) as [? ->]. by split_and!.
  - destruct (Hquiet eq_refl) as [? ?]. apply step_cases in Hstep.
    destruct (micros_lifecycle _ _ _ Hstep Hst) as [? ->]. by split_and!.
  - apply step_cases in Hstep. subst s'.
    rewrite cleanup_eq, clearTimeout_eq in *. simpl. rewrite Ho.
    split_and!; try done.
    pose proof (count_filter_le isDebounce) as Hle. unfold outstanding in *. simpl.
    destruct (debounceTimer s) as [i|]; [| done].
    specialize (Hle (λ tm, tid tm ≠ i) _ (timers s)). lia.
  - destruct (Hquiet eq_refl) as [? ?]. apply step_cases in Hstep. subst s'.
    by split_and!.
Qed.

Lemma torn_run tr s s' :
  torn s -> run tr s = Some s' -> torn s' ∧ rescans (log s') = rescans (log s).
Proof.
  revert s. induction tr as [|[pg ev] rest IH]; intros s HT Hrun; simpl in *.
  - by injection Hrun as <-.
  - destruct (step pg ev s) as [s1|] eqn:Hstep; [| done].
    destruct (torn_step _ _ _ _ HT Hstep) as [HT1 <-]. by apply IH.
Qed.

(** C8, amended.  [cleanup] of a pipeline that was initialized disconnects
    the MutationObserver, empties the observation targets of the
    IntersectionObserver and cancels the queued debounced rescan; it keeps
    the navigation observer, the idle queue and every other timer.  From
    then on the MutationObserver stays disconnected, so its callback cannot
    run, no debounced rescan is queued and none runs. *)
Theorem C8_teardown_releases (s : State) :
  reachable s -> started s = true ->
  observer (cleanup s) = Some false
  ∧ intersectionObserver (cleanup s) = Some ∅
  ∧ outstanding (cleanup s) = 0
  ∧ navObserver (cleanup s) = navObserver s
  ∧ idleCallbacks (cleanup s) = idleCallbacks s
  ∧ (∀ tm, tm ∈ timers s -> task tm ≠ DebouncedScan -> tm ∈ timers (cleanup s))
  ∧ ∀ tr s', run tr (cleanup s) = Some s' ->
             observer s' = Some false
             ∧ outstanding s' = 0
             ∧ rescans (log s') = rescans (log s)
             ∧ ∀ pg mutations, step pg (EvMutations mutations) s' = None.
Proof.
  intros Hr Hst.
  destruct (startedInv_reachable s Hr Hst) as [[o Ho] [targets Hio]].
  pose proof (debounceInv_reachable s Hr) as HD.
  pose proof (handleInv_reachable s Hr) as [HN Hh].
  pose proof (cancel_debounce s HD) as Hz.
  assert (torn (cleanup s)) as HT.
  { split_and!.
    - by rewrite cleanup_eq, clearTimeout_eq.
    - rewrite cleanup_eq, clearTimeout_eq. simpl. by rewrite Ho.
    - by apply debounceInv_cleanup.
    - by apply idsInv_cleanup.
    - revert Hz. unfold outstanding. by rewrite cleanup_eq, !clearTimeout_eq. }
  destruct HT as (Hst' & Ho' & HD' & HN' & Hz').
  split_and!; try done.
  - rewrite cleanup_eq, clearTimeout_eq. simpl. by rewrite Hio.
  - by rewrite cleanup_eq, clearTimeout_eq.
  - by rewrite cleanup_eq, clearTimeout_eq.
  - intros tm Hin Htask. rewrite cleanup_eq, clearTimeout_eq. simpl.
    destruct (debounceTimer s) as [i|] eqn:Hd; [| done].
    apply list_elem_of_filter. split; [| done].
    intros Hid. destruct (Hh i eq_refl) as [_ Hdeb]. by apply Htask, Hdeb.
  - intros tr s' Hrun.
    destruct (torn_run tr (cleanup s) s') as [(_ & Hobs & _ & _ & Hout) Hres];
      [by split_and! | done |].
    split_and!; try done.
    + rewrite Hres. by rewrite cleanup_eq, clearTimeout_eq.
    + intros pg mutations. simpl. by rewrite Hobs.
Qed.

Lemma C8_witness :
  observer (cleanup (stateAfter untilRelease)) = Some false
  ∧ outstanding (cleanup (stateAfter untilRelease)) = 0
  ∧ rescans (log (default (boot homeUrl)
                     (run afterTeardown (cleanup (stateAfter untilRelease)))))
    = rescans (log (stateAfter untilRelease)).
Proof.
  destruct (C8_teardown_releases (stateAfter untilRelease) reachable_untilRelease)
    as (H1 & _ & H3 & _ & _ & _ & H7); [by vm_compute |].
  split_and!; [exact H1 | exact H3 |].
  destruct (H7 afterTeardown
              (default (boot homeUrl)
                 (run afterTeardown (cleanup (stateAfter untilRelease)))))
    as (_ & _ & H & _); [by vm_compute | exact H].
Defined.

(** *** C9 *)

(** C9, as stated, fails: a button that is disabled, marked
    [aria-hidden], without extent, transparent and hidden by a style sheet
    passes the test of the scan loop; the scan counts it and its batch
    holds it. *)
Lemma C9_counterexample :
  disabled (element inertPage 0) = true
  ∧ aria_hidden (element inertPage 0) = true
  ∧ rect_width (element inertPage 0) = 0%Z
  ∧ computed_display (element inertPage 0) = "none"
  ∧ computed_opacity (element inertPage 0) = "0"
  ∧ isCandidate inertPage beforeFirstScan 0 = true
  ∧ (findNewButtons inertPage beforeFirstScan).1 = 1
  ∧ idleCallbacks (findNewButtons inertPage beforeFirstScan).2
    = [{| buttons := [0]; deadline := 2000 |}]
  ∧ ¬ (∀ pg s b, isCandidate pg s b = true -> disabled (element pg b) = false).
Proof.
  split_and!; [by vm_compute.. |].
  intros Hall. by specialize (Hall inertPage beforeFirstScan 0 eq_refl).
Qed.

(** The earlier variant does reject such a button. *)
Lemma Legacy_isShowMoreButton_sound (el : Element) :
  Legacy.isShowMoreButton el = true ->
  isConnected el = true ∧ disabled el = false ∧ aria_hidden el = false
  ∧ (0 < rect_width el)%Z ∧ (0 < rect_height el)%Z
  ∧ computed_display el ≠ "none" ∧ computed_visibility el ≠ "hidden"
  ∧ computed_opacity el ≠ "0".
Proof.
  unfold Legacy.isShowMoreButton, Legacy.isElementVisible.
  destruct (isConnected el); simpl; [| done].
  destruct (str_is _ _); simpl; [| done].
  destruct (includes _ _); simpl; [| done].
  destruct (String.eqb (computed_display el) "none") eqn:Hd; simpl; [done |].
  destruct (String.eqb (computed_visibility el) "hidden") eqn:Hv; simpl; [done |].
  destruct (String.eqb (computed_opacity el) "0") eqn:Ho; simpl; [done |].
  destruct (0 <? rect_width el)%Z eqn:Hw; simpl; [| done].
  destruct (0 <? rect_height el)%Z eqn:Hh; simpl; [| done].
  destruct (disabled el); simpl; [done |].
  destruct (aria_hidden el); simpl; [done |].
  intros _. apply Z.ltb_lt in Hw, Hh.
  apply String.eqb_neq in Hd, Hv, Ho. by split_and!.
Qed.

Example Legacy_rejects_inertButton : Legacy.isShowMoreButton inertButton = false.
Proof. by vm_compute. Qed.

Example Legacy_accepts_showMoreButton :
  Legacy.isShowMoreButton showMoreButton = true.
Proof. by vm_compute. Qed.

Lemma scanLoop_idle pg matches n s :
  idleCallbacks (scanLoop pg matches n s).2 = idleCallbacks s.
Proof.
  revert n s. induction matches as [|b rest IH]; intros n s; simpl; [done |].
  destruct (isCandidate pg s b); by rewrite IH.
Qed.

Lemma isValid_sound pg s b :
  isValidShowMoreButton pg s b = true ->
  isConnected (element pg b) = true
  ∧ ¬ (b ∈ processedButtons s)
  ∧ dataset_testid (element pg b) = Some BUTTON_TESTID
  ∧ style_display (element pg b) ≠ "none"
  ∧ style_visibility (element pg b) ≠ "hidden"
  ∧ includes "Show more" (textContent (element pg b)) = true.
Proof.
  intros Hv. pose proof (isValid_not_processed _ _ _ Hv) as Hnp. revert Hv.
  unfold isValidShowMoreButton.
  destruct (isConnected (element pg b)); simpl; [| done].
  case_bool_decide; [done |].
  destruct (dataset_testid (element pg b)) as [t|]; simpl; [| done].
  destruct (String.eqb t BUTTON_TESTID) eqn:Ht; simpl; [| done].
  destruct (String.eqb (style_display (element pg b)) "none") eqn:Hd; simpl; [done |].
  destruct (String.eqb (style_visibility (element pg b)) "hidden") eqn:Hvis;
    simpl; [done |].
  destruct (includes _ _); simpl; [| done].
  intros _. apply String.eqb_eq in Ht as ->. apply String.eqb_neq in Hd, Hvis.
  by split_and!.
Qed.

(** C9, amended.  The scan loop adds a match to the pending set only if it
    is connected, its inline style has neither [display: none] nor
    [visibility: hidden], its test id and text match, and it is not in
    [processedButtons]; a batch holds nothing else.  ([disabled],
    [aria-hidden], extent, opacity and the computed style are not read.) *)
Theorem C9_scanner_rejects (pg : Page) (s : State) (b : elem) :
  (isCandidate pg s b = true ->
   isConnected (element pg b) = true
   ∧ style_display (element pg b) ≠ "none"
   ∧ style_visibility (element pg b) ≠ "hidden"
   ∧ dataset_testid (element pg b) = Some BUTTON_TESTID
   ∧ includes "Show more" (textContent (element pg b)) = true
   ∧ b ∉ processedButtons s)
  ∧ (isConnected (element pg b) = false
     ∨ style_display (element pg b) = "none"
     ∨ style_visibility (element pg b) = "hidden" ->
     isCandidate pg s b = false)
  ∧ (∀ matches n,
       b ∈ pendingButtons (scanLoop pg matches n s).2 ->
       b ∈ pendingButtons s ∨ (b ∈ matches ∧ isCandidate pg s b = true))
  ∧ (∀ req, req ∈ idleCallbacks (findNewButtons pg s).2 ->
            b ∈ buttons req ->
            req ∈ idleCallbacks s ∨ b ∈ pendingButtons s
            ∨ isCandidate pg s b = true).
Proof.
  assert (isCandidate pg s b = true ->
          isConnected (element pg b) = true
          ∧ style_display (element pg b) ≠ "none"
          ∧ style_visibility (element pg b) ≠ "hidden"
          ∧ dataset_testid (element pg b) = Some BUTTON_TESTID
          ∧ includes "Show more" (textContent (element pg b)) = true
          ∧ b ∉ processedButtons s) as Hsound.
  { unfold isCandidate. intros [_ Hv]%andb_true_iff.
    apply isValid_sound in Hv. by destruct Hv as (? & ? & ? & ? & ? & ?). }
  split_and!.
  - exact Hsound.
  - intros Hbad. destruct (isCandidate pg s b) eqn:Hc; [| done].
    destruct (Hsound eq_refl) as (Hconn & Hd & Hv & _).
    destruct Hbad as [? | [? | ?]]; congruence.
  - intros matches n Hin. by apply scanLoop_pending in Hin.
  - intros req Hreq Hb. rewrite findNewButtons_eq in Hreq. simpl in Hreq.
    set (r := scanLoop pg (querySelectorAll pg) 0 (emit Scan s)) in *.
    pose proof (scanLoop_idle pg (querySelectorAll pg) 0 (emit Scan s)) as Hidle.
    fold r in Hidle. simpl in Hidle.
    destruct (0 <? r.1); [| left; by rewrite <- Hidle].
    unfold processPendingButtons in Hreq.
    destruct (isProcessing r.2); [left; by rewrite <- Hidle |]. simpl in Hreq.
    rewrite Hidle in Hreq. apply elem_of_app in Hreq as [? | Hreq]; [by left |].
    apply list_elem_of_singleton in Hreq as ->. simpl in Hb. right.
    apply elem_of_take in Hb as (i & Hb & _).
    apply list_elem_of_lookup_2 in Hb. subst r.
    apply scanLoop_pending in Hb as [? | [_ Hc]]; [by left | right].
    by rewrite (isCandidate_frame pg s) in Hc.
Qed.

Lemma C9_witness :
  isCandidate (timeline 1) beforeFirstScan 0 = true
  ∧ isConnected (element (timeline 1) 0) = true
  ∧ style_display (element (timeline 1) 0) ≠ "none"
  ∧ isCandidate detachedPage beforeFirstScan 0 = false.
Proof.
  destruct (C9_scanner_rejects (timeline 1) beforeFirstScan 0) as (H1 & _).
  destruct (C9_scanner_rejects detachedPage beforeFirstScan 0) as (_ & H2 & _).
  destruct H1 as (Hc & Hd & _); [by vm_compute |].
  split_and!; [by vm_compute | exact Hc | exact Hd |].
  apply H2. by left.
Defined.

(** *** C10 *)

(** C10, as stated, fails: in the run [twoScans] the second scan calls
    [processPendingButtons] while the idle callback of the first is still
    waiting; the call returns at once and the pending set keeps button 0. *)
Lemma C10_counterexample :
  isProcessing midBackupScan = true
  ∧ pendingButtons midBackupScan = [0]
  ∧ pendingButtons (processPendingButtons midBackupScan) = [0]
  ∧ backupTask (timeline 1) backupFires = processPendingButtons midBackupScan
  ∧ run twoScans (boot homeUrl) = Some (backupTask (timeline 1) backupFires)
  ∧ ¬ (∀ s, pendingButtons (processPendingButtons s) = []).
Proof.
  split_and!; [by vm_compute.. |].
  intros Hall. specialize (Hall midBackupScan). by vm_compute in Hall.
Qed.

Lemma onEntry_undispatched pg s entry b :
  b ∉ pendingButtons s ->
  ¬ (b ∈ pendingButtons (onEntry pg s entry))
  ∧ (b ∈ processedButtons (onEntry pg s entry) -> b ∈ processedButtons s)
  ∧ armed b (onEntry pg s entry) = armed b s.
Proof.
  intros Hb. destruct entry as [target [|]]; simpl; [| done].
  unfold JsSet.has. case_bool_decide as Hin; simpl; [| done].
  assert (b ≠ target) as Hne by congruence.
  set (s1 := emit (Release target) _).
  assert (b ∉ pendingButtons s1) as Hb1.
  { simpl. rewrite JsSet_delete_elem. by intros [_ ?]. }
  destruct (processButton_frame pg target s1) as (-> & _ & _).
  split; [done |]. unfold processButton, armed.
  destruct (isValidShowMoreButton pg s1 target); [| done]. simpl.
  destruct (findTweetContainer _); simpl.
  - split; [by intros [?%elem_of_singleton | ?]%elem_of_union |].
    rewrite count_app. cbn [count isClickTimer task].
    rewrite bool_decide_eq_false_2 by congruence. lia.
  - split; [by intros [?%elem_of_singleton | ?]%elem_of_union | done].
Qed.

Lemma onIntersections_undispatched pg entries s b :
  b ∉ pendingButtons s ->
  (b ∈ processedButtons (onIntersections pg entries s) -> b ∈ processedButtons s)
  ∧ armed b (onIntersections pg entries s) = armed b s.
Proof.
  unfold onIntersections. revert s.
  induction entries as [|entry rest IH]; intros s Hb; simpl; [done |].
  destruct (onEntry_undispatched pg s entry b Hb) as (Hb1 & Hp & Ha).
  destruct (IH _ Hb1) as [Hp' Ha']. split; [auto | congruence].
Qed.

Lemma freshlyAdded_split b l :
  freshlyAdded b l ->
  ∃ mid t oldest, l = mid ++ (t, PendingAdd b) :: oldest
                  ∧ ∀ e batch, e ∈ mid -> e.2 ≠ PendingClear batch.
Proof.
  induction l as [|[t o] l IH]; simpl; [done |]. intros H.
  assert (freshlyAdded b l ->
          (∀ batch, o ≠ PendingClear batch) ->
          ∃ mid t' oldest, (t, o) :: l = mid ++ (t', PendingAdd b) :: oldest
                           ∧ ∀ e batch, e ∈ mid -> e.2 ≠ PendingClear batch) as Hrec.
  { intros Hl Ho. destruct (IH Hl) as (mid & t' & oldest & -> & Hmid).
    exists ((t, o) :: mid), t', oldest. split; [done |].
    intros e batch [-> | ?]%elem_of_cons; [apply Ho | by apply Hmid]. }
  destruct o; try (by apply Hrec; [done | intros batch; discriminate]);
    [| done].
  destruct H as [-> | H]; [| by apply Hrec; [done | intros batch; discriminate]].
  exists [], t, l. split; [done |]. intros e batch He. inversion He.
Qed.

Lemma releasesJustified_split l newer t b older :
  releasesJustified l -> l = newer ++ (t, Release b) :: older ->
  freshlyAdded b older.
Proof.
  revert l. induction newer as [|e newer IH]; intros l Hl ->; simpl in Hl.
  - by destruct Hl.
  - destruct Hl as [_ Hl]. by eapply IH.
Qed.

(** C10, amended.  A call of [processPendingButtons] that finds
    [isProcessing] false leaves the pending set empty and queues the first
    five pending buttons as the batch; a call that finds it true changes
    nothing.  The IntersectionObserver callback does not dispatch an
    element that is not in the pending set.  In every reachable trace, each
    release of [b] to [processButton] comes after an insertion of [b] into
    the pending set by a scan, with no clearing of the pending set in
    between. *)
Theorem C10_pending_cleared_per_cycle (s : State) :
  reachable s ->
  (isProcessing s = false ->
   pendingButtons (processPendingButtons s) = []
   ∧ idleCallbacks (processPendingButtons s)
     = idleCallbacks s ++ [{| buttons := take 5 (pendingButtons s);
                              deadline := now s + 1000 |}])
  ∧ (isProcessing s = true -> processPendingButtons s = s)
  ∧ (∀ pg entries b,
       b ∉ pendingButtons s ->
       (b ∈ processedButtons (onIntersections pg entries s) -> b ∈ processedButtons s)
       ∧ armed b (onIntersections pg entries s) = armed b s)
  ∧ (∀ newer t b older,
       log s = newer ++ (t, Release b) :: older ->
       ∃ mid t' oldest,
         older = mid ++ (t', PendingAdd b) :: oldest
         ∧ ∀ e batch, e ∈ mid -> e.2 ≠ PendingClear batch).
Proof.
  intros Hr. split_and!.
  - intros Hp. unfold processPendingButtons. by rewrite Hp.
  - intros Hp. unfold processPendingButtons. by rewrite Hp.
  - intros pg entries b. apply onIntersections_undispatched.
  - intros newer t b older Hlog. apply freshlyAdded_split.
    destruct (pendInv_reachable s Hr) as [Hrel _].
    by eapply releasesJustified_split.
Qed.

(** With one scan only, button 0 is admitted and subscribed, and when it
    becomes visible the callback finds the pending set empty: nothing is
    released, marked or queued. *)
Example admitted_not_dispatched :
  ∃ s, run (at_ (timeline 1)
              [EvReady; EvTick 1000; EvTimer 1; EvIdle 0;
               EvIntersections [(0, true)]]) (boot homeUrl) = Some s
       ∧ isObserved 0 s = true
       ∧ pendingButtons s = []
       ∧ armed 0 s = 0
       ∧ log s = [(1000, Crossing 0); (1000, Observe 0);
                  (1000, ConsoleLog (MsgFound 1)); (1000, PendingClear [0]);
                  (1000, PendingAdd 0); (1000, Scan); (1000, Fire InitialScan);
                  (0, ConsoleLog MsgInitComplete); (0, ConsoleLog MsgInitializing)].
Proof. eexists. split_and!; by vm_compute. Qed.

(** In [untilClick] the release of button 0 follows its insertion by the
    backup scan, not its admission by the initial scan. *)
Lemma C10_witness :
  pendingButtons (processPendingButtons beforeFirstScan) = []
  ∧ ∃ mid t' oldest,
      drop 4 (log (stateAfter untilClick)) = mid ++ (t', PendingAdd 0) :: oldest
      ∧ ∀ e batch, e ∈ mid -> e.2 ≠ PendingClear batch.
Proof.
  split.
  - assert (reachable beforeFirstScan) as Hr
      by (exists homeUrl, (at_ (timeline 1) [EvReady; EvTick 1000]); by vm_compute).
    destruct (C10_pending_cleared_per_cycle beforeFirstScan Hr) as (H & _).
    apply H. by vm_compute.
  - destruct (C10_pending_cleared_per_cycle (stateAfter untilClick) reachable_untilClick)
      as (_ & _ & _ & H).
    apply (H (take 3 (log (stateAfter untilClick))) 5000 0). by vm_compute.
Defined.

(** ** Further properties of the script *)

(** *** The search for the tweet container *)

(** X1 (nearest container).  [findTweetContainer] returns the nearest of
    the first ten ancestors of the button that is a tweet container; it
    returns nothing exactly when none of the first ten is one, whatever lies
    further up. *)
Theorem findTweetContainer_nearest el :
  match findTweetContainer el with
  | Some a =>
      ∃ i, i < 10 ∧ ancestors el !! i = Some a ∧ isTweetContainer a = true
           ∧ ∀ j a', j < i -> ancestors el !! j = Some a' ->
                     isTweetContainer a' = false
  | None =>
      ∀ i a, i < 10 -> ancestors el !! i = Some a -> isTweetContainer a = false
  end.
Proof.
  unfold findTweetContainer.
  generalize 10 as fuel. generalize (ancestors el) as current.
  intros current fuel. revert current.
  induction fuel as [|k IH]; intros [|a up]; simpl;
    try (intros; lia || done).
  destruct (isTweetContainer a) eqn:Ha.
  - exists 0. split_and!; [lia | done | done | intros; lia].
  - specialize (IH up). destruct (climb up k) as [a0|].
    + destruct IH as (i & Hi & Hl & Ht & Hmin).
      exists (S i). split_and!; [lia | done | done |].
      intros [|j] a' Hj; simpl; [congruence | apply Hmin; lia].
    + intros [|i] a' Hi; simpl; [congruence | apply IH; lia].
Qed.

(** *** The change watcher *)

Lemma signals_debouncedExpand s : signals (debouncedExpand s) = S (signals s).
Proof. unfold debouncedExpand. by rewrite clearTimeout_eq. Qed.

Lemma shouldProcess_spec mutations :
  shouldProcess mutations = true
  ↔ ∃ m node, m ∈ mutations ∧ mutation_type m = "childList"
              ∧ node ∈ addedNodes m ∧ nodeType node = ELEMENT_NODE
              ∧ (opt_includes "tweet" (node_testid node) = true
                 ∨ node_hasButton node = true ∨ node_matches node = true).
Proof.
  unfold shouldProcess. rewrite existsb_exists. split.
  - intros (m & Hm & H). apply andb_true_iff in H as [H Hn].
    apply andb_true_iff in H as [Ht _]. apply String.eqb_eq in Ht.
    apply existsb_exists in Hn as (node & Hnode & Hr).
    unfold relevantNode in Hr. apply andb_true_iff in Hr as [Hty Hr].
    apply Nat.eqb_eq in Hty. exists m, node.
    rewrite !list_elem_of_In. split_and!; try done.
    apply orb_true_iff in Hr as [Hr | ?]; [| auto].
    apply orb_true_iff in Hr as [? | ?]; auto.
  - intros (m & node & Hm & Ht & Hnode & Hty & Hr).
    exists m. rewrite <- list_elem_of_In. split; [done |].
    apply String.eqb_eq in Ht. rewrite Ht. simpl.
    apply andb_true_iff. split.
    + destruct (addedNodes m); [inversion Hnode | done].
    + apply existsb_exists. exists node. rewrite <- list_elem_of_In.
      split; [done |]. unfold relevantNode. apply Nat.eqb_eq in Hty.
      rewrite Hty. simpl. destruct Hr as [-> | [-> | ->]]; simpl;
        rewrite ?orb_true_r; done.
Qed.

(** X2 (one signal per batch).  A batch of mutation records in which some
    [childList] record adds an element node that carries "tweet" in its test
    id, contains a show-more button or is a tweet makes one call of
    [debouncedExpand], however many such nodes it has; any other batch
    leaves the state of the script as it is. *)
Theorem change_watcher_signals_once mutations s :
  ((∃ m node, m ∈ mutations ∧ mutation_type m = "childList"
              ∧ node ∈ addedNodes m ∧ nodeType node = ELEMENT_NODE
              ∧ (opt_includes "tweet" (node_testid node) = true
                 ∨ node_hasButton node = true ∨ node_matches node = true)) ->
   onMutations mutations s = debouncedExpand s
   ∧ signals (onMutations mutations s) = S (signals s))
  ∧ (¬ (∃ m node, m ∈ mutations ∧ mutation_type m = "childList"
                  ∧ node ∈ addedNodes m ∧ nodeType node = ELEMENT_NODE
                  ∧ (opt_includes "tweet" (node_testid node) = true
                     ∨ node_hasButton node = true ∨ node_matches node = true)) ->
     onMutations mutations s = s).
Proof.
  unfold onMutations. split; intros H.
  - apply shouldProcess_spec in H. rewrite H.
    split; [done | apply signals_debouncedExpand].
  - destruct (shouldProcess mutations) eqn:Hs; [| done].
    by apply shouldProcess_spec in Hs.
Qed.

Lemma change_watcher_signals_once_witness :
  onMutations tweetInserted beforeFirstScan = debouncedExpand beforeFirstScan
  ∧ signals (onMutations tweetInserted beforeFirstScan)
    = S (signals beforeFirstScan).
Proof.
  apply (change_watcher_signals_once tweetInserted beforeFirstScan).
  eexists _, _. split_and!; [left | done | left | done | by left].
Defined.

(** *** Navigation *)

(** X3 (one rescan per URL change).  When the URL differs from the one
    remembered, [handleNavigation] remembers the new one and queues one
    rescan 800 ms ahead; called again on the same page it does nothing, and
    so it does when the URL is the remembered one.  It never touches the
    processed set, the pending set or the debounce timer. *)
Theorem navigation_rescans_once pg s :
  (location_href pg ≠ currentUrl s ->
   currentUrl (handleNavigation pg s) = location_href pg
   ∧ timers (handleNavigation pg s)
     = timers s ++ [{| tid := nextTimerId s; due := now s + 800;
                       task := NavScan; period := None |}])
  ∧ (location_href pg = currentUrl s -> handleNavigation pg s = s)
  ∧ handleNavigation pg (handleNavigation pg s) = handleNavigation pg s
  ∧ processedButtons (handleNavigation pg s) = processedButtons s
  ∧ pendingButtons (handleNavigation pg s) = pendingButtons s
  ∧ debounceTimer (handleNavigation pg s) = debounceTimer s.
Proof.
  unfold handleNavigation.
  destruct (String.eqb (location_href pg) (currentUrl s)) eqn:Hu; simpl.
  - rewrite ?Hu. simpl. apply String.eqb_eq in Hu.
    split_and!; done.
  - apply String.eqb_neq in Hu. rewrite String.eqb_refl. simpl.
    split_and!; done.
Qed.

Lemma navigation_rescans_once_witness :
  currentUrl (handleNavigation profilePage beforeFirstScan) = profileUrl
  ∧ timers (handleNavigation profilePage beforeFirstScan)
    = timers beforeFirstScan
      ++ [{| tid := nextTimerId beforeFirstScan; due := now beforeFirstScan + 800;
             task := NavScan; period := None |}].
Proof.
  apply (navigation_rescans_once profilePage beforeFirstScan). by vm_compute.
Defined.

(** *** The backup scan drops detached elements *)

Lemma processPendingButtons_pending s b :
  b ∈ pendingButtons (processPendingButtons s) -> b ∈ pendingButtons s.
Proof.
  unfold processPendingButtons. destruct (isProcessing s); [done |].
  simpl. by intros ?%elem_of_nil.
Qed.

Lemma isCandidate_connected pg s b :
  isCandidate pg s b = true -> isConnected (element pg b) = true.
Proof.
  unfold isCandidate. intros [_ H]%andb_true_iff.
  by apply isValid_sound in H as [? _].
Qed.

(** X4 (backup pruning).  After a run of the backup closure every element
    of the pending set is attached to the document as the closure saw it:
    detached elements are dropped before the scan, and the scan admits
    attached ones only. *)
Theorem backup_leaves_attached_only pg s b :
  b ∈ pendingButtons (backupTask pg s) ->
  isConnected (element pg b) = true
  ∧ (b ∈ pendingButtons s ∨ b ∈ querySelectorAll pg).
Proof.
  unfold backupTask. rewrite findNewButtons_eq. cbn [snd].
  set (s0 := emit Scan _).
  intros Hb.
  assert (b ∈ pendingButtons (scanLoop pg (querySelectorAll pg) 0 s0).2) as Hin.
  { destruct (0 <? _); [by apply processPendingButtons_pending | done]. }
  apply scanLoop_pending in Hin as [Hin | [Hin Hc]].
  - subst s0. simpl in Hin. apply list_elem_of_filter in Hin as [? ?]. auto.
  - split; [by eapply isCandidate_connected | auto].
Qed.

Lemma backup_leaves_attached_only_witness :
  isConnected (element (timeline 1) 0) = true
  ∧ (0 ∈ pendingButtons backupFires ∨ 0 ∈ querySelectorAll (timeline 1)).
Proof.
  apply (backup_leaves_attached_only (timeline 1) backupFires 0).
  apply (bool_decide_unpack _). by vm_compute.
Defined.

(** *** Scans *)

Lemma scanLoop_none pg matches n s :
  (∀ b, b ∈ matches -> isCandidate pg s b = false) ->
  scanLoop pg matches n s = (n, s).
Proof.
  induction matches as [|b rest IH]; intros H; simpl; [done |].
  rewrite H by left. apply IH. intros x Hx. apply H. by right.
Qed.

(** X5 (a scan that finds nothing).  When no match of the selector is a
    candidate (the document has none, or all are processed or invalid),
    [findNewButtons] reports zero and does nothing else: the pending set,
    stale or not, stays as it is and no batch is started. *)
Theorem scan_without_candidates pg s :
  (∀ b, b ∈ querySelectorAll pg -> isCandidate pg s b = false) ->
  findNewButtons pg s = (0, emit Scan s).
Proof.
  intros H. rewrite findNewButtons_eq.
  rewrite (scanLoop_none pg _ 0 (emit Scan s)); [done |].
  intros b Hb. rewrite (isCandidate_frame pg s); auto.
Qed.

Lemma scan_without_candidates_witness :
  findNewButtons (timeline 1) (stateAfter untilRelease)
  = (0, emit Scan (stateAfter untilRelease)).
Proof.
  apply (scan_without_candidates (timeline 1) (stateAfter untilRelease)).
  intros b Hb. apply list_elem_of_singleton in Hb as ->. by vm_compute.
Defined.

Lemma count_length_filter {A} (p : A -> bool) l :
  count p l = length (filter (λ x, p x = true) l).
Proof.
  induction l as [|x l IH]; simpl; [done |].
  destruct (p x) eqn:Hp.
  - rewrite filter_cons_True by done. simpl. by rewrite IH.
  - rewrite filter_cons_False by (by rewrite Hp). by rewrite IH.
Qed.

Lemma scanLoop_order pg matches n s :
  NoDup matches ->
  (∀ b, b ∈ matches -> b ∉ pendingButtons s) ->
  pendingButtons (scanLoop pg matches n s).2
  = pendingButtons s ++ filter (λ b, isCandidate pg s b = true) matches.
Proof.
  revert n s. induction matches as [|b rest IH]; intros n s Hnd Hfresh; simpl.
  - by rewrite app_nil_r.
  - apply NoDup_cons in Hnd as [Hb Hnd].
    destruct (isCandidate pg s b) eqn:Hc.
    + rewrite filter_cons_True by done.
      rewrite IH; [| done |]; simpl.
      * unfold JsSet.add, JsSet.has.
        rewrite bool_decide_eq_false_2 by (apply Hfresh; left).
        by rewrite <- app_assoc.
      * intros x Hx. unfold JsSet.add, JsSet.has.
        rewrite bool_decide_eq_false_2 by (apply Hfresh; left).
        intros [Hin | ->%list_elem_of_singleton]%elem_of_app; [| done].
        revert Hin. apply Hfresh. by right.
    + rewrite filter_cons_False by (by rewrite Hc).
      apply IH; [done |]. intros x Hx. apply Hfresh. by right.
Qed.

Lemma scanLoop_isProcessing pg matches n s :
  isProcessing (scanLoop pg matches n s).2 = isProcessing s.
Proof.
  revert n s. induction matches as [|b rest IH]; intros n s; simpl; [done |].
  destruct (isCandidate pg s b); by rewrite IH.
Qed.

(** X6 (document order).  A scan that starts with an empty pending set
    and no batch under way hands the idle callback the first five candidates
    in document order, with a deadline of one second; it reports the number
    of candidates and leaves the pending set empty, so that a sixth
    candidate waits for a later scan. *)
Theorem scan_batches_in_document_order pg s :
  isProcessing s = false ->
  pendingButtons s = [] ->
  NoDup (querySelectorAll pg) ->
  candidates pg s ≠ [] ->
  (findNewButtons pg s).1 = length (candidates pg s)
  ∧ idleCallbacks (findNewButtons pg s).2
    = idleCallbacks s ++ [{| buttons := take 5 (candidates pg s);
                             deadline := now s + 1000 |}]
  ∧ pendingButtons (findNewButtons pg s).2 = [].
Proof.
  intros Hp Hpend Hnd Hc. rewrite findNewButtons_eq. cbn [fst snd].
  pose proof (scanLoop_order pg (querySelectorAll pg) 0 (emit Scan s) Hnd) as Ho.
  pose proof (scanLoop_idle pg (querySelectorAll pg) 0 (emit Scan s)) as Hi1.
  pose proof (scanLoop_isProcessing pg (querySelectorAll pg) 0 (emit Scan s)) as Hi2.
  pose proof (scanLoop_frame pg (querySelectorAll pg) 0 (emit Scan s)) as Hf.
  rewrite scanLoop_count in *.
  destruct (scanLoop pg (querySelectorAll pg) 0 (emit Scan s)) as [k s1].
  cbn [fst snd] in *.
  assert (count (isCandidate pg (emit Scan s)) (querySelectorAll pg)
          = length (candidates pg s)) as Hlen by apply count_length_filter.
  rewrite Hlen. simpl.
  assert ((0 <? length (candidates pg s)) = true) as ->.
  { apply Nat.ltb_lt. destruct (candidates pg s); [done | simpl; lia]. }
  simpl in Ho. rewrite Hpend in Ho.
  assert (∀ b, b ∈ querySelectorAll pg -> b ∉ []) as Hnil
    by (intros ? _ ?%elem_of_nil; done).
  specialize (Ho Hnil).
  destruct Hf as (_ & _ & _ & _ & _ & _ & Hnow).
  unfold processPendingButtons. rewrite Hi2. simpl. rewrite Hp. simpl.
  rewrite Hi1, Ho, Hnow. done.
Qed.

Lemma scan_batches_in_document_order_witness :
  (findNewButtons (timeline 7) beforeFirstScan).1
  = length (candidates (timeline 7) beforeFirstScan)
  ∧ idleCallbacks (findNewButtons (timeline 7) beforeFirstScan).2
    = idleCallbacks beforeFirstScan
      ++ [{| buttons := take 5 (candidates (timeline 7) beforeFirstScan);
             deadline := now beforeFirstScan + 1000 |}]
  ∧ pendingButtons (findNewButtons (timeline 7) beforeFirstScan).2 = [].
Proof.
  apply (scan_batches_in_document_order (timeline 7) beforeFirstScan).
  - by vm_compute.
  - by vm_compute.
  - apply NoDup_seq.
  - by vm_compute.
Defined.

(** *** Teardown *)

Lemma cleanup_fixed s :
  match debounceTimer s with
  | Some i => filter (λ tm, tid tm ≠ i) (timers s)
  | None => timers s
  end = timers s ->
  const false <$> observer s = observer s ->
  const ∅ <$> intersectionObserver s = intersectionObserver s ->
  cleanup s = s.
Proof.
  intros Ht Ho Hi. rewrite cleanup_eq, clearTimeout_eq, Ho, Hi.
  simpl. rewrite Ht. by destruct s.
Qed.

(** X7 (teardown twice).  Running [cleanup] again changes nothing. *)
Theorem cleanup_idempotent s : cleanup (cleanup s) = cleanup s.
Proof.
  apply cleanup_fixed; rewrite cleanup_eq, clearTimeout_eq; simpl.
  - destruct (debounceTimer s) as [i|]; [| done].
    rewrite list_filter_filter. apply list_filter_iff. intros tm. tauto.
  - by destruct (observer s).
  - by destruct (intersectionObserver s).
Qed.

(** *** Runs compose *)

Lemma run_compose tr1 tr2 s s1 s' :
  run tr1 s = Some s1 -> run tr2 s1 = Some s' -> run (tr1 ++ tr2) s = Some s'.
Proof.
  revert s. induction tr1 as [|[pg ev] rest IH]; intros s H1 H2; simpl in *.
  - by injection H1 as ->.
  - destruct (step pg ev s); [eauto | done].
Qed.

Lemma reachable_run tr s s' : reachable s -> run tr s = Some s' -> reachable s'.
Proof.
  intros (href & tr0 & H0) H. exists href, (tr0 ++ tr). by eapply run_compose.
Qed.

Lemma reachable_next pg ev s s' :
  reachable s -> step pg ev s = Some s' -> reachable s'.
Proof.
  intros Hr Hstep. apply (reachable_run [(pg, ev)] s); [done |].
  simpl. by rewrite Hstep.
Qed.

(** *** Before [initialize] *)

Lemma pristine_fields s :
  pristine s
  ↔ processedButtons s = ∅ ∧ pendingButtons s = [] ∧ debounceTimer s = None
    ∧ isProcessing s = false ∧ observer s = None
    ∧ intersectionObserver s = None ∧ navObserver s = false ∧ timers s = []
    ∧ nextTimerId s = 1 ∧ idleCallbacks s = [] ∧ started s = false
    ∧ log s = [].
Proof.
  unfold pristine. split.
  - intros H. rewrite H. by split_and!.
  - destruct s. simpl.
    intros (-> & -> & -> & -> & -> & -> & -> & -> & -> & -> & -> & ->). done.
Qed.

Lemma pristine_boot href : pristine (boot href).
Proof. done. Qed.

Lemma cleanup_pristine s : pristine s -> cleanup s = s.
Proof.
  intros (_ & _ & Hd & _ & Ho & Hi & _)%pristine_fields.
  apply cleanup_fixed; by rewrite ?Hd, ?Ho, ?Hi.
Qed.

Lemma pristine_step pg ev s s' :
  pristine s -> step pg ev s = Some s' ->
  pristine s' ∨ s' = initialize (set_started true s).
Proof.
  intros Hp Hstep.
  pose proof (proj1 (pristine_fields s) Hp)
    as (Hpr & Hpe & Hd & Hip & Ho & Hi & Hn & Ht & Hid & Hq & Hst & Hl).
  destruct ev as [|mutations| |i|k|entries| |dt]; simpl in Hstep.
  - rewrite Hst in Hstep. injection Hstep as <-. by right.
  - by rewrite Ho in Hstep.
  - by rewrite Hn in Hstep.
  - by rewrite Ht in Hstep.
  - by rewrite Hq in Hstep.
  - by rewrite Hi in Hstep.
  - injection Hstep as <-. left. by rewrite cleanup_pristine.
  - injection Hstep as <-. left. apply pristine_fields. by split_and!.
Qed.

Lemma started_step pg ev s s' :
  step pg ev s = Some s' -> started s = true -> started s' = true.
Proof.
  apply Inv_step with (Inv := λ s, started s = true) (tickOk := λ _ _, True);
    try done.
  - intros pg0 s0 s0' Hm.
    destruct Hm as [o s0 Ho|b0 s0 _|s0 Hp|b0 targets s0 _|k s0|s0|b0 s0 _|b0 s0 _
                   |s0|s0 _|s0]; try done.
    + unfold processPendingButtons. by rewrite Hp.
    + unfold processButton. destruct (isValidShowMoreButton pg0 s0 b0); [| done].
      simpl. by destruct (findTweetContainer _).
    + by rewrite initialize_eq.
    + unfold handleNavigation. by destruct (negb _).
  - intros s0. unfold debouncedExpand. by rewrite !clearTimeout_eq.
  - intros s0. by rewrite cleanup_eq, clearTimeout_eq.
  - intros pg0 tm b0 s0 _ _ Htask. unfold fireTimer. rewrite Htask. simpl.
    by destruct (clickTask_cases pg0 b0 (fireStart tm s0)) as [-> | [-> | ->]].
Qed.

(** What a click timer does when it fires: it leaves the queue, and the
    closure adds its lines to the trace. *)
Lemma fireTimer_click pg tm b s :
  task tm = Click b ->
  ∃ extra,
    fireTimer pg tm s
    = set_log (extra ++ (now s, Fire (Click b)) :: log s)
        (set_timers (rearm tm (timers s)) s)
    ∧ (extra = [] ∨ extra = [(now s, ConsoleError MsgClickError)]
       ∨ extra = [(now s, ConsoleLog MsgExpanded); (now s, Clicked b)]).
Proof.
  intros Htask. unfold fireTimer, fireStart. rewrite Htask. simpl.
  destruct (clickTask_cases pg b
              (emit (Fire (Click b)) (set_timers (rearm tm (timers s)) s)))
    as [-> | [-> | ->]]; simpl.
  - exists []. auto.
  - exists [(now s, ConsoleLog MsgExpanded); (now s, Clicked b)]. auto.
  - exists [(now s, ConsoleError MsgClickError)]. auto.
Qed.

(** *** Invariants, callback by callback *)

(** A property that [initialize] establishes and every callback of the
    script keeps holds in every state reached after [initialize]; before,
    the state is pristine.  The callbacks that run on a state the event
    loop has reached may use that. *)
Section Callbacks.
Variable J : State -> Prop.
Hypothesis J_init : ∀ s, pristine s -> J (initialize (set_started true s)).
Hypothesis J_tick : ∀ dt s, J s -> J (advance dt s).
Hypothesis J_signal : ∀ s, reachable s -> J s -> J (debouncedExpand s).
Hypothesis J_cleanup : ∀ s, reachable s -> J s -> J (cleanup s).
Hypothesis J_nav : ∀ pg s, J s -> J (handleNavigation pg s).
Hypothesis J_fire : ∀ tm s,
  reachable s -> tm ∈ timers s -> (∀ b, task tm ≠ Click b) ->
  J s -> J (fireStart tm s).
Hypothesis J_click : ∀ pg tm b s,
  reachable s -> tm ∈ timers s -> due tm ≤ now s -> task tm = Click b ->
  J s -> J (fireTimer pg tm s).
Hypothesis J_emit : ∀ o s, reported o -> J s -> J (emit o s).
Hypothesis J_admit : ∀ pg b s,
  isCandidate pg s b = true -> J s ->
  J (emit (PendingAdd b) (set_pendingButtons (JsSet.add b (pendingButtons s)) s)).
Hypothesis J_batch : ∀ s, J s -> J (processPendingButtons s).
Hypothesis J_prune : ∀ pg s,
  J s ->
  J (set_pendingButtons
       (filter (λ b, isConnected (element pg b) = true) (pendingButtons s)) s).
Hypothesis J_idle : ∀ pg k req s,
  idleCallbacks s !! k = Some req -> J s ->
  J (settle (processFunction pg (buttons req)
               (set_idleCallbacks (delete k (idleCallbacks s)) s))).
Hypothesis J_entry : ∀ pg s entry, J s -> J (onEntry pg s entry).

Lemma J_scanLoop pg matches n s : J s -> J (scanLoop pg matches n s).2.
Proof.
  revert n s. induction matches as [|b rest IH]; intros n s HJ; simpl; [done |].
  destruct (isCandidate pg s b) eqn:Hc; apply IH; [by apply (J_admit pg) | done].
Qed.

Lemma J_findNewButtons pg s : J s -> J (findNewButtons pg s).2.
Proof.
  intros HJ. rewrite findNewButtons_eq. cbn [snd].
  pose proof (J_scanLoop pg (querySelectorAll pg) 0 (emit Scan s)
                (J_emit Scan s I HJ)) as H.
  destruct (0 <? _); [by apply J_batch | done].
Qed.

Lemma J_onIntersections pg entries s : J s -> J (onIntersections pg entries s).
Proof.
  unfold onIntersections. revert s.
  induction entries as [|entry rest IH]; intros s HJ; simpl; auto.
Qed.

Lemma J_step pg ev s s' :
  reachable s -> started s = true -> step pg ev s = Some s' -> J s -> J s'.
Proof.
  intros Hr Hst Hstep HJ.
  destruct ev as [|mutations| |i|k|entries| |dt]; simpl in Hstep.
  - by rewrite Hst in Hstep.
  - destruct (observer s) as [[|]|]; try done. injection Hstep as <-.
    unfold onMutations. destruct (shouldProcess mutations); auto.
  - destruct (navObserver s); [| done]. injection Hstep as <-. auto.
  - destruct (lookupTimer i (timers s)) as [tm|] eqn:Hl; [| done].
    apply lookupTimer_Some in Hl as [Hin _].
    destruct (due tm <=? now s) eqn:Hdue; [| done]. injection Hstep as <-.
    apply Nat.leb_le in Hdue.
    destruct (task tm) as [| | |b|] eqn:Htask; [| | | by eapply J_click |].
    all: assert (J (fireStart tm s)) as HF
      by (apply J_fire; try done; intros b; by rewrite Htask).
    all: unfold fireTimer; rewrite Htask; simpl.
    + unfold initialScanTask.
      pose proof (J_findNewButtons pg (fireStart tm s) HF) as H.
      destruct (findNewButtons pg (fireStart tm s)) as [found s2]. simpl in H.
      by apply J_emit.
    + by apply J_findNewButtons.
    + by apply J_findNewButtons.
    + unfold backupTask. by apply J_findNewButtons, J_prune.
  - destruct (idleCallbacks s !! k) as [req|] eqn:Hk; [| done].
    injection Hstep as <-. by eapply J_idle.
  - destruct (intersectionObserver s); [| done]. injection Hstep as <-.
    by apply J_onIntersections.
  - injection Hstep as <-. auto.
  - injection Hstep as <-. auto.
Qed.

Lemma J_reachable s : reachable s -> if started s then J s else pristine s.
Proof.
  intros Hr. cut (reachable s ∧ if started s then J s else pristine s); [tauto |].
  revert s Hr. apply reachable_invariant.
  - intros href. split; [by exists href, [] | done].
  - intros pg ev s s' Hstep [Hr HI]. split; [by eapply reachable_next |].
    destruct (started s) eqn:Hst.
    + rewrite (started_step _ _ _ _ Hstep Hst). by eapply J_step.
    + destruct (pristine_step _ _ _ _ HI Hstep) as [Hp | ->].
      * pose proof (proj1 (pristine_fields s') Hp)
          as (_ & _ & _ & _ & _ & _ & _ & _ & _ & _ & Hs & _).
        by rewrite Hs.
      * assert (started (initialize (set_started true s)) = true) as ->
          by by rewrite initialize_eq.
        by apply J_init.
Qed.
End Callbacks.

Lemma pristine_reachable s : reachable s -> started s = false -> pristine s.
Proof.
  intros Hr Hst.
  assert (if started s then True else pristine s) as H
    by by apply (J_reachable (λ _, True)).
  by rewrite Hst in H.
Qed.

(** *** What the callbacks leave alone *)

Lemma observeEach_frame pg batch s :
  processedButtons (final (observeEach pg batch s)) = processedButtons s
  ∧ pendingButtons (final (observeEach pg batch s)) = pendingButtons s
  ∧ timers (final (observeEach pg batch s)) = timers s
  ∧ idleCallbacks (final (observeEach pg batch s)) = idleCallbacks s
  ∧ ∀ e, e ∈ log s -> e ∈ log (final (observeEach pg batch s)).
Proof.
  revert s. induction batch as [|b rest IH]; intros s; simpl; [done |].
  destruct (isConnected (element pg b)); [| apply IH].
  unfold observe. destruct (intersectionObserver s) as [targets|]; simpl; [| done].
  destruct (IH (emit (Observe b)
                  (set_intersectionObserver (Some ({[b]} ∪ targets)) s)))
    as (-> & -> & -> & -> & Hlog).
  split_and!; try done. intros e He. apply Hlog. simpl. by right.
Qed.

(** With the visibility watcher in place the idle callback does not throw. *)
Lemma observeEach_Normal pg batch s :
  is_Some (intersectionObserver s) ->
  (∀ t err, ¬ ((t, Uncaught err) ∈ log s)) ->
  ∃ s1, observeEach pg batch s = Normal s1
        ∧ is_Some (intersectionObserver s1)
        ∧ ∀ t err, ¬ ((t, Uncaught err) ∈ log s1).
Proof.
  revert s. induction batch as [|b rest IH]; intros s Hio Hlog; simpl.
  - by exists s.
  - destruct (isConnected (element pg b)); [| by apply IH].
    unfold observe. destruct Hio as [targets ->]. simpl. apply IH; simpl.
    + by eexists.
    + intros t err [[=] | ?]%elem_of_cons. by eapply Hlog.
Qed.

Lemma processButton_rest pg b s :
  idleCallbacks (processButton pg b s) = idleCallbacks s
  ∧ isProcessing (processButton pg b s) = isProcessing s
  ∧ filter isBackup (timers (processButton pg b s)) = filter isBackup (timers s)
  ∧ ∀ x, x ∈ processedButtons (processButton pg b s) ->
         x = b ∨ x ∈ processedButtons s.
Proof.
  unfold processButton. destruct (isValidShowMoreButton pg s b); [| by auto].
  destruct (findTweetContainer _); simpl.
  - split_and!; try done.
    + rewrite filter_app, filter_cons_False by done. by rewrite app_nil_r.
    + intros x [?%elem_of_singleton | ?]%elem_of_union; auto.
  - split_and!; try done.
    intros x [?%elem_of_singleton | ?]%elem_of_union; auto.
Qed.

(** *** The idle queue *)

Lemma idleInv_frame s s' :
  (is_Some (intersectionObserver s) -> is_Some (intersectionObserver s')) ->
  idleCallbacks s' = idleCallbacks s ->
  isProcessing s' = isProcessing s ->
  (∀ t err, (t, Uncaught err) ∈ log s' -> (t, Uncaught err) ∈ log s) ->
  idleInv s -> idleInv s'.
Proof.
  intros Hio Hq Hp Hlog (H1 & H2 & H3). unfold idleInv.
  rewrite Hq, Hp. split_and!; [auto | done |].
  intros t err H. by eapply H3, Hlog.
Qed.

Ltac older :=
  let H := fresh in
  intros ? ? H; simpl in H;
  apply elem_of_cons in H as [H | H]; [by simplify_eq |];
  try done.

Lemma idleInv_callbacks s :
  reachable s -> if started s then idleInv s else pristine s.
Proof.
  apply J_reachable.
  - intros s0 (_ & _ & _ & Hip & _ & _ & _ & _ & _ & Hq & _ & Hl)%pristine_fields.
    rewrite initialize_eq. unfold idleInv. simpl. rewrite Hq, Hip, Hl.
    split_and!; [by eexists | done |].
    intros t err H.
    repeat (apply elem_of_cons in H as [[=] | H]). by apply elem_of_nil in H.
  - intros dt s0. by apply idleInv_frame.
  - intros s0 _. unfold debouncedExpand. rewrite !clearTimeout_eq.
    apply idleInv_frame; simpl; try done. older.
  - intros s0 _. rewrite cleanup_eq, clearTimeout_eq.
    apply idleInv_frame; simpl; try done.
    intros [x Hx]. rewrite Hx. by eexists.
  - intros pg s0. unfold handleNavigation. destruct (negb _); [| done].
    by apply idleInv_frame.
  - intros tm s0 _ _ _. apply idleInv_frame; simpl; try done. older.
  - intros pg tm b s0 _ _ _ Htask.
    destruct (fireTimer_click pg tm b s0 Htask) as (extra & -> & Hex).
    apply idleInv_frame; simpl; try done.
    intros t err [H | H]%elem_of_app.
    + destruct Hex as [-> | [-> | ->]];
        repeat (apply elem_of_cons in H as [[=] | H]); by apply elem_of_nil in H.
    + by apply elem_of_cons in H as [[=] | H].
  - intros o s0 Ho. apply idleInv_frame; simpl; try done.
    intros t err [[= _ <-] | ?]%elem_of_cons; done.
  - intros pg b s0 _. apply idleInv_frame; simpl; try done. older.
  - intros s0 (Hio & Hlen & Hlog). unfold processPendingButtons.
    destruct (isProcessing s0) eqn:Hp; [by unfold idleInv; rewrite Hp |].
    split_and!; simpl; [done | rewrite length_app, Hlen; simpl; lia |].
    older. by eapply Hlog.
  - intros pg s0. by apply idleInv_frame.
  - intros pg k req s0 Hk (Hio & Hlen & Hlog).
    destruct (observeEach_Normal pg (buttons req)
                (set_idleCallbacks (delete k (idleCallbacks s0)) s0))
      as (s1 & Heq & Hio1 & Hlog1); [done | done |].
    pose proof (observeEach_frame pg (buttons req)
                  (set_idleCallbacks (delete k (idleCallbacks s0)) s0))
      as (_ & _ & _ & Hq1 & _).
    unfold processFunction. rewrite Heq in *. simpl in *.
    split_and!; simpl; [done | | done].
    rewrite Hq1, length_delete by by eexists.
    destruct (isProcessing s0); lia.
  - intros pg s0 [target [|]] HJ; simpl; [| done].
    assert (idleInv (emit (Crossing target) s0)) as H1.
    { revert HJ. apply idleInv_frame; simpl; try done. older. }
    destruct (JsSet.has target (pendingButtons s0)); [| done].
    set (s2 := emit (Release target) _).
    assert (idleInv s2) as H2.
    { revert H1. apply idleInv_frame; simpl; try done. older. }
    destruct (processButton_frame pg target s2) as (_ & Hi & Hl).
    destruct (processButton_rest pg target s2) as (Hq & Hp & _).
    revert H2. apply idleInv_frame; try done; by rewrite ?Hi, ?Hl.
Qed.

(** *** Pending and processed *)

Lemma disjointInv_frame s s' :
  (∀ b, b ∈ pendingButtons s' -> b ∈ pendingButtons s) ->
  processedButtons s' = processedButtons s ->
  disjointInv s -> disjointInv s'.
Proof. intros Hp Hpr H b Hb. rewrite Hpr. auto. Qed.

Lemma disjointInv_callbacks s :
  reachable s -> if started s then disjointInv s else pristine s.
Proof.
  apply J_reachable.
  - intros s0 (_ & Hpe & _)%pristine_fields.
    rewrite initialize_eq. intros b. simpl. rewrite Hpe. by intros ?%elem_of_nil.
  - intros dt s0. by apply disjointInv_frame.
  - intros s0 _. unfold debouncedExpand. rewrite !clearTimeout_eq.
    by apply disjointInv_frame.
  - intros s0 _. rewrite cleanup_eq, clearTimeout_eq. by apply disjointInv_frame.
  - intros pg s0. unfold handleNavigation. destruct (negb _); [| done].
    by apply disjointInv_frame.
  - intros tm s0 _ _ _. by apply disjointInv_frame.
  - intros pg tm b s0 _ _ _ Htask.
    destruct (fireTimer_click pg tm b s0 Htask) as (extra & -> & _).
    by apply disjointInv_frame.
  - intros o s0 _. by apply disjointInv_frame.
  - intros pg b s0 Hc HJ x. simpl. rewrite JsSet_add_elem.
    intros [-> | Hx]; [| by apply HJ].
    apply andb_true_iff in Hc as [_ Hv]. by apply isValid_not_processed in Hv.
  - intros s0. apply disjointInv_frame.
    + apply processPendingButtons_pending.
    + by destruct (processPendingButtons_frame s0) as [? _].
  - intros pg s0. apply disjointInv_frame; simpl; [| done].
    by intros b [_ ?]%list_elem_of_filter.
  - intros pg k req s0 _.
    pose proof (observeEach_frame pg (buttons req)
                  (set_idleCallbacks (delete k (idleCallbacks s0)) s0))
      as (Hpr & Hpe & _).
    unfold processFunction.
    destruct (observeEach _ _ _) as [s1|e s1]; simpl in *;
      apply disjointInv_frame; simpl; by rewrite ?Hpr, ?Hpe.
  - intros pg s0 [target [|]] HJ; simpl; [| done].
    unfold JsSet.has. case_bool_decide as Hin; simpl; [| done].
    set (s2 := emit (Release target) _).
    destruct (processButton_frame pg target s2) as (Hpe & _).
    destruct (processButton_rest pg target s2) as (_ & _ & _ & Hpr).
    intros b. rewrite Hpe. subst s2. simpl.
    intros [Hne Hb]%JsSet_delete_elem [-> | Hx]%Hpr; [done |].
    by apply (HJ b).
Qed.

(** *** Processed elements were released *)

Lemma releasedInv_frame s s' :
  processedButtons s' = processedButtons s ->
  (∀ e, e ∈ log s -> e ∈ log s') ->
  releasedInv s -> releasedInv s'.
Proof.
  intros Hpr Hlog H b Hb. rewrite Hpr in Hb.
  destruct (H b Hb) as (t & ? & ?). exists t. auto.
Qed.

Lemma releasedInv_callbacks s :
  reachable s -> if started s then releasedInv s else pristine s.
Proof.
  apply J_reachable.
  - intros s0 (Hpr & _)%pristine_fields.
    rewrite initialize_eq. intros b. simpl. rewrite Hpr.
    by intros ?%elem_of_empty.
  - intros dt s0. by apply releasedInv_frame.
  - intros s0 _. unfold debouncedExpand. rewrite !clearTimeout_eq.
    apply releasedInv_frame; simpl; [done | by right].
  - intros s0 _. rewrite cleanup_eq, clearTimeout_eq. by apply releasedInv_frame.
  - intros pg s0. unfold handleNavigation. destruct (negb _); [| done].
    by apply releasedInv_frame.
  - intros tm s0 _ _ _. apply releasedInv_frame; simpl; [done | by right].
  - intros pg tm b s0 _ _ _ Htask.
    destruct (fireTimer_click pg tm b s0 Htask) as (extra & -> & _).
    apply releasedInv_frame; simpl; [done |].
    intros e He. apply elem_of_app. right. by right.
  - intros o s0 _. apply releasedInv_frame; simpl; [done | by right].
  - intros pg b s0 _. apply releasedInv_frame; simpl; [done | by right].
  - intros s0. apply releasedInv_frame.
    + by destruct (processPendingButtons_frame s0) as [? _].
    + unfold processPendingButtons. destruct (isProcessing s0); [done |].
      simpl. by right.
  - intros pg s0. by apply releasedInv_frame.
  - intros pg k req s0 _.
    pose proof (observeEach_frame pg (buttons req)
                  (set_idleCallbacks (delete k (idleCallbacks s0)) s0))
      as (Hpr & _ & _ & _ & Hlog).
    unfold processFunction.
    destruct (observeEach _ _ _) as [s1|e s1]; simpl in *;
      apply releasedInv_frame; simpl; try done.
    intros x Hx. right. auto.
  - intros pg s0 [target [|]] HJ; simpl.
    2: { done. }
    destruct (JsSet.has target (pendingButtons s0)).
    2: { revert HJ. apply releasedInv_frame; simpl; [done | by right]. }
    set (s2 := emit (Release target) _).
    destruct (processButton_frame pg target s2) as (_ & _ & Hl).
    destruct (processButton_rest pg target s2) as (_ & _ & _ & Hpr).
    intros b Hb. rewrite Hl. subst s2. simpl.
    apply Hpr in Hb as [-> | Hb].
    + exists (now s0). split; [left | right; left].
    + destruct (HJ b Hb) as (t & ? & ?). exists t. split; by do 2 right.
Qed.

(** *** The backup interval *)

Lemma backupInv_frame s s' :
  filter isBackup (timers s') = filter isBackup (timers s) ->
  backupInv s -> backupInv s'.
Proof. unfold backupInv. by intros ->. Qed.

Lemma filter_backup_clear i l bk :
  filter isBackup l = [bk] -> tid bk ≠ i ->
  filter isBackup (filter (λ tm, tid tm ≠ i) l) = [bk].
Proof.
  intros H Hne.
  assert (filter isBackup (filter (λ tm, tid tm ≠ i) l)
          = filter (λ tm, tid tm ≠ i) (filter isBackup l)) as ->.
  { rewrite !list_filter_filter. apply list_filter_iff. intros tm. tauto. }
  rewrite H. by rewrite filter_cons_True.
Qed.

Lemma backupInv_clearTimeout s :
  handleInv s -> backupInv s ->
  filter isBackup (timers (clearTimeout (debounceTimer s) s))
  = filter isBackup (timers s).
Proof.
  intros [_ Hh] [d Hb]. destruct (debounceTimer s) as [i|]; [| done]. simpl.
  rewrite Hb. apply filter_backup_clear; [done |]. simpl. intros <-.
  destruct (Hh 2 eq_refl) as [_ Ht].
  assert ({| tid := 2; due := d; task := Backup; period := Some backupPeriod |}
          ∈ filter isBackup (timers s)) as Hin by (rewrite Hb; left).
  apply list_elem_of_filter in Hin as [_ Hin].
  by specialize (Ht _ Hin eq_refl).
Qed.

Lemma backupInv_rearm tm s :
  reachable s -> tm ∈ timers s -> backupInv s ->
  ∃ d, filter isBackup (rearm tm (timers s))
       = [{| tid := 2; due := d; task := Backup; period := Some backupPeriod |}].
Proof.
  intros Hr Hin [d Hb]. apply idsInv_reachable in Hr as [Hnd _].
  assert ({| tid := 2; due := d; task := Backup; period := Some backupPeriod |}
          ∈ timers s) as Hbk.
  { assert ({| tid := 2; due := d; task := Backup; period := Some backupPeriod |}
            ∈ filter isBackup (timers s)) as H by (rewrite Hb; left).
    by apply list_elem_of_filter in H as [_ ?]. }
  unfold rearm.
  destruct (decide (tid tm = 2)) as [Heq | Hne].
  - assert (tm = {| tid := 2; due := d; task := Backup;
                    period := Some backupPeriod |}) as ->
      by by eapply NoDup_tid.
    simpl. exists (d + backupPeriod).
    rewrite filter_app, filter_cons_True by done.
    assert (filter isBackup (filter (λ x, tid x ≠ 2) (timers s))
            = filter (λ x, tid x ≠ 2) (filter isBackup (timers s))) as ->.
    { rewrite !list_filter_filter. apply list_filter_iff. intros x. tauto. }
    rewrite Hb. by rewrite filter_cons_False by (simpl; tauto).
  - exists d.
    assert (task tm ≠ Backup) as Hnb.
    { intros Ht.
      assert (tm ∈ filter isBackup (timers s)) as H
        by by apply list_elem_of_filter.
      rewrite Hb in H. apply list_elem_of_singleton in H. by subst tm. }
    assert (filter isBackup (filter (λ x, tid x ≠ tid tm) (timers s))
            = [{| tid := 2; due := d; task := Backup;
                  period := Some backupPeriod |}]) as Hf
      by (apply filter_backup_clear; [done | simpl; congruence]).
    destruct (period tm); [| done].
    rewrite filter_app, Hf, filter_cons_False by done. done.
Qed.

Lemma backupInv_callbacks s :
  reachable s -> if started s then backupInv s else pristine s.
Proof.
  apply J_reachable.
  - intros s0 (_ & _ & _ & _ & _ & _ & _ & Ht & Hid & _)%pristine_fields.
    rewrite initialize_eq. unfold backupInv. simpl. rewrite Ht, Hid. simpl.
    exists (now s0 + backupPeriod).
    rewrite filter_cons_False by done. by rewrite filter_cons_True.
  - intros dt s0. by apply backupInv_frame.
  - intros s0 Hr HJ. apply handleInv_reachable in Hr.
    pose proof (backupInv_clearTimeout s0 Hr HJ) as Hc. revert HJ.
    apply backupInv_frame. unfold debouncedExpand. simpl.
    rewrite filter_app, filter_cons_False by done. rewrite app_nil_r.
    rewrite <- Hc. by rewrite !clearTimeout_eq.
  - intros s0 Hr HJ. apply handleInv_reachable in Hr.
    pose proof (backupInv_clearTimeout s0 Hr HJ) as Hc. revert HJ.
    apply backupInv_frame. rewrite <- Hc.
    by rewrite cleanup_eq, !clearTimeout_eq.
  - intros pg s0. unfold handleNavigation. destruct (negb _); [| done].
    apply backupInv_frame. simpl.
    rewrite filter_app, filter_cons_False by done. by rewrite app_nil_r.
  - intros tm s0 Hr Hin _ HJ. by apply backupInv_rearm.
  - intros pg tm b s0 Hr Hin _ Htask HJ.
    destruct (fireTimer_click pg tm b s0 Htask) as (extra & -> & _).
    by apply backupInv_rearm.
  - intros o s0 _. by apply backupInv_frame.
  - intros pg b s0 _. by apply backupInv_frame.
  - intros s0. apply backupInv_frame.
    by destruct (processPendingButtons_frame s0) as (_ & _ & _ & -> & _).
  - intros pg s0. by apply backupInv_frame.
  - intros pg k req s0 _.
    pose proof (observeEach_frame pg (buttons req)
                  (set_idleCallbacks (delete k (idleCallbacks s0)) s0))
      as (_ & _ & Ht & _).
    unfold processFunction.
    destruct (observeEach _ _ _) as [s1|e s1]; simpl in *;
      apply backupInv_frame; simpl; by rewrite Ht.
  - intros pg s0 [target [|]] HJ; simpl; [| done].
    destruct (JsSet.has target (pendingButtons s0)); [| done].
    set (s2 := emit (Release target) _).
    destruct (processButton_rest pg target s2) as (_ & _ & Ht & _).
    revert HJ. by apply backupInv_frame.
Qed.

(** *** What holds in every state the event loop reaches *)

Lemma reachable_signalThenNavigate : reachable (stateAfter signalThenNavigate).
Proof. exists homeUrl, signalThenNavigate. by vm_compute. Qed.

Lemma reachable_atGate : reachable atGate.
Proof. exists homeUrl, (twoScans ++ at_ (timeline 1) [EvIdle 0]). by vm_compute. Qed.

(** X8 (no callback fails).  In no state the event loop reaches has a
    callback of the script ended by an exception: [observe] is never called
    while the visibility watcher is missing, and what [click()] throws is
    caught by the click closure. *)
Theorem no_uncaught_exception s t err :
  reachable s -> ¬ ((t, Uncaught err) ∈ log s).
Proof.
  intros Hr. pose proof (idleInv_callbacks s Hr) as H.
  destruct (started s).
  - destruct H as (_ & _ & H). apply H.
  - apply pristine_fields in H as (_ & _ & _ & _ & _ & _ & _ & _ & _ & _ & _ & ->).
    by intros ?%elem_of_nil.
Qed.

Lemma no_uncaught_exception_witness :
  ¬ ((5300, Uncaught "click") ∈ log (stateAfter untilClick)).
Proof.
  apply (no_uncaught_exception (stateAfter untilClick) 5300 "click").
  apply reachable_untilClick.
Defined.

(** X9 (one batch at a time).  In every state the event loop reaches, one
    idle request is queued if [isProcessing] is set and none otherwise; the
    idle callback, when it runs, empties the queue and resets the flag, so
    the flag never stays set with nothing left to reset it. *)
Theorem idle_request_iff_processing s :
  reachable s ->
  length (idleCallbacks s) = (if isProcessing s then 1 else 0)
  ∧ ∀ pg k s', step pg (EvIdle k) s = Some s' ->
               isProcessing s' = false ∧ idleCallbacks s' = [].
Proof.
  intros Hr. pose proof (idleInv_callbacks s Hr) as H.
  destruct (started s).
  - destruct H as (Hio & Hlen & Hlog). split; [done |].
    intros pg k s' Hstep. simpl in Hstep.
    destruct (idleCallbacks s !! k) as [req|] eqn:Hk; [| done].
    injection Hstep as <-.
    destruct (observeEach_Normal pg (buttons req)
                (set_idleCallbacks (delete k (idleCallbacks s)) s))
      as (s1 & Heq & _); [done | done |].
    pose proof (observeEach_frame pg (buttons req)
                  (set_idleCallbacks (delete k (idleCallbacks s)) s))
      as (_ & _ & _ & Hq1 & _).
    unfold processFunction. rewrite Heq in *. simpl in *.
    split; [done |]. rewrite Hq1. apply nil_length_inv.
    rewrite length_delete by by eexists.
    destruct (isProcessing s); lia.
  - apply pristine_fields in H
      as (_ & _ & _ & Hp & _ & _ & _ & _ & _ & Hq & _ & _).
    rewrite Hp, Hq. split; [done |]. intros pg k s'. simpl. by rewrite Hq.
Qed.

Lemma idle_request_iff_processing_witness :
  length (idleCallbacks (stateAfter twoScans))
  = (if isProcessing (stateAfter twoScans) then 1 else 0)
  ∧ ∀ pg k s', step pg (EvIdle k) (stateAfter twoScans) = Some s' ->
               isProcessing s' = false ∧ idleCallbacks s' = [].
Proof.
  apply (idle_request_iff_processing (stateAfter twoScans)).
  exists homeUrl, twoScans. by vm_compute.
Defined.

(** X10 (pending and processed are disjoint).  In every state the event
    loop reaches, no element of the pending set is in the processed set: a
    scan admits unprocessed elements only, and an element is processed as it
    leaves the pending set. *)
Theorem pending_processed_disjoint s b :
  reachable s -> b ∈ pendingButtons s -> ¬ (b ∈ processedButtons s).
Proof.
  intros Hr. pose proof (disjointInv_callbacks s Hr) as H.
  destruct (started s); [apply H |].
  apply pristine_fields in H as (_ & -> & _). by intros ?%elem_of_nil.
Qed.

Lemma pending_processed_disjoint_witness : ¬ (0 ∈ processedButtons atGate).
Proof.
  apply (pending_processed_disjoint atGate 0).
  - apply reachable_atGate.
  - apply (bool_decide_unpack _). by vm_compute.
Defined.

(** X11 (processed means released).  In every state the event loop
    reaches, an element of the processed set was reported visible by the
    visibility watcher and released from the pending set in that same turn:
    nothing else puts an element into the processed set. *)
Theorem processed_was_released s b :
  reachable s -> b ∈ processedButtons s ->
  ∃ t, (t, Release b) ∈ log s ∧ (t, Crossing b) ∈ log s.
Proof.
  intros Hr. pose proof (releasedInv_callbacks s Hr) as H.
  destruct (started s); [apply H |].
  apply pristine_fields in H as (-> & _). by intros ?%elem_of_empty.
Qed.

Lemma processed_was_released_witness :
  ∃ t, (t, Release 0) ∈ log (stateAfter untilRelease)
       ∧ (t, Crossing 0) ∈ log (stateAfter untilRelease).
Proof.
  apply (processed_was_released (stateAfter untilRelease) 0).
  - apply reachable_untilRelease.
  - apply (bool_decide_unpack _). by vm_compute.
Defined.

(** X12 (the backup scan stays).  Once [initialize] has run, every state
    the event loop reaches has exactly one backup scan queued: the interval
    of 5 s under the handle [initialize] got.  No debounce signal, rescan,
    click or teardown takes it off the queue. *)
Theorem backup_interval_persists s :
  reachable s -> started s = true ->
  ∃ d, filter isBackup (timers s)
       = [{| tid := 2; due := d; task := Backup; period := Some 5000 |}].
Proof.
  intros Hr Hst. pose proof (backupInv_callbacks s Hr) as H.
  by rewrite Hst in H.
Qed.

Lemma backup_interval_persists_witness :
  ∃ d, filter isBackup (timers tornDown)
       = [{| tid := 2; due := d; task := Backup; period := Some 5000 |}].
Proof.
  apply (backup_interval_persists tornDown).
  - exists homeUrl, (untilRelease ++ at_ (timeline 1) [EvBeforeUnload]).
    by vm_compute.
  - by vm_compute.
Defined.

(** X13 (teardown before the start).  As long as [initialize] has not
    run, [cleanup] changes nothing, and [initialize] can still run
    afterwards. *)
Theorem cleanup_before_initialize s :
  reachable s -> started s = false ->
  cleanup s = s
  ∧ ∀ pg, step pg EvReady (cleanup s) = Some (initialize (set_started true s)).
Proof.
  intros Hr Hst. pose proof (pristine_reachable s Hr Hst) as Hp.
  rewrite (cleanup_pristine s Hp). split; [done |].
  intros pg. simpl. by rewrite Hst.
Qed.

Lemma cleanup_before_initialize_witness :
  cleanup (boot homeUrl) = boot homeUrl
  ∧ ∀ pg, step pg EvReady (cleanup (boot homeUrl))
          = Some (initialize (set_started true (boot homeUrl))).
Proof.
  apply (cleanup_before_initialize (boot homeUrl)).
  - by exists homeUrl, [].
  - done.
Defined.

(** *** What a debounce signal cancels *)

Lemma filter_agree {A} (P Q : A -> Prop) `{!∀ x, Decision (P x)}
  `{!∀ x, Decision (Q x)} (l : list A) :
  (∀ x, x ∈ l -> P x ↔ Q x) -> filter P l = filter Q l.
Proof.
  induction l as [|x l IH]; intros Hl; [done |].
  rewrite !filter_cons.
  destruct (decide (P x)) as [Hp | Hp], (decide (Q x)) as [Hq | Hq].
  - f_equal. apply IH. intros y Hy. apply Hl. by right.
  - destruct Hq. apply Hl; [left | done].
  - destruct Hp. apply Hl; [left | done].
  - apply IH. intros y Hy. apply Hl. by right.
Qed.

Lemma filter_all {A} (P : A -> Prop) `{!∀ x, Decision (P x)} (l : list A) :
  (∀ x, x ∈ l -> P x) -> filter P l = l.
Proof.
  induction l as [|x l IH]; intros Hl; [done |].
  rewrite filter_cons_True by (apply Hl; left).
  f_equal. apply IH. intros y Hy. apply Hl. by right.
Qed.

(** X14 (what a signal cancels).  In a state the event loop has reached,
    [debouncedExpand] takes the debounced rescans off the queue and nothing
    else: the initial scan, a rescan after navigation, the clicks and the
    backup scan stay queued in their order, and one debounced rescan joins
    them, due 200 ms ahead. *)
Theorem signal_cancels_rescans_only s :
  reachable s ->
  timers (debouncedExpand s)
  = filter (λ tm, task tm ≠ DebouncedScan) (timers s)
    ++ [{| tid := nextTimerId s; due := now s + 200; task := DebouncedScan;
           period := None |}].
Proof.
  intros Hr.
  destruct (handleInv_reachable s Hr) as [_ Hh].
  destruct (debounceInv_reachable s Hr) as (_ & Hd & _).
  unfold debouncedExpand. rewrite !clearTimeout_eq. simpl. f_equal.
  destruct (debounceTimer s) as [i|] eqn:Hi.
  - apply filter_agree. intros tm Hin. split.
    + intros Hne Ht. apply Hd in Ht; [| done]. congruence.
    + intros Hne Heq. destruct (Hh i eq_refl) as [_ Ht]. by apply Hne, Ht.
  - symmetry. apply filter_all. intros tm Hin Ht. apply Hd in Ht; done.
Qed.

Lemma signal_cancels_rescans_only_witness :
  timers (debouncedExpand (stateAfter signalThenNavigate))
  = filter (λ tm, task tm ≠ DebouncedScan) (timers (stateAfter signalThenNavigate))
    ++ [{| tid := nextTimerId (stateAfter signalThenNavigate);
           due := now (stateAfter signalThenNavigate) + 200;
           task := DebouncedScan; period := None |}].
Proof.
  apply (signal_cancels_rescans_only (stateAfter signalThenNavigate)).
  apply reachable_signalThenNavigate.
Defined.

(** *** Processed with no click to come *)

Lemma shelved_frame b s s' :
  (b ∈ processedButtons s -> b ∈ processedButtons s') ->
  attempts b s' = attempts b s ->
  armed b s' ≤ armed b s ->
  shelved b s -> shelved b s'.
Proof. intros Hp Ha Hr [Hin Hz]. split; [auto | lia]. Qed.

Lemma shelved_micro pg b s s' : micro pg s s' -> shelved b s -> shelved b s'.
Proof.
  intros Hm.
  destruct Hm as [o s Ho|b0 s _|s Hp|b0 targets s _|k s|s|b0 s _|b0 s _|s|s _|s];
    try (by apply shelved_frame).
  - apply shelved_frame; try done; by destruct o.
  - unfold processPendingButtons. rewrite Hp. by apply shelved_frame.
  - intros [Hin Hz]. destruct (decide (b0 = b)) as [-> | Hne];
      [by rewrite processButton_processed |].
    unfold processButton. destruct (isValidShowMoreButton pg s b0); [| done].
    destruct (findTweetContainer (element pg b0)); simpl;
      (split; [by apply elem_of_union_r |]);
      unfold attempts, armed in *; simpl; [| done].
    rewrite armed_snoc, isClickTimer_click, bool_decide_eq_false_2 by done. lia.
  - rewrite initialize_eq. apply shelved_frame; try done.
    unfold armed. simpl. rewrite !armed_snoc. simpl. lia.
  - unfold handleNavigation. destruct (negb _); [| done].
    apply shelved_frame; try done.
    unfold armed. simpl. rewrite armed_snoc. simpl. lia.
Qed.

Lemma shelved_step pg ev b s s' :
  step pg ev s = Some s' -> shelved b s -> shelved b s'.
Proof.
  apply Inv_step with (tickOk := λ _ _, True); try done.
  - intros pg0 s0 s0'. apply shelved_micro.
  - intros s0. unfold debouncedExpand. rewrite !clearTimeout_eq.
    apply shelved_frame; try done.
    unfold armed. simpl. rewrite armed_snoc. simpl.
    destruct (debounceTimer s0) as [i|]; [| lia].
    pose proof (count_filter_le (isClickTimer b) (λ tm, tid tm ≠ i) (timers s0)).
    lia.
  - intros s0. rewrite cleanup_eq, clearTimeout_eq. apply shelved_frame; try done.
    unfold armed. simpl. destruct (debounceTimer s0); [| done].
    apply count_filter_le.
  - intros tm s0 Hin _ Hno. apply shelved_frame; try done.
    + rewrite attempts_fireStart. unfold isAttempt. simpl.
      destruct (task tm) as [| | |b0|] eqn:Ht; try done. by destruct (Hno b0).
    + rewrite armed_fireStart. by apply count_rearm_le.
  - intros pg0 tm b0 s0 Hin _ Htask [Hp Hz].
    assert (b0 ≠ b) as Hne.
    { intros ->. assert (0 < armed b s0); [| lia].
      apply count_pos. exists tm. split; [done |].
      unfold isClickTimer. rewrite Htask. by apply bool_decide_eq_true. }
    assert (armed b (fireStart tm s0) ≤ armed b s0) as Harm
      by (rewrite armed_fireStart; by apply count_rearm_le).
    assert (attempts b (fireStart tm s0) = attempts b s0) as Hatt.
    { rewrite attempts_fireStart, Htask. unfold isAttempt. simpl.
      by rewrite bool_decide_eq_false_2. }
    unfold fireTimer. rewrite Htask. simpl.
    destruct (clickTask_cases pg0 b0 (fireStart tm s0)) as [-> | [-> | ->]];
      simpl; (split; [done |]);
      rewrite ?attempts_emit, ?armed_emit, Hatt; simpl; lia.
Qed.

(** X15 (a button outside any tweet).  A pending button that passes the
    validation but has no tweet container among its first ten ancestors is,
    when the visibility watcher reports it, put into the processed set with
    no click queued.  From then on it is never clicked and no scan admits
    it again, whatever the page turns into. *)
Theorem stray_button_never_clicked pg b s s1 tr s' :
  reachable s ->
  b ∈ pendingButtons s ->
  isValidShowMoreButton pg s b = true ->
  findTweetContainer (element pg b) = None ->
  step pg (EvIntersections [(b, true)]) s = Some s1 ->
  run tr s1 = Some s' ->
  b ∈ processedButtons s' ∧ clicks b s' = 0 ∧ armed b s' = 0
  ∧ ∀ pg', isCandidate pg' s' b = false.
Proof.
  intros Hr Hpend Hv Hc Hstep Hrun.
  assert (reachable s') as Hr'
    by (eapply reachable_run; [by eapply reachable_next | done]).
  assert (shelved b s1) as Hs1.
  { destruct (clickInv_reachable s Hr) as [_ Hb].
    destruct (Hb b) as (_ & _ & Hin).
    pose proof (isValid_not_processed _ _ _ Hv) as Hnp.
    assert (attempts b s + armed b s = 0) as Hz
      by (destruct (attempts b s + armed b s); [done | exfalso; apply Hnp, Hin; lia]).
    simpl in Hstep. destruct (intersectionObserver s); [| done].
    injection Hstep as Heq. rewrite <- Heq. unfold onIntersections. simpl.
    unfold JsSet.has. rewrite bool_decide_eq_true_2 by done.
    set (s2 := emit (Release b) _).
    assert (isValidShowMoreButton pg s2 b = true) as Hv2 by exact Hv.
    unfold processButton. rewrite Hv2, Hc. simpl.
    split; [by apply elem_of_union_l, elem_of_singleton | exact Hz]. }
  assert (shelved b s') as [Hin Hz].
  { revert Hs1. apply (run_invariant (shelved b) tr); [| done].
    intros pg0 ev s0 s0'. apply shelved_step. }
  destruct (clickInv_reachable s' Hr') as [_ Hb].
  destruct (Hb b) as (_ & Hcl & _).
  split_and!; [done | lia | lia |].
  intros pg'. by apply isCandidate_processed.
Qed.

Lemma stray_button_never_clicked_witness :
  0 ∈ processedButtons (stateAfter (strayRelease ++ strayLater))
  ∧ clicks 0 (stateAfter (strayRelease ++ strayLater)) = 0
  ∧ armed 0 (stateAfter (strayRelease ++ strayLater)) = 0
  ∧ ∀ pg', isCandidate pg' (stateAfter (strayRelease ++ strayLater)) 0 = false.
Proof.
  apply (stray_button_never_clicked strayPage 0 strayGate
           (stateAfter strayRelease) strayLater).
  - exists homeUrl, untilStrayGate. by vm_compute.
  - apply (bool_decide_unpack _). by vm_compute.
  - by vm_compute.
  - by vm_compute.
  - by vm_compute.
  - by vm_compute.
Defined.

(** *** Clicks wait for the delay *)

Lemma observeEach_new pg batch s e :
  e ∈ log (final (observeEach pg batch s)) ->
  e ∈ log s ∨ ∃ b, e.2 = Observe b.
Proof.
  revert s. induction batch as [|b rest IH]; intros s; simpl; [by left |].
  destruct (isConnected (element pg b)); [| apply IH].
  unfold observe. destruct (intersectionObserver s) as [targets|]; simpl;
    [| by left].
  intros [He | He]%IH; [| by right]. simpl in He.
  apply elem_of_cons in He as [-> | He]; [right; by exists b | by left].
Qed.

Lemma delayInv_frame s s' :
  (∀ tm, tm ∈ timers s' -> tm ∈ timers s ∨ ∀ b, task tm ≠ Click b) ->
  (∀ e, e ∈ log s -> e ∈ log s') ->
  (∀ t b, (t, Clicked b) ∈ log s' -> (t, Clicked b) ∈ log s) ->
  delayInv s -> delayInv s'.
Proof.
  intros Ht Hl Hc [H1 H2]. split.
  - intros tm b [Hin | Hno]%Ht Htask; [| by destruct (Hno b)].
    destruct (H1 tm b Hin Htask) as (t & ? & ?). exists t. auto.
  - intros t b Hin%Hc. destruct (H2 t b Hin) as (t' & ? & ?). exists t'. auto.
Qed.

Lemma delayInv_callbacks s :
  reachable s -> if started s then delayInv s else pristine s.
Proof.
  apply J_reachable.
  - intros s0 (_ & _ & _ & _ & _ & _ & _ & Ht & _ & _ & _ & Hl)%pristine_fields.
    rewrite initialize_eq. unfold delayInv. simpl. rewrite Ht, Hl. split.
    + intros tm b Hin Htask. simpl in Hin.
      repeat (apply elem_of_cons in Hin as [-> | Hin]; [done |]).
      by apply elem_of_nil in Hin.
    + intros t b Hin.
      repeat (apply elem_of_cons in Hin as [[=] | Hin]).
      by apply elem_of_nil in Hin.
  - intros dt s0. apply delayInv_frame; auto.
  - intros s0 _. unfold debouncedExpand. rewrite !clearTimeout_eq.
    apply delayInv_frame; simpl; [| by right | older].
    intros tm [Hin | ->%list_elem_of_singleton]%elem_of_app; [| by right].
    left. destruct (debounceTimer s0); [| done].
    by apply list_elem_of_filter in Hin as [_ ?].
  - intros s0 _. rewrite cleanup_eq, clearTimeout_eq.
    apply delayInv_frame; simpl; [| done | done].
    intros tm Hin. left. destruct (debounceTimer s0); [| done].
    by apply list_elem_of_filter in Hin as [_ ?].
  - intros pg s0. unfold handleNavigation. destruct (negb _); [| done].
    apply delayInv_frame; simpl; [| done | done].
    intros tm [Hin | ->%list_elem_of_singleton]%elem_of_app; [by left | by right].
  - intros tm s0 _ Hin Hno. apply delayInv_frame; simpl; [| by right | older].
    intros tm' [? | [_ Ht]]%elem_of_rearm_periodic; [by left |].
    right. by rewrite Ht.
  - intros pg tm b s0 Hr Hin Hdue Htask [H1 H2].
    destruct (clickInv_reachable s0 Hr) as [Hone _].
    assert (period tm = None) as Hper.
    { destruct (period tm) eqn:Hp; [| done].
      specialize (Hone tm Hin). rewrite Hp, Htask in Hone. by discriminate Hone. }
    destruct (fireTimer_click pg tm b s0 Htask) as (extra & -> & Hex).
    split; simpl.
    + intros tm' b' [Hin' | [? _]]%elem_of_rearm_periodic Htask'; [| done].
      destruct (H1 tm' b' Hin' Htask') as (t & ? & ?). exists t.
      split; [| done]. apply elem_of_app. right. by right.
    + intros t b' [Hin' | Hin']%elem_of_app.
      * assert (t = now s0 ∧ b' = b) as [-> ->].
        { destruct Hex as [-> | [-> | ->]];
            repeat (apply elem_of_cons in Hin' as [[=] | Hin']);
            try (by apply elem_of_nil in Hin'); by subst. }
        destruct (H1 tm b Hin Htask) as (t' & ? & Hd). exists t'.
        split; [| lia]. apply elem_of_app. right. by right.
      * apply elem_of_cons in Hin' as [[=] | Hin'].
        destruct (H2 t b' Hin') as (t' & ? & ?). exists t'.
        split; [| done]. apply elem_of_app. right. by right.
  - intros o s0 Ho. apply delayInv_frame; simpl; [by left | by right |].
    intros t b [[= _ <-] | ?]%elem_of_cons; done.
  - intros pg b s0 _. apply delayInv_frame; simpl; [by left | by right | older].
  - intros s0. unfold processPendingButtons. destruct (isProcessing s0); [done |].
    apply delayInv_frame; simpl; [by left | by right | older].
  - intros pg s0. apply delayInv_frame; simpl; auto.
  - intros pg k req s0 _.
    pose proof (observeEach_frame pg (buttons req)
                  (set_idleCallbacks (delete k (idleCallbacks s0)) s0))
      as (_ & _ & Ht & _ & Hlog).
    pose proof (observeEach_new pg (buttons req)
                  (set_idleCallbacks (delete k (idleCallbacks s0)) s0)) as Hnew.
    unfold processFunction.
    destruct (observeEach _ _ _) as [s1|e s1]; simpl in *;
      apply delayInv_frame; simpl; rewrite ?Ht; auto.
    + intros t b [? | [? [=]]]%Hnew. done.
    + intros x Hx. right. auto.
    + intros t b [[=] | [? | [? [=]]]%Hnew]%elem_of_cons. done.
  - intros pg s0 [target [|]] HJ; simpl; [| done].
    assert (delayInv (emit (Crossing target) s0)) as H0.
    { revert HJ. apply delayInv_frame; simpl; [by left | by right | older]. }
    destruct (JsSet.has target (pendingButtons s0)); [| done].
    set (s2 := emit (Release target) _).
    assert (delayInv s2) as [H1 H2].
    { revert H0. apply delayInv_frame; simpl; [by left | by right | older]. }
    destruct (processButton_frame pg target s2) as (_ & _ & Hl).
    unfold delayInv. rewrite Hl. split; [| done].
    intros tm b. unfold processButton.
    destruct (isValidShowMoreButton pg s2 target); [| by apply H1].
    destruct (findTweetContainer _); simpl; [| by apply H1].
    intros [Hin | ->%list_elem_of_singleton]%elem_of_app; [by apply H1 |].
    simpl. intros [= <-]. exists (now s0). split; [left | done].
Qed.

(** X16 (the click delay).  In every state the event loop reaches, a call
    of [click()] on an element was made at least 300 ms after the element
    was released from the pending set, and every click still queued is due
    exactly 300 ms after such a release. *)
Theorem click_waits_for_delay s :
  reachable s ->
  (∀ t b, (t, Clicked b) ∈ log s ->
          ∃ t', (t', Release b) ∈ log s ∧ t' + 300 ≤ t)
  ∧ (∀ tm b, tm ∈ timers s -> task tm = Click b ->
             ∃ t', (t', Release b) ∈ log s ∧ due tm = t' + 300).
Proof.
  intros Hr. pose proof (delayInv_callbacks s Hr) as H.
  destruct (started s).
  - destruct H as [H1 H2]. split; [apply H2 | apply H1].
  - apply pristine_fields in H
      as (_ & _ & _ & _ & _ & _ & _ & -> & _ & _ & _ & ->).
    split; [by intros ? ? ?%elem_of_nil | by intros ? ? ?%elem_of_nil].
Qed.

Lemma click_waits_for_delay_witness :
  (∀ t b, (t, Clicked b) ∈ log (stateAfter untilClick) ->
          ∃ t', (t', Release b) ∈ log (stateAfter untilClick) ∧ t' + 300 ≤ t)
  ∧ (∀ tm b, tm ∈ timers (stateAfter untilClick) -> task tm = Click b ->
             ∃ t', (t', Release b) ∈ log (stateAfter untilClick)
                   ∧ due tm = t' + 300).
Proof.
  apply (click_waits_for_delay (stateAfter untilClick)).
  apply reachable_untilClick.
Defined.

(** *** Where clicks come from *)

Lemma clicks_micro pg b s s' : micro pg s s' -> clicks b s' = clicks b s.
Proof.
  intros Hm.
  destruct Hm as [o s Ho|b0 s _|s Hp|b0 targets s _|k s|s|b0 s _|b0 s _|s|s _|s];
    try done.
  - by destruct o.
  - unfold processPendingButtons. by rewrite Hp.
  - unfold clicks. by destruct (processButton_frame pg b0 s) as (_ & _ & ->).
  - by rewrite initialize_eq.
  - unfold handleNavigation. by destruct (negb _).
Qed.

Lemma clicks_micros pg b s s' : micros pg s s' -> clicks b s' = clicks b s.
Proof.
  intros Hm.
  apply (Inv_micros (λ x, clicks b x = clicks b s)
           (λ pg0 s0 s0' H0 Heq, eq_trans (clicks_micro pg0 b s0 s0' H0) Heq)
           pg s s' Hm eq_refl).
Qed.

(** X17 (where clicks come from).  One turn of the event loop clicks an
    element at most once, and only a click timer of that element that has
    come due does so, on an element that is attached and enabled at that
    moment: no scan, change notification, visibility report, idle callback,
    navigation check or teardown clicks anything itself. *)
Theorem clicks_come_from_click_timers pg ev s s' b :
  step pg ev s = Some s' ->
  clicks b s' ≤ S (clicks b s)
  ∧ (clicks b s' ≠ clicks b s ->
     ∃ i tm, ev = EvTimer i ∧ tm ∈ timers s ∧ tid tm = i ∧ task tm = Click b
             ∧ due tm ≤ now s
             ∧ isConnected (element pg b) = true
             ∧ disabled (element pg b) = false).
Proof.
  intros Hstep. apply step_cases in Hstep.
  assert (∀ x, clicks b x = clicks b s ->
               clicks b x ≤ S (clicks b s)
               ∧ (clicks b x ≠ clicks b s ->
                  ∃ i tm, ev = EvTimer i ∧ tm ∈ timers s ∧ tid tm = i
                          ∧ task tm = Click b ∧ due tm ≤ now s
                          ∧ isConnected (element pg b) = true
                          ∧ disabled (element pg b) = false)) as Hsame
    by (intros x ->; split; [lia | done]).
  destruct ev as [|mutations| |i|k|entries| |dt];
    try (apply Hsame; by eapply clicks_micros).
  - destruct Hstep as [_ ->]. apply Hsame.
    destruct (shouldProcess mutations); [| done].
    unfold debouncedExpand. by rewrite !clearTimeout_eq.
  - destruct Hstep as (tm & Hin & Hid & Hdue & Hrest).
    destruct (task tm) as [| | |b0|] eqn:Htask;
      try (apply Hsame; by rewrite (clicks_micros _ _ _ _ Hrest)).
    subst s'. unfold fireTimer. rewrite Htask. simpl.
    unfold clickTask, click.
    destruct (isConnected (element pg b0)) eqn:Hc; simpl; [| by apply Hsame].
    destruct (disabled (element pg b0)) eqn:Hd; simpl; [by apply Hsame |].
    destruct (click_raises (element pg b0)); simpl; [by apply Hsame |].
    rewrite !clicks_emit, clicks_fireStart. unfold isClicked. simpl.
    case_bool_decide as Heq; [subst b0 | by apply Hsame].
    split; [lia |]. intros _. by exists i, tm.
  - subst s'. apply Hsame. by rewrite cleanup_eq, clearTimeout_eq.
  - subst s'. by apply Hsame.
Qed.

Lemma clicks_come_from_click_timers_witness :
  clicks 0 (stateAfter untilClick) ≤ S (clicks 0 (advance 300 (stateAfter untilRelease)))
  ∧ (clicks 0 (stateAfter untilClick)
     ≠ clicks 0 (advance 300 (stateAfter untilRelease)) ->
     ∃ i tm, EvTimer 3 = EvTimer i
             ∧ tm ∈ timers (advance 300 (stateAfter untilRelease))
             ∧ tid tm = i ∧ task tm = Click 0
             ∧ due tm ≤ now (advance 300 (stateAfter untilRelease))
             ∧ isConnected (element (timeline 1) 0) = true
             ∧ disabled (element (timeline 1) 0) = false).
Proof.
  apply (clicks_come_from_click_timers (timeline 1) (EvTimer 3)
           (advance 300 (stateAfter untilRelease)) (stateAfter untilClick) 0).
  by vm_compute.
Defined.

(** *** The two validations *)

Lemma append_cons x (a b : string) : String x a +:+ b = String x (a +:+ b).
Proof. done. Qed.

Lemma append_nil (b : string) : "" +:+ b = b.
Proof. done. Qed.

Lemma prefix_append n post : String.prefix n (n +:+ post) = true.
Proof.
  induction n as [|a n IH]; [by destruct post |].
  rewrite append_cons. simpl. by destruct (Ascii.ascii_dec a a).
Qed.

Lemma prefix_split n h : String.prefix n h = true -> ∃ post, h = n +:+ post.
Proof.
  revert h. induction n as [|a n IH]; intros h.
  - intros _. by exists h.
  - destruct h as [|c h]; simpl; [done |].
    destruct (Ascii.ascii_dec a c) as [<- |]; [| done].
    intros [post ->]%IH. by exists post.
Qed.

Lemma includes_prefix n h : String.prefix n h = true -> includes n h = true.
Proof. intros H. destruct h; simpl in *; by rewrite H. Qed.

Lemma includes_append n pre post : includes n (pre +:+ n +:+ post) = true.
Proof.
  induction pre as [|a pre IH].
  - rewrite append_nil. apply includes_prefix, prefix_append.
  - rewrite append_cons. simpl. rewrite IH. apply orb_true_r.
Qed.

Lemma includes_split n h :
  includes n h = true -> ∃ pre post, h = pre +:+ n +:+ post.
Proof.
  assert (∀ x, includes n x
               = String.prefix n x
                 || match x with
                    | EmptyString => false
                    | String _ rest => includes n rest
                    end) as Hunfold by by intros [|? ?].
  induction h as [|c h IH]; rewrite Hunfold.
  - rewrite orb_false_r. intros [post ->]%prefix_split. by exists EmptyString, post.
  - intros [[post ->]%prefix_split | (pre & post & ->)%IH]%orb_true_iff.
    + by exists EmptyString, post.
    + by exists (String c pre), post.
Qed.

Lemma append_assoc (a b c : string) : (a +:+ b) +:+ c = a +:+ (b +:+ c).
Proof.
  induction a as [|x a IH]; [done |]. rewrite !append_cons. by f_equal.
Qed.

Lemma trimStart_append pre rest :
  Legacy.trimStart rest = rest ->
  ∃ pre', Legacy.trimStart (pre +:+ rest) = pre' +:+ rest.
Proof.
  intros Hrest. induction pre as [|a pre IH].
  - exists EmptyString. by rewrite append_nil.
  - rewrite append_cons. simpl.
    destruct (Legacy.isSpace a); [done | by exists (String a pre)].
Qed.

Lemma list_ascii_append (a b : string) :
  String.list_ascii_of_string (a +:+ b)
  = String.list_ascii_of_string a ++ String.list_ascii_of_string b.
Proof.
  induction a as [|x a IH]; [done |]. rewrite append_cons. simpl. by f_equal.
Qed.

Lemma string_of_list_app (l1 l2 : list Ascii.ascii) :
  String.string_of_list_ascii (l1 ++ l2)
  = String.string_of_list_ascii l1 +:+ String.string_of_list_ascii l2.
Proof.
  induction l1 as [|x l1 IH]; [done |]. simpl. rewrite append_cons. by f_equal.
Qed.

Lemma reverse_append (a b : string) :
  Legacy.reverse (a +:+ b) = Legacy.reverse b +:+ Legacy.reverse a.
Proof.
  unfold Legacy.reverse.
  by rewrite list_ascii_append, rev_app_distr, string_of_list_app.
Qed.

Lemma reverse_involutive (a : string) : Legacy.reverse (Legacy.reverse a) = a.
Proof.
  unfold Legacy.reverse.
  by rewrite String.list_ascii_of_string_of_list_ascii, rev_involutive,
    String.string_of_list_ascii_of_string.
Qed.

Lemma toLowerCase_append (a b : string) :
  Legacy.toLowerCase (a +:+ b) = Legacy.toLowerCase a +:+ Legacy.toLowerCase b.
Proof.
  induction a as [|x a IH]; [done |]. rewrite append_cons. simpl.
  rewrite append_cons. by f_equal.
Qed.

(** The label test of the optimized script implies the one of the earlier
    variant, which trims and folds the case first. *)
Lemma label_test_implies text :
  includes "Show more" text = true ->
  includes "show more" (Legacy.toLowerCase (Legacy.trim text)) = true.
Proof.
  intros (pre & post & ->)%includes_split. unfold Legacy.trim.
  destruct (trimStart_append pre ("Show more" +:+ post) eq_refl) as [pre' ->].
  rewrite !reverse_append, append_assoc.
  destruct (trimStart_append (Legacy.reverse post)
              (Legacy.reverse "Show more" +:+ Legacy.reverse pre') eq_refl)
    as [post' ->].
  rewrite !reverse_append, !reverse_involutive.
  rewrite append_assoc, !toLowerCase_append.
  apply includes_append.
Qed.

Lemma climb_found current fuel a :
  climb current fuel = Some a -> a ∈ current ∧ isTweetContainer a = true.
Proof.
  revert current. induction fuel as [|k IH]; intros [|x up]; simpl; try done.
  destruct (isTweetContainer x) eqn:Hx.
  - intros [= <-]. split; [left | done].
  - intros [? ?]%IH. split; [by right | done].
Qed.

(** X18 (the earlier variant agrees).  A button the optimized script
    dispatches, that is one that passes [isValidShowMoreButton] and has a
    tweet container among its first ten ancestors, is accepted by
    [isShowMoreButton] of the earlier variant too, whenever that variant
    finds it visible: the label test in exact case implies the trimmed and
    case-folded one, and a tweet container is a tweet context. *)
Theorem earlier_variant_agrees pg s b :
  isValidShowMoreButton pg s b = true ->
  findTweetContainer (element pg b) ≠ None ->
  Legacy.isElementVisible (element pg b) = true ->
  Legacy.isShowMoreButton (element pg b) = true.
Proof.
  intros (Hc & _ & Ht & _ & _ & Hl)%isValid_sound Hf Hv.
  unfold Legacy.isShowMoreButton.
  rewrite Hc, Ht, (label_test_implies _ Hl), Hv. simpl.
  destruct (findTweetContainer (element pg b)) as [a|] eqn:Ha; [| done].
  apply climb_found in Ha as [Hin Ha].
  assert (existsb Legacy.isTweetContext (ancestors (element pg b)) = true) as ->;
    [| done].
  apply existsb_exists. exists a. rewrite <- list_elem_of_In. split; [done |].
  unfold isTweetContainer in Ha. unfold Legacy.isTweetContext.
  apply orb_true_iff in Ha as [-> | ->]; [done | apply orb_true_r].
Qed.

Lemma earlier_variant_agrees_witness :
  Legacy.isShowMoreButton (element (timeline 1) 0) = true.
Proof.
  apply (earlier_variant_agrees (timeline 1) beforeFirstScan 0);
    by vm_compute.
Defined.

(** *** From the gate to the click *)

Lemma lookupTimer_new i l tm :
  (∀ x, x ∈ l -> tid x ≠ i) -> tid tm = i ->
  lookupTimer i (l ++ [tm]) = Some tm.
Proof.
  intros Hl Hi. unfold lookupTimer. rewrite filter_app.
  assert (filter (λ x, tid x = i) l = []) as ->.
  { induction l as [|x l IH]; [done |].
    rewrite filter_cons_False by (apply Hl; left).
    apply IH. intros y Hy. apply Hl. by right. }
  by rewrite filter_cons_True.
Qed.

(** X19 (a released button is clicked).  In a reachable state, let a
    button be pending and watched, pass the validation, lie in a tweet and
    be enabled, with a [click()] that does not throw.  When the visibility
    watcher reports it and 300 ms pass, its click timer fires and clicks it:
    that is its first and only click. *)
Theorem released_button_is_clicked pg b s :
  reachable s ->
  b ∈ pendingButtons s ->
  isObserved b s = true ->
  isValidShowMoreButton pg s b = true ->
  findTweetContainer (element pg b) ≠ None ->
  disabled (element pg b) = false ->
  click_raises (element pg b) = false ->
  ∃ s', run (at_ pg [EvIntersections [(b, true)]; EvTick 300;
                     EvTimer (nextTimerId s)]) s = Some s'
        ∧ (now s + 300, Clicked b) ∈ log s'
        ∧ clicks b s' = 1.
Proof.
  intros Hr Hpend Hobs Hv Hc Hd Hraise.
  destruct (isValid_sound pg s b Hv) as (Hconn & Hnp & _).
  destruct (clickInv_reachable s Hr) as [_ Hb].
  destruct (Hb b) as (_ & Hcl & Hin).
  assert (clicks b s = 0) as Hzero.
  { destruct (attempts b s + armed b s) eqn:Hz; [lia |].
    destruct Hnp. apply Hin. lia. }
  destruct (idsInv_reachable s Hr) as [_ Hlt].
  set (s2 := emit (Release b)
               (set_pendingButtons (JsSet.delete b (pendingButtons s))
                  (emit (Crossing b) s))).
  set (s1 := setTimeout (Click b) CONFIG.clickDelay
               (set_processedButtons ({[b]} ∪ processedButtons s2) s2)).
  assert (step pg (EvIntersections [(b, true)]) s = Some s1) as H1.
  { simpl. unfold isObserved in Hobs.
    destruct (intersectionObserver s); [| done]. f_equal.
    unfold onIntersections. simpl. unfold JsSet.has.
    rewrite bool_decide_eq_true_2 by done. fold s2.
    assert (isValidShowMoreButton pg s2 b = true) as Hv2 by exact Hv.
    unfold processButton. rewrite Hv2. simpl.
    by destruct (findTweetContainer (element pg b)). }
  set (tm := {| tid := nextTimerId s; due := now s + 300; task := Click b;
                period := None |}).
  assert (lookupTimer (nextTimerId s) (timers (advance 300 s1)) = Some tm) as Hl.
  { apply lookupTimer_new; [| done]. intros x Hx%Hlt. lia. }
  assert (fireTimer pg tm (advance 300 s1)
          = emit (ConsoleLog MsgExpanded)
              (emit (Clicked b) (fireStart tm (advance 300 s1)))) as Hfire.
  { unfold fireTimer. change (task tm) with (Click b). cbn [runTask].
    unfold clickTask, click. by rewrite Hconn, Hd, Hraise. }
  exists (fireTimer pg tm (advance 300 s1)).
  split_and!.
  - unfold at_. cbn [map run]. rewrite H1.
    change (step pg (EvTick 300) s1) with (Some (advance 300 s1)).
    cbn [step]. rewrite Hl. cbn [due tm].
    by rewrite (proj2 (Nat.leb_le _ _)) by (simpl; lia).
  - rewrite Hfire. simpl. right. left.
  - rewrite Hfire, !clicks_emit, clicks_fireStart.
    unfold isClicked. simpl. rewrite bool_decide_eq_true_2 by done.
    change (clicks b (advance 300 s1)) with (clicks b s). lia.
Qed.

Lemma released_button_is_clicked_witness :
  ∃ s', run (at_ (timeline 1) [EvIntersections [(0, true)]; EvTick 300;
                               EvTimer (nextTimerId atGate)]) atGate = Some s'
        ∧ (now atGate + 300, Clicked 0) ∈ log s'
        ∧ clicks 0 s' = 1.
Proof.
  apply (released_button_is_clicked (timeline 1) 0 atGate).
  - apply reachable_atGate.
  - apply (bool_decide_unpack _). by vm_compute.
  - by vm_compute.
  - by vm_compute.
  - by vm_compute.
  - by vm_compute.
  - by vm_compute.
Defined.

(** *** From a rescan to the gate *)

Lemma lookupTimer_NoDup l tm :
  NoDup (tid <$> l) -> tm ∈ l -> lookupTimer (tid tm) l = Some tm.
Proof.
  intros Hnd Hin. unfold lookupTimer.
  assert (∀ x, x ∈ l -> tid x = tid tm -> x = tm) as Hinj
    by (intros x Hx Heq; by eapply NoDup_tid).
  clear Hnd. induction l as [|x l IH]; [by apply elem_of_nil in Hin |].
  destruct (decide (tid x = tid tm)) as [Heq | Hne].
  - rewrite filter_cons_True by done. simpl. f_equal. apply Hinj; [left | done].
  - rewrite filter_cons_False by done. apply IH.
    + apply elem_of_cons in Hin as [-> | Hin]; done.
    + intros y Hy. apply Hinj. by right.
Qed.

(** A scan that finds a batch waiting admits its candidates and leaves
    them pending. *)
Lemma scan_while_processing pg s b :
  isProcessing s = true ->
  b ∈ querySelectorAll pg -> isCandidate pg s b = true ->
  b ∈ pendingButtons (findNewButtons pg s).2
  ∧ idleCallbacks (findNewButtons pg s).2 = idleCallbacks s
  ∧ isProcessing (findNewButtons pg s).2 = true
  ∧ scanFrame s (findNewButtons pg s).2.
Proof.
  intros Hp Hb Hc. rewrite findNewButtons_eq. cbn [snd].
  pose proof (scanLoop_isProcessing pg (querySelectorAll pg) 0 (emit Scan s)) as Hp'.
  pose proof (scanLoop_idle pg (querySelectorAll pg) 0 (emit Scan s)) as Hi.
  pose proof (scanLoop_frame pg (querySelectorAll pg) 0 (emit Scan s)) as Hf.
  pose proof (proj2 (scanLoop_pending pg (querySelectorAll pg) 0 (emit Scan s) b)
                (or_intror (conj Hb Hc))) as Hin.
  set (r := scanLoop pg (querySelectorAll pg) 0 (emit Scan s)) in *.
  simpl in Hp', Hi. rewrite Hp in Hp'.
  assert ((if 0 <? r.1 then processPendingButtons r.2 else r.2) = r.2) as ->.
  { destruct (0 <? r.1); [| done]. unfold processPendingButtons. by rewrite Hp'. }
  by split_and!.
Qed.

(** The idle callback subscribes the attached buttons of its batch. *)
Lemma observeEach_keeps pg batch s b :
  isObserved b s = true -> isObserved b (final (observeEach pg batch s)) = true.
Proof.
  revert s. induction batch as [|x rest IH]; intros s Hobs; simpl; [done |].
  destruct (isConnected (element pg x)); [| by apply IH].
  unfold observe. unfold isObserved in Hobs.
  destruct (intersectionObserver s) as [targets|] eqn:Hio; [| done]. simpl.
  apply IH. unfold isObserved. simpl.
  apply bool_decide_eq_true. apply bool_decide_eq_true in Hobs.
  by apply elem_of_union_r.
Qed.

Lemma observeEach_observed pg batch s b :
  is_Some (intersectionObserver s) -> b ∈ batch ->
  isConnected (element pg b) = true ->
  isObserved b (final (observeEach pg batch s)) = true.
Proof.
  revert s. induction batch as [|x rest IH]; intros s Hio Hb Hc; simpl;
    [by apply elem_of_nil in Hb |].
  destruct Hio as [targets Hio].
  apply elem_of_cons in Hb as [<- | Hb].
  - rewrite Hc. unfold observe. rewrite Hio. simpl.
    apply observeEach_keeps. unfold isObserved. simpl.
    apply bool_decide_eq_true. by apply elem_of_union_l, elem_of_singleton.
  - destruct (isConnected (element pg x)); [| by apply IH].
    unfold observe. rewrite Hio. simpl. by apply IH.
Qed.

Lemma observeEach_returns pg batch s :
  is_Some (intersectionObserver s) -> ∃ s1, observeEach pg batch s = Normal s1.
Proof.
  revert s. induction batch as [|x rest IH]; intros s Hio; simpl; [by eexists |].
  destruct (isConnected (element pg x)); [| by apply IH].
  unfold observe. destruct Hio as [targets ->]. simpl. apply IH. by eexists.
Qed.

(** X20 (a rescan brings a button to the gate).  In a reachable state
    in which a batch waits for its idle callback, let a scan timer come due
    on a page where a button of the batch is a candidate.  The scan puts
    the button into the pending set and leaves it there; the idle callback
    then subscribes it.  Afterwards the button is pending, watched and still
    valid, and no batch is under way. *)
Theorem rescan_brings_to_gate pg b s tm req :
  reachable s ->
  isProcessing s = true ->
  idleCallbacks s !! 0 = Some req -> b ∈ buttons req ->
  tm ∈ timers s -> due tm ≤ now s -> (∀ b', task tm ≠ Click b') ->
  b ∈ querySelectorAll pg -> isCandidate pg s b = true ->
  ∃ s', run (at_ pg [EvTimer (tid tm); EvIdle 0]) s = Some s'
        ∧ b ∈ pendingButtons s' ∧ isObserved b s' = true
        ∧ isValidShowMoreButton pg s' b = true
        ∧ isProcessing s' = false.
Proof.
  intros Hr Hp Hreq Hb Hin Hdue Hno Hq Hc.
  destruct (idsInv_reachable s Hr) as [Hnd _].
  pose proof (idleInv_callbacks s Hr) as HI.
  destruct (started s).
  2: { apply pristine_fields in HI as (_ & _ & _ & HI & _). congruence. }
  destruct HI as (Hio & _ & _).
  pose proof Hc as Hv. apply andb_true_iff in Hv as [_ Hv].
  destruct (isValid_sound pg s b Hv) as (Hconn & _).
  (* the scan *)
  assert (∃ s1, fireTimer pg tm s = s1
                ∧ b ∈ pendingButtons s1
                ∧ idleCallbacks s1 = idleCallbacks s
                ∧ processedButtons s1 = processedButtons s
                ∧ intersectionObserver s1 = intersectionObserver s)
    as (s1 & Hs1 & Hpend1 & Hidle1 & Hproc1 & Hio1).
  { eexists. split; [done |]. unfold fireTimer.
    assert (isProcessing (fireStart tm s) = true) as Hp0 by done.
    assert (isCandidate pg (fireStart tm s) b = true) as Hc0 by done.
    destruct (task tm) as [| | |b'|] eqn:Htask; simpl.
    - unfold initialScanTask.
      destruct (scan_while_processing pg (fireStart tm s) b Hp0 Hq Hc0)
        as (H1 & H2 & _ & (H3 & H4 & _)).
      destruct (findNewButtons pg (fireStart tm s)) as [found s2]. simpl in *.
      by rewrite H2, H3, H4.
    - destruct (scan_while_processing pg (fireStart tm s) b Hp0 Hq Hc0)
        as (H1 & H2 & _ & (H3 & H4 & _)).
      by rewrite H2, H3, H4.
    - destruct (scan_while_processing pg (fireStart tm s) b Hp0 Hq Hc0)
        as (H1 & H2 & _ & (H3 & H4 & _)).
      by rewrite H2, H3, H4.
    - by destruct (Hno b').
    - unfold backupTask.
      set (s0 := set_pendingButtons _ (fireStart tm s)).
      assert (isProcessing s0 = true) as Hp1 by done.
      assert (isCandidate pg s0 b = true) as Hc1 by done.
      destruct (scan_while_processing pg s0 b Hp1 Hq Hc1)
        as (H1 & H2 & _ & (H3 & H4 & _)).
      by rewrite H2, H3, H4. }
  (* the idle callback *)
  set (s2 := set_idleCallbacks (delete 0 (idleCallbacks s1)) s1).
  assert (is_Some (intersectionObserver s2)) as Hio2 by (simpl; by rewrite Hio1).
  pose proof (observeEach_frame pg (buttons req) s2) as (Hproc3 & Hpend3 & _).
  pose proof (observeEach_observed pg (buttons req) s2 b Hio2 Hb Hconn) as Hobs3.
  destruct (observeEach_returns pg (buttons req) s2 Hio2) as [s3 Hs3].
  rewrite Hs3 in *. simpl in *.
  exists (set_isProcessing false s3). split_and!.
  - unfold at_. cbn [map run step].
    rewrite (lookupTimer_NoDup _ _ Hnd Hin), (proj2 (Nat.leb_le _ _) Hdue), Hs1.
    assert (idleCallbacks s1 !! 0 = Some req) as -> by by rewrite Hidle1.
    unfold processFunction. fold s2. by rewrite Hs3.
  - simpl. by rewrite Hpend3.
  - done.
  - revert Hv. unfold isValidShowMoreButton. simpl. by rewrite Hproc3, Hproc1.
  - done.
Qed.

Lemma rescan_brings_to_gate_witness :
  ∃ s', run (at_ (timeline 1) [EvTimer 2; EvIdle 0]) backupDue = Some s'
        ∧ 0 ∈ pendingButtons s' ∧ isObserved 0 s' = true
        ∧ isValidShowMoreButton (timeline 1) s' 0 = true
        ∧ isProcessing s' = false.
Proof.
  apply (rescan_brings_to_gate (timeline 1) 0 backupDue
           {| tid := 2; due := 5000; task := Backup; period := Some 5000 |}
           {| buttons := [0]; deadline := 2000 |}).
  - exists homeUrl,
      (at_ (timeline 1) [EvReady; EvTick 1000; EvTimer 1; EvTick 4000]).
    by vm_compute.
  - by vm_compute.
  - by vm_compute.
  - left.
  - apply (bool_decide_unpack _). by vm_compute.
  - by vm_compute.
  - done.
  - left.
  - by vm_compute.
Defined.

(** ** The earlier variant of the script *)

Section LegacyPipeline.
Import LegacyLoop LegacyTrace.

Lemma legacy_run_invariant (Inv : State -> Prop) tr :
  (∀ doc ev s s', step doc ev s = Some s' -> Inv s -> Inv s') ->
  ∀ s s', run tr s = Some s' -> Inv s -> Inv s'.
Proof.
  intros Hstep. induction tr as [|[doc ev] rest IH]; intros s s' Hrun HI;
    simpl in *.
  - by injection Hrun as <-.
  - destruct (step doc ev s) as [s1|] eqn:H1; [| done]. eauto.
Qed.

Lemma legacy_reachable_invariant (Inv : State -> Prop) :
  (∀ pathname, Inv (boot pathname)) ->
  (∀ doc ev s s', step doc ev s = Some s' -> Inv s -> Inv s') ->
  ∀ s, reachable s -> Inv s.
Proof.
  intros Hboot Hstep s (pathname & tr & Hrun).
  eapply legacy_run_invariant; eauto.
Qed.

Lemma legacy_clearTimeout_eq h s :
  clearTimeout h s
  = set_timers (match h with
                | Some i => filter (λ tm, tid tm ≠ i) (timers s)
                | None => timers s
                end) s.
Proof. destruct h; [done | by destruct s]. Qed.

Lemma legacy_lookupTimer_Some i l tm :
  lookupTimer i l = Some tm -> tm ∈ l ∧ tid tm = i.
Proof.
  unfold lookupTimer. intros H. apply head_Some in H as [l' Hl'].
  assert (tm ∈ filter (λ tm, tid tm = i) l) as Hin by (rewrite Hl'; left).
  by apply list_elem_of_filter in Hin as [? ?].
Qed.

(** What one turn of the loop is. *)
Lemma legacy_step_cases doc ev s s' :
  step doc ev s = Some s' ->
  match ev with
  | EvReady => started s = false ∧ s' = initialize (set_started true s)
  | EvMutations mutations =>
      s' = debouncedExpand s ∨ s' = s
  | EvNavigationCheck => s' = handleNavigation doc s
  | EvTimer i =>
      ∃ tm, tm ∈ timers s ∧ tid tm = i ∧ due tm ≤ now s
            ∧ s' = fireTimer (page doc) tm s
  | EvTick dt => s' = advance dt s
  end.
Proof.
  destruct ev as [|mutations| |i|dt]; simpl; intros H.
  - destruct (started s); [done |]. by injection H as <-.
  - destruct (observer s); [| done]. injection H as <-.
    unfold onMutations. destruct (existsb _ _); auto.
  - by injection H as <-.
  - destruct (lookupTimer i (timers s)) as [tm|] eqn:Hl; [| done].
    apply legacy_lookupTimer_Some in Hl as [Hin Hid].
    destruct (due tm <=? now s) eqn:Hdue; [| done].
    apply Nat.leb_le in Hdue. injection H as <-. by exists tm.
  - by injection H as <-.
Qed.

(** What the click closure leaves behind: nothing, an error line, or, on a
    button that passes [isShowMoreButton], a click, the counter of its run
    advanced and a log line. *)
Lemma legacy_clickTask_cases pg b cell s :
  clickTask pg b cell s = s
  ∨ clickTask pg b cell s = emit (ConsoleError MsgError) s
  ∨ (Legacy.isShowMoreButton (element pg b) = true
     ∧ clickTask pg b cell s
       = emit (ConsoleLog MsgExpanded) (increment cell (emit (Clicked b) s))).
Proof.
  unfold clickTask, click.
  destruct (isConnected (element pg b)); simpl; [| by left].
  destruct (Legacy.isShowMoreButton (element pg b)); simpl; [| by left].
  destruct (click_raises (element pg b)); simpl; auto.
Qed.

Lemma legacy_setTimeout_fields t d s :
  timers (setTimeout t d s)
  = timers s ++ [{| tid := nextTimerId s; due := now s + d; task := t;
                    period := None |}]
  ∧ log (setTimeout t d s) = log s
  ∧ now (setTimeout t d s) = now s
  ∧ clickedCount (setTimeout t d s) = clickedCount s
  ∧ processedButtons (setTimeout t d s) = processedButtons s.
Proof. done. Qed.

(** What a click timer does when it fires. *)
Lemma legacy_fireTimer_click pg tm b cell s :
  task tm = Click b cell ->
  timers (fireTimer pg tm s) = rearm tm (timers s)
  ∧ processedButtons (fireTimer pg tm s) = processedButtons s
  ∧ now (fireTimer pg tm s) = now s
  ∧ ∃ extra,
      log (fireTimer pg tm s) = extra ++ (now s, Fire (Click b cell)) :: log s
      ∧ (extra = [] ∨ extra = [(now s, ConsoleError MsgError)]
         ∨ (extra = [(now s, ConsoleLog MsgExpanded); (now s, Clicked b)]
            ∧ Legacy.isShowMoreButton (element pg b) = true)).
Proof.
  intros Htask. unfold fireTimer, fireStart. rewrite Htask. cbn [runTask].
  destruct (legacy_clickTask_cases pg b cell
              (emit (Fire (Click b cell)) (set_timers (rearm tm (timers s)) s)))
    as [-> | [-> | [Hv ->]]]; (split_and!; [done | done | done |]).
  - exists []. auto.
  - exists [(now s, ConsoleError MsgError)]. auto.
  - exists [(now s, ConsoleLog MsgExpanded); (now s, Clicked b)]. auto.
Qed.

(** The loop of a scan changes the processed set and the timer queue. *)
Lemma forEach_frame pg buttons cell s :
  clickedCount (forEach pg buttons cell s) = clickedCount s
  ∧ now (forEach pg buttons cell s) = now s
  ∧ log (forEach pg buttons cell s) = log s.
Proof.
  revert s. induction buttons as [|b rest IH]; intros s; cbn [forEach]; [done |].
  case_bool_decide; [apply IH |].
  destruct (Legacy.isShowMoreButton (element pg b)); cbn [negb]; [| apply IH].
  destruct (IH (setTimeout (Click b cell)
                  (LegacyLoop.CONFIG.clickDelay + counter cell s * 100)
                  (set_processedButtons ({[b]} ∪ processedButtons s) s)))
    as (H1 & H2 & H3).
  by rewrite H1, H2, H3.
Qed.

Lemma forEach_timers pg buttons cell s tm :
  tm ∈ timers (forEach pg buttons cell s) ->
  tm ∈ timers s
  ∨ (period tm = None
     ∧ due tm = now s + (LegacyLoop.CONFIG.clickDelay + counter cell s * 100)
     ∧ ∃ b, task tm = Click b cell ∧ b ∈ buttons
            ∧ Legacy.isShowMoreButton (element pg b) = true).
Proof.
  revert s. induction buttons as [|b rest IH]; intros s; cbn [forEach];
    [by left |].
  case_bool_decide.
  { intros [? | (? & ? & b' & ? & ? & ?)]%IH; [by left | right].
    split_and!; try done. exists b'. split_and!; try done. by right. }
  destruct (Legacy.isShowMoreButton (element pg b)) eqn:Hv; cbn [negb].
  2: { intros [? | (? & ? & b' & ? & ? & ?)]%IH; [by left | right].
       split_and!; try done. exists b'. split_and!; try done. by right. }
  intros [Hin | (? & ? & b' & ? & ? & ?)]%IH.
  - destruct (legacy_setTimeout_fields (Click b cell)
                (LegacyLoop.CONFIG.clickDelay + counter cell s * 100)
                (set_processedButtons ({[b]} ∪ processedButtons s) s))
      as (Ht & _).
    rewrite Ht in Hin.
    apply elem_of_app in Hin as [? | ->%list_elem_of_singleton];
      [by left | right].
    split_and!; try done. exists b. split_and!; try done. left.
  - right. split_and!; try done. exists b'. split_and!; try done. by right.
Qed.

(** The counter of a run is zero while its loop runs and when the loop is
    over: no click closure can run in between. *)
Lemma expandTruncatedPosts_eq pg s :
  expandTruncatedPosts pg s
  = forEach pg (querySelectorAll pg) (length (clickedCount s))
      (set_clickedCount (clickedCount s ++ [0]) s).
Proof.
  unfold expandTruncatedPosts.
  destruct (forEach_frame pg (querySelectorAll pg) (length (clickedCount s))
              (set_clickedCount (clickedCount s ++ [0]) s)) as (Hc & _).
  unfold counter. rewrite Hc. simpl.
  by rewrite lookup_app_r, Nat.sub_diag by done.
Qed.

Lemma legacy_counter_fresh s :
  counter (length (clickedCount s)) (set_clickedCount (clickedCount s ++ [0]) s)
  = 0.
Proof.
  unfold counter. simpl. by rewrite lookup_app_r, Nat.sub_diag by done.
Qed.

(** *** At most one click *)

Lemma legacy_clickInv_frame s s' :
  (∀ b, attempts b s' = attempts b s) ->
  (∀ b, clicks b s' = clicks b s) ->
  (∀ b, armed b s' ≤ armed b s) ->
  (∀ b, b ∈ processedButtons s -> b ∈ processedButtons s') ->
  (∀ tm b cell, tm ∈ timers s' -> task tm = Click b cell ->
                tm ∈ timers s ∨ period tm = None) ->
  clickInv s -> clickInv s'.
Proof.
  intros Hat Hcl Har Hpr Hone [Ho Hb]. split.
  - intros tm b cell Hin Ht. destruct (Hone tm b cell Hin Ht); eauto.
  - intros b. destruct (Hb b) as (Hle & Hc & Hin). specialize (Har b).
    rewrite Hat, Hcl. split_and!; [lia | done |]. intros H. apply Hpr, Hin. lia.
Qed.

Lemma legacy_armed_snoc b l tm :
  count (isClickTimer b) (l ++ [tm])
  = count (isClickTimer b) l + (if isClickTimer b tm then 1 else 0).
Proof. rewrite count_app. simpl. lia. Qed.

Lemma legacy_isClickTimer_click b i d b0 cell p :
  isClickTimer b (Build_Timer i d (Click b0 cell) p) = bool_decide (b0 = b).
Proof. done. Qed.

Lemma legacy_isAttempt_fire b t b0 cell :
  isAttempt b (t, Fire (Click b0 cell)) = bool_decide (b0 = b).
Proof. done. Qed.

Lemma legacy_isClicked_clicked b t b0 :
  isClicked b (t, Clicked b0) = bool_decide (b0 = b).
Proof. done. Qed.

Lemma legacy_count_rearm_le (p : Timer -> bool) tm l :
  tm ∈ l -> (∀ d, p (Build_Timer (tid tm) d (task tm) (period tm)) = p tm) ->
  count p (rearm tm l) ≤ count p l.
Proof.
  intros Hin Hp. unfold rearm. destruct (period tm) as [q|] eqn:Hq.
  - rewrite count_app. simpl. rewrite Hp.
    destruct (p tm) eqn:Hptm.
    + assert (¬ tid tm ≠ tid tm) as Hne by (intros H0; by apply H0).
      pose proof (count_filter_lt p (λ x, tid x ≠ tid tm) l tm Hin Hptm Hne).
      lia.
    + pose proof (count_filter_le p (λ x, tid x ≠ tid tm) l). lia.
  - apply count_filter_le.
Qed.

Lemma legacy_elem_of_rearm tm tm0 l :
  tm ∈ rearm tm0 l -> tm ∈ l ∨ (period tm0 ≠ None ∧ task tm = task tm0).
Proof.
  unfold rearm. destruct (period tm0).
  - intros [Hin | Hin]%elem_of_app.
    + left. by apply list_elem_of_filter in Hin as [_ ?].
    + right. by apply list_elem_of_singleton in Hin as ->.
  - intros Hin. left. by apply list_elem_of_filter in Hin as [_ ?].
Qed.

Lemma legacy_clickInv_forEach pg buttons cell s :
  clickInv s -> clickInv (forEach pg buttons cell s).
Proof.
  revert s. induction buttons as [|b0 rest IH]; intros s HI; cbn [forEach];
    [done |].
  case_bool_decide as Hnp; [by apply IH |].
  destruct (Legacy.isShowMoreButton (element pg b0)); cbn [negb]; [| by apply IH].
  apply IH. destruct HI as [Hone Hb].
  destruct (legacy_setTimeout_fields (Click b0 cell)
              (LegacyLoop.CONFIG.clickDelay + counter cell s * 100)
              (set_processedButtons ({[b0]} ∪ processedButtons s) s))
    as (Ht & Hl & _ & _ & Hp).
  unfold clickInv, attempts, clicks, armed in *. rewrite Ht, Hl, Hp.
  cbn [timers log processedButtons set_processedButtons]. split.
  - intros tm b c [Hin | ->%list_elem_of_singleton]%elem_of_app Htask;
      [by eapply Hone | done].
  - assert (count (isAttempt b0) (log s) + count (isClickTimer b0) (timers s) = 0)
      as Hzero.
    { destruct (Hb b0) as (_ & _ & Hin).
      destruct (count (isAttempt b0) (log s) + count (isClickTimer b0) (timers s));
        [done | exfalso; apply Hnp, Hin; lia]. }
    intros b. destruct (Hb b) as (Hle & Hc & Hin).
    rewrite !legacy_armed_snoc, !legacy_isClickTimer_click.
    case_bool_decide as Heq.
    + subst b0.
      split_and!; [lia | done | intros _; by apply elem_of_union_l, elem_of_singleton].
    + split_and!; [lia | done | intros; apply elem_of_union_r, Hin; lia].
Qed.

Lemma legacy_clickInv_step doc ev s s' :
  step doc ev s = Some s' -> clickInv s -> clickInv s'.
Proof.
  intros Hstep. apply legacy_step_cases in Hstep.
  destruct ev as [|mutations| |i|dt].
  - destruct Hstep as [_ ->]. apply legacy_clickInv_frame; try done.
    + intros b. unfold armed. simpl. rewrite !legacy_armed_snoc. simpl. lia.
    + simpl. intros tm b c Hin Ht.
      repeat (apply elem_of_app in Hin as [Hin | ->%list_elem_of_singleton];
              [| done]).
      by left.
  - destruct Hstep as [-> | ->]; [| done].
    unfold debouncedExpand. rewrite !legacy_clearTimeout_eq.
    apply legacy_clickInv_frame; try done.
    + intros b. unfold armed. simpl. rewrite legacy_armed_snoc. simpl.
      destruct (debounceTimeout s) as [j|]; [| lia].
      pose proof (count_filter_le (isClickTimer b) (λ tm, tid tm ≠ j) (timers s)).
      lia.
    + simpl. intros tm b c [Hin | ->%list_elem_of_singleton]%elem_of_app Ht;
        [| done].
      left. destruct (debounceTimeout s); [| done].
      by apply list_elem_of_filter in Hin as [_ ?].
  - subst s'. unfold handleNavigation. destruct (negb _); [| done].
    apply legacy_clickInv_frame; try done.
    + intros b. unfold armed. simpl. rewrite legacy_armed_snoc. simpl. lia.
    + simpl. intros tm b c [Hin | ->%list_elem_of_singleton]%elem_of_app Ht;
        [by left | done].
  - destruct Hstep as (tm & Hin & _ & _ & ->). intros HI.
    unfold fireTimer. destruct (task tm) as [|b0 c0] eqn:Htask; simpl.
    + rewrite expandTruncatedPosts_eq. apply legacy_clickInv_forEach.
      revert HI. apply legacy_clickInv_frame; try done.
      * intros b. unfold attempts, fireStart. simpl. by rewrite Htask.
      * intros b. apply legacy_count_rearm_le; [done | done].
      * simpl. intros tm' b c [? | [_ Ht']]%legacy_elem_of_rearm Ht; [by left |].
        congruence.
    + destruct HI as [Hone Hb].
      assert (period tm = None) as Hper by by eapply Hone.
      assert (∀ b, count (isClickTimer b) (rearm tm (timers s))
                   + (if bool_decide (b0 = b) then 1 else 0)
                   ≤ armed b s) as Harm.
      { intros b. unfold armed, rearm. rewrite Hper. case_bool_decide as Heq.
        - subst b. apply count_filter_lt with (x := tm);
            [done | | by intros H; apply H].
          unfold isClickTimer. rewrite Htask. by apply bool_decide_eq_true.
        - pose proof (count_filter_le (isClickTimer b) (λ x, tid x ≠ tid tm)
                        (timers s)). lia. }
      destruct (legacy_fireTimer_click (page doc) tm b0 c0 s Htask)
        as (Ht & Hp & _ & extra & Hl & Hex).
      unfold fireTimer in Ht, Hp, Hl. rewrite Htask in Ht, Hp, Hl.
      cbn [runTask] in Ht, Hp, Hl.
      unfold clickInv, attempts, clicks, armed in *. rewrite Ht, Hp, Hl. split.
      * intros tm' b c [? | [? _]]%legacy_elem_of_rearm Htask';
          [by eapply Hone | done].
      * intros b. specialize (Harm b). destruct (Hb b) as (H1 & Hc & Hpr).
        rewrite !count_app. cbn [count].
        rewrite !legacy_isAttempt_fire.
        change (isClicked b (now s, Fire (Click b0 c0))) with false.
        assert (count (isAttempt b) extra = 0
                ∧ count (isClicked b) extra
                  ≤ (if bool_decide (b0 = b) then 1 else 0)) as [Ha Hk].
        { destruct Hex as [-> | [-> | [-> _]]]; cbn; unfold isClicked; cbn;
            (split; [done |]); repeat case_bool_decide; try done; lia. }
        rewrite Ha. case_bool_decide;
          (split_and!; [lia | lia | intros; apply Hpr; lia]).
  - by subst s'.
Qed.

Lemma legacy_clickInv_reachable s : reachable s -> clickInv s.
Proof.
  apply legacy_reachable_invariant; [| apply legacy_clickInv_step].
  intros pathname. split; [by intros tm b c ?%elem_of_nil |].
  intros b. unfold attempts, clicks, armed. simpl. split_and!; lia.
Qed.

(** X21 (the earlier variant: at most once).  In every state the event
    loop of the earlier variant reaches, [click()] has returned on an
    element at most once, and the click closures of an element that ran or
    are queued are at most one in all: a scan marks a button as it queues
    its click. *)
Theorem legacy_at_most_once s b :
  reachable s -> clicks b s ≤ 1 ∧ attempts b s + armed b s ≤ 1.
Proof.
  intros [_ Hb]%legacy_clickInv_reachable.
  destruct (Hb b) as (? & ? & _). lia.
Qed.

Lemma legacy_at_most_once_witness :
  clicks 0 (stateAfter untilClick) ≤ 1
  ∧ attempts 0 (stateAfter untilClick) + armed 0 (stateAfter untilClick) ≤ 1.
Proof.
  apply (legacy_at_most_once (stateAfter untilClick) 0).
  exists "/home", untilClick. by vm_compute.
Defined.

(** *** The stagger of the clicks *)

Lemma legacy_staggerInv_frame s s' :
  (∀ e, e ∈ log s -> e ∈ log s') ->
  (∀ t n, (t, ConsoleLog (MsgProcessed n)) ∈ log s' ->
          (t, ConsoleLog (MsgProcessed n)) ∈ log s) ->
  (∀ tm b cell, tm ∈ timers s' -> task tm = Click b cell -> tm ∈ timers s) ->
  staggerInv s -> staggerInv s'.
Proof.
  intros Hl Hn Ht [H1 H2]. split.
  - intros t n Hin. by eapply H1, Hn.
  - intros tm b cell Hin Htask.
    destruct (H2 tm b cell (Ht _ _ _ Hin Htask) Htask) as (? & t & ? & ?).
    split; [done |]. exists t. auto.
Qed.

Lemma legacy_staggerInv_step doc ev s s' :
  step doc ev s = Some s' -> staggerInv s -> staggerInv s'.
Proof.
  intros Hstep. apply legacy_step_cases in Hstep.
  destruct ev as [|mutations| |i|dt].
  - destruct Hstep as [_ ->]. apply legacy_staggerInv_frame; simpl.
    + intros e He. by do 2 right.
    + intros t n Hin. by repeat (apply elem_of_cons in Hin as [[=] | Hin]).
    + intros tm b c Hin Ht.
      by repeat (apply elem_of_app in Hin as [Hin | ->%list_elem_of_singleton];
                 [| done]).
  - destruct Hstep as [-> | ->]; [| done].
    unfold debouncedExpand. rewrite !legacy_clearTimeout_eq.
    apply legacy_staggerInv_frame; simpl; [done | done |].
    intros tm b c [Hin | ->%list_elem_of_singleton]%elem_of_app Ht; [| done].
    destruct (debounceTimeout s); [| done].
    by apply list_elem_of_filter in Hin as [_ ?].
  - subst s'. unfold handleNavigation. destruct (negb _); [| done].
    apply legacy_staggerInv_frame; simpl.
    + intros e He. by right.
    + intros t n Hin. by apply elem_of_cons in Hin as [[=] | Hin].
    + by intros tm b c [Hin | ->%list_elem_of_singleton]%elem_of_app Ht.
  - destruct Hstep as (tm & Hin & _ & _ & ->). intros HI.
    destruct (task tm) as [|b0 c0] eqn:Htask.
    + assert (staggerInv (fireStart tm s)) as [H1 H2].
      { revert HI. apply legacy_staggerInv_frame; simpl.
        - intros e He. by right.
        - intros t n Hi. by apply elem_of_cons in Hi as [[=] | Hi].
        - intros tm' b c [? | [_ Ht']]%legacy_elem_of_rearm Ht; [done |].
          congruence. }
      unfold fireTimer. rewrite Htask. cbn [runTask].
      rewrite expandTruncatedPosts_eq.
      set (s0 := set_clickedCount _ (fireStart tm s)).
      destruct (forEach_frame (page doc) (querySelectorAll (page doc))
                  (length (clickedCount (fireStart tm s))) s0) as (_ & _ & Hl).
      unfold staggerInv. rewrite Hl. split; [exact H1 |].
      intros tm' b c [Hin' | (Hper & Hd & _)]%forEach_timers Ht.
      * by apply (H2 tm' b c).
      * split; [done |]. exists (now s).
        split; [subst s0; simpl; rewrite Htask; left |].
        rewrite Hd. subst s0. by rewrite legacy_counter_fresh.
    + destruct HI as [H1 H2].
      destruct (legacy_fireTimer_click (page doc) tm b0 c0 s Htask)
        as (Ht & _ & _ & extra & Hl & Hex).
      unfold staggerInv. rewrite Ht, Hl. split.
      * intros t n [Hi | Hi]%elem_of_app.
        -- destruct Hex as [-> | [-> | [-> _]]];
             repeat (apply elem_of_cons in Hi as [[=] | Hi]);
             by apply elem_of_nil in Hi.
        -- apply elem_of_cons in Hi as [[=] | Hi]. by eapply H1.
      * intros tm' b c [Hi | [Hper _]]%legacy_elem_of_rearm Htask'.
        -- destruct (H2 tm' b c Hi Htask') as (? & t & ? & ?).
           split; [done |]. exists t.
           split; [| done]. apply elem_of_app. right. by right.
        -- by destruct (H2 tm b0 c0 Hin Htask) as (? & _).
  - by subst s'.
Qed.

(** X22 (the earlier variant: the stagger).  In the earlier variant the
    counter of a scan is still zero when the delays of its clicks are
    computed and when its summary is due: click closures run only after
    the scan has returned.  So in every state its event loop reaches, every
    queued click is a timeout due exactly 500 ms after the scan that queued
    it, whatever the number of buttons of that scan, and the summary line
    of a scan has never been printed. *)
Theorem legacy_stagger_never_applies s :
  reachable s ->
  (∀ tm b cell, tm ∈ timers s -> task tm = Click b cell ->
                period tm = None
                ∧ ∃ t, (t, Fire Expand) ∈ log s ∧ due tm = t + 500)
  ∧ (∀ t n, ¬ ((t, ConsoleLog (MsgProcessed n)) ∈ log s))
  ∧ ∀ pg, log (expandTruncatedPosts pg s) = log s.
Proof.
  intros Hr.
  assert (staggerInv s) as [H1 H2].
  { revert s Hr. apply legacy_reachable_invariant;
      [| apply legacy_staggerInv_step].
    intros pathname. split; [by intros t n ?%elem_of_nil |].
    by intros tm b c ?%elem_of_nil. }
  split_and!; [exact H2 | exact H1 |].
  intros pg. rewrite expandTruncatedPosts_eq.
  by destruct (forEach_frame pg (querySelectorAll pg) (length (clickedCount s))
                 (set_clickedCount (clickedCount s ++ [0]) s)) as (_ & _ & ->).
Qed.

Lemma legacy_stagger_never_applies_witness :
  (∀ tm b cell, tm ∈ timers (stateAfter untilScan) -> task tm = Click b cell ->
                period tm = None
                ∧ ∃ t, (t, Fire Expand) ∈ log (stateAfter untilScan)
                       ∧ due tm = t + 500)
  ∧ (∀ t n, ¬ ((t, ConsoleLog (MsgProcessed n)) ∈ log (stateAfter untilScan)))
  ∧ ∀ pg, log (expandTruncatedPosts pg (stateAfter untilScan))
          = log (stateAfter untilScan).
Proof.
  apply (legacy_stagger_never_applies (stateAfter untilScan)).
  exists "/home", untilScan. by vm_compute.
Defined.

(** *** Where the clicks of the earlier variant come from *)

(** X23 (the earlier variant: clicks are validated again).  One turn of
    the event loop of the earlier variant clicks an element at most once,
    and only a due click timer of that element does so, on an element that
    passes [isShowMoreButton] at that moment. *)
Theorem legacy_clicks_are_revalidated doc ev s s' b :
  step doc ev s = Some s' ->
  clicks b s' ≤ S (clicks b s)
  ∧ (clicks b s' ≠ clicks b s ->
     ∃ i tm cell, ev = EvTimer i ∧ tm ∈ timers s ∧ tid tm = i
                  ∧ task tm = Click b cell ∧ due tm ≤ now s
                  ∧ Legacy.isShowMoreButton (element (page doc) b) = true).
Proof.
  intros Hstep. apply legacy_step_cases in Hstep.
  assert (∀ x, clicks b x = clicks b s ->
               clicks b x ≤ S (clicks b s)
               ∧ (clicks b x ≠ clicks b s ->
                  ∃ i tm cell, ev = EvTimer i ∧ tm ∈ timers s ∧ tid tm = i
                               ∧ task tm = Click b cell ∧ due tm ≤ now s
                               ∧ Legacy.isShowMoreButton (element (page doc) b)
                                 = true)) as Hsame
    by (intros x ->; split; [lia | done]).
  destruct ev as [|mutations| |i|dt].
  - destruct Hstep as [_ ->]. by apply Hsame.
  - destruct Hstep as [-> | ->]; apply Hsame; [| done].
    unfold debouncedExpand. by rewrite !legacy_clearTimeout_eq.
  - subst s'. apply Hsame. unfold handleNavigation. by destruct (negb _).
  - destruct Hstep as (tm & Hin & Hid & Hdue & ->).
    destruct (task tm) as [|b0 c0] eqn:Htask.
    + apply Hsame. unfold fireTimer. rewrite Htask. cbn [runTask].
      rewrite expandTruncatedPosts_eq. unfold clicks.
      set (s0 := set_clickedCount _ (fireStart tm s)).
      destruct (forEach_frame (page doc) (querySelectorAll (page doc))
                  (length (clickedCount (fireStart tm s))) s0) as (_ & _ & ->).
      by subst s0.
    + destruct (legacy_fireTimer_click (page doc) tm b0 c0 s Htask)
        as (_ & _ & _ & extra & Hl & Hex).
      unfold clicks in *. rewrite Hl, count_app. cbn [count].
      change (isClicked b (now s, Fire (Click b0 c0))) with false.
      destruct Hex as [-> | [-> | [-> Hv]]]; cbn [count].
      * split; [lia | intros H; lia].
      * change (isClicked b (now s, ConsoleError MsgError)) with false.
        split; [lia | intros H; lia].
      * change (isClicked b (now s, ConsoleLog MsgExpanded)) with false.
        rewrite !legacy_isClicked_clicked. case_bool_decide as Heq.
        -- subst b0. split; [lia |]. intros _. by exists i, tm, c0.
        -- split; [lia | intros H; lia].
  - subst s'. by apply Hsame.
Qed.

Lemma legacy_clicks_are_revalidated_witness :
  clicks 0 (stateAfter untilClick)
  ≤ S (clicks 0 (advance 500 (stateAfter untilScan)))
  ∧ (clicks 0 (stateAfter untilClick)
     ≠ clicks 0 (advance 500 (stateAfter untilScan)) ->
     ∃ i tm cell, EvTimer 3 = EvTimer i
                  ∧ tm ∈ timers (advance 500 (stateAfter untilScan))
                  ∧ tid tm = i ∧ task tm = Click 0 cell
                  ∧ due tm ≤ now (advance 500 (stateAfter untilScan))
                  ∧ Legacy.isShowMoreButton (element (page homeDocument) 0)
                    = true).
Proof.
  apply (legacy_clicks_are_revalidated homeDocument (EvTimer 3)
           (advance 500 (stateAfter untilScan)) (stateAfter untilClick) 0).
  by vm_compute.
Defined.

End LegacyPipeline.
